(** * HOCON parser: a shallow embedding of [parser.go] and [errors.go]

    The development follows the layout of the Go package:

    - the value tree ([ConfigValue]) and the error taxonomy of [errors.go];
    - the token source, Go's [text/scanner], as an interface ([Scanner])
      together with an executable instance for ASCII sources
      ([TextScanner]);
    - the recursive-descent extractor ([extractConfigObject],
      [extractConfigArray], [extractConfigValue], [extractSubstitution]),
      the include resolver and the merge of objects;
    - the substitution pass ([resolveSubstitutions], [processSubstitution])
      over a store in which a container can be referenced from two places;
    - the entry points [parse], [ParseString] and [ParseResource].

    Loops and recursive calls of the Go code consume one unit of [fuel];
    a run that needs more than it was given ends in [OutOfFuel]. *)

From Stdlib Require Import String Ascii List ZArith Bool Lia Arith Permutation.
Import ListNotations.

Set Warnings "-register-all".

Local Open Scope string_scope.
Local Open Scope list_scope.

(** ** Results of fallible operations *)

Inductive error : Type :=
| InvalidConfigObject (message : string)
| InvalidConfigArray (message : string)
| InvalidKey (key : string)
| LeadingPeriod
| TrailingPeriod
| AdjacentPeriods
| InvalidSubstitution (message : string)
| NotAnArray (key : string)
| UnknownConfigValue (token : string)
| UnresolvedSubstitution (path : string)
| InvalidSubstitutionType
| InvalidIncludeValue (message : string)
| CouldNotParseResource
| IncludedArrayRoot
| AtoiError (token : string)
| ParseFloatError (token : string).

Inductive result (A : Type) : Type :=
| Ok (a : A)
| Err (e : error)
| OutOfFuel.

Arguments Ok {A} a.
Arguments Err {A} e.
Arguments OutOfFuel {A}.

Definition bind {A B : Type} (r : result A) (k : A -> result B) : result B :=
  match r with
  | Ok a => k a
  | Err e => Err e
  | OutOfFuel => OutOfFuel
  end.

Declare Scope result_scope.
Delimit Scope result_scope with result.
Notation "'let*' x ':=' r 'in' k" :=
  (bind r (fun x => k))
  (at level 10, x pattern, r at level 100, k at level 200) : result_scope.
Local Open Scope result_scope.

(** ** Characters and runes

    A rune is a Go [int32]; the scanner returns negative runes for token
    classes and the character itself for punctuation. *)

Definition rune := Z.

Definition rune_of (c : ascii) : rune := Z.of_N (N_of_ascii c).

Module scanner.
Definition EOF : rune := (-1)%Z.
Definition Ident : rune := (-2)%Z.
Definition Int : rune := (-3)%Z.
Definition Float : rune := (-4)%Z.
Definition Char : rune := (-5)%Z.
Definition String : rune := (-6)%Z.
Definition RawString : rune := (-7)%Z.
Definition Comment : rune := (-8)%Z.
End scanner.

Definition dquote : ascii := "034"%char.
Definition dquoteString : string := String dquote "".

(** [quoted s] is the source text of the string literal with body [s]. *)
Definition quoted (s : string) : string := String dquote (s ++ dquoteString).

(** ** Token constants of [parser.go] *)

Definition equalsToken := "=".
Definition commaToken := ",".
Definition colonToken := ":".
Definition dotToken := ".".
Definition objectStartToken := "{".
Definition objectEndToken := "}".
Definition arrayStartToken := "[".
Definition arrayEndToken := "]".
Definition plusEqualsToken := "+=".
Definition includeToken := "include".

(** The keys of the [forbiddenCharacters] map, all mapped to [true]. *)
Definition forbiddenCharacterList : list string :=
  [ "$"; dquoteString; objectStartToken; objectEndToken; arrayStartToken;
    arrayEndToken; colonToken; equalsToken; commaToken; "+"; "#"; "`"; "^";
    "?"; "!"; "@"; "*"; "&"; "\"; "("; ")" ].

(** [forbiddenCharacters key]: the map lookup [forbiddenCharacters[key]],
    [false] for a key that is absent from the map. *)
Definition forbiddenCharacters (key : string) : bool :=
  existsb (String.eqb key) forbiddenCharacterList.

(** ** The value tree

    Go's [ConfigValue] is an interface implemented by pointers to objects
    and arrays and by scalar values.  The extractor builds a tree: every
    container it allocates is stored under exactly one field or element.
    A container is therefore identified by the access path ([addr]) of the
    place the extractor stored it in; [Alias] is a second pointer to such a
    container, which only the substitution pass creates. *)

Inductive step : Type :=
| Key (key : string)
| Idx (index : nat).

Definition addr := list step.

Inductive ConfigValue : Type :=
| Object (items : list (string * ConfigValue))
| Array (values : list ConfigValue)
| String (value : string)
| Int (value : Z)
| Float32 (literal : string)
| Boolean (value : bool)
| Null
| Substitution (path : string) (optional : bool)
| Alias (target : addr).

Definition Items := list (string * ConfigValue).

(** A Go map from keys to values, kept in insertion order: [get] is
    [items[key]] with its [ok] flag, [set] is [items[key] = value]. *)
Fixpoint get (items : Items) (key : string) : option ConfigValue :=
  match items with
  | [] => None
  | (k, v) :: rest => if String.eqb k key then Some v else get rest key
  end.

Fixpoint set (items : Items) (key : string) (value : ConfigValue) : Items :=
  match items with
  | [] => [(key, value)]
  | (k, v) :: rest =>
      if String.eqb k key then (k, value) :: rest
      else (k, v) :: set rest key value
  end.

Definition keys (items : Items) : list string := map fst items.

Definition NewConfigObject (items : Items) : ConfigValue := Object items.
Definition NewConfigArray (values : list ConfigValue) : ConfigValue :=
  Array values.
Definition NewConfigString (value : string) : ConfigValue := String value.
Definition NewConfigInt (value : Z) : ConfigValue := Int value.
Definition NewConfigFloat32 (literal : string) : ConfigValue :=
  Float32 literal.

Definition isBooleanString (token : string) : bool :=
  String.eqb token "true" || String.eqb token "yes" || String.eqb token "on"
  || String.eqb token "false" || String.eqb token "no"
  || String.eqb token "off".

(** Modelled from the spec: [NewConfigBooleanFromString] lives in a file of
    the package that is not part of the sources; the spec gives
    [true/yes/on] as the true literals and [false/no/off] as the false
    ones. *)
Definition NewConfigBooleanFromString (token : string) : ConfigValue :=
  Boolean (String.eqb token "true" || String.eqb token "yes"
           || String.eqb token "on").

Definition isSubstitution (token : string) (peekedToken : rune) : bool :=
  String.eqb token "$" && Z.eqb peekedToken (rune_of "{").

Definition isSeparator (token : string) (peekedToken : rune) : bool :=
  String.eqb token equalsToken || String.eqb token colonToken
  || (String.eqb token "+" && Z.eqb peekedToken (rune_of "=")).

(** ** Library functions of [strings] and [strconv] *)

(** [strings.ReplaceAll] of the double quote by the empty string: every
    double quote of the token is dropped, wherever it stands. *)
Fixpoint removeQuotes (token : string) : string :=
  match token with
  | EmptyString => EmptyString
  | String.String c rest =>
      if Ascii.eqb c dquote then removeQuotes rest
      else String.String c (removeQuotes rest)
  end.

Definition isDecimal (c : ascii) : bool :=
  (N.leb 48 (N_of_ascii c) && N.leb (N_of_ascii c) 57)%N.

Fixpoint decimalValue (acc : Z) (digits : string) : option Z :=
  match digits with
  | EmptyString => Some acc
  | String.String c rest =>
      if isDecimal c
      then decimalValue (10 * acc + (Z.of_N (N_of_ascii c) - 48))%Z rest
      else None
  end.

(** [strconv.Atoi] on a platform whose [int] has 64 bits: an optional sign
    and decimal digits; anything else, or a value out of range, is an
    error. *)
Definition Atoi (token : string) : option Z :=
  let signed (negative : bool) (digits : string) :=
    match digits with
    | EmptyString => None
    | _ =>
        match decimalValue 0 digits with
        | Some n =>
            let v := if negative then (- n)%Z else n in
            if ((- 2 ^ 63 <=? v) && (v <=? 2 ^ 63 - 1))%Z then Some v
            else None
        | None => None
        end
    end in
  match token with
  | String.String "-" rest => signed true rest
  | String.String "+" rest => signed false rest
  | _ => signed false token
  end.

Definition HasPrefix (s prefix : string) : bool := String.prefix prefix s.

Fixpoint lastChar (s : string) : option ascii :=
  match s with
  | EmptyString => None
  | String.String c EmptyString => Some c
  | String.String _ rest => lastChar rest
  end.

(** [strings.HasSuffix] for a suffix of one character. *)
Definition HasSuffixChar (s : string) (c : ascii) : bool :=
  match lastChar s with
  | Some d => Ascii.eqb c d
  | None => false
  end.

(** [strings.Split(path, ".")]. *)
Fixpoint splitDots (current : string) (path : string) : list string :=
  match path with
  | EmptyString => [current]
  | String.String c rest =>
      if Ascii.eqb c "."
      then current :: splitDots EmptyString rest
      else splitDots (current ++ String.String c EmptyString)%string rest
  end.

Definition Split (path : string) : list string := splitDots EmptyString path.

(** ** The token source and the platform

    [Scanner] is the part of Go's [text/scanner.Scanner] that the parser
    uses: [Init] on a source, [Scan] (advance to the next token and return
    its class), [TokenText] (text of the token scanned last) and [Peek]
    (the character that follows that token in the source, or [EOF]; it is
    a character, not a token, and white space is not skipped). *)

Class Scanner (T : Type) : Type := {
  Init : string -> T;
  Scan : T -> rune * T;
  TokenText : T -> string;
  Peek : T -> rune
}.

Inductive OpenResult : Type :=
| Opened (content : string)
| ErrNotExist
| OpenFailure.

(** [os_Open] is [os.Open] followed by reading the file; closing a file is
    taken to succeed.  [ParseFloat32] tells whether
    [strconv.ParseFloat(token, 32)] accepts the token; the single-precision
    number kept in a [Float32] node is determined by its literal and is not
    computed here.  [mapRange a ks] is the order in which a [range] loop
    visits the keys [ks] of the map of the object at [a]: Go leaves it
    unspecified, any permutation can occur. *)
Class Platform : Type := {
  os_Open : string -> OpenResult;
  ParseFloat32 : string -> bool;
  mapRange : addr -> list string -> list string;
  mapRange_permutation :
    forall (a : addr) (ks : list string), Permutation (mapRange a ks) ks
}.

Record IncludeToken : Type := mkIncludeToken {
  includePath : string;
  includeRequired : bool
}.

(** ** Merging objects *)

(** [mergeValue value existing] is the value that [mergeConfigObjects]
    stores under a key of the incoming object whose value is [value], when
    the existing map holds [existing] under that key.  Go ranges over the
    incoming map in an unspecified order; the keys of a map are distinct, so
    the resulting map does not depend on it, and the list is taken in its
    own order. *)
Fixpoint mergeValue (value : ConfigValue) (existing : option ConfigValue)
  : ConfigValue :=
  match value, existing with
  | Object new, Some (Object existingItems) =>
      Object
        ((fix range (new : Items) (existingItems : Items) : Items :=
            match new with
            | [] => existingItems
            | (key, v) :: rest =>
                range rest
                  (set existingItems key (mergeValue v (get existingItems key)))
            end) new existingItems)
  | _, _ => value
  end.

Fixpoint mergeConfigObjects (existingItems : Items) (new : Items) : Items :=
  match new with
  | [] => existingItems
  | (key, value) :: rest =>
      mergeConfigObjects
        (set existingItems key (mergeValue value (get existingItems key)))
        rest
  end.

(** The assignment of [extractConfigObject] after [=] or [:]: an object
    assigned to a key that holds an object is merged into it, any other
    value replaces what the key holds. *)
Definition assignValue (root : Items) (key : string)
    (configValue : ConfigValue) : Items :=
  let configValue :=
    match configValue, get root key with
    | Object new, Some (Object existingItems) =>
        Object (mergeConfigObjects existingItems new)
    | _, _ => configValue
    end in
  set root key configValue.

Section Parser.

Context {T : Type} {scannerOps : Scanner T} {platform : Platform}.

(** [p.scanner.Scan()] where the returned rune is dropped. *)
Definition scan (s : T) : T := snd (Scan s).

(** *** Substitutions: [extractSubstitution]

    The loop of the Go function tests the character peeked before the
    first iteration and never refreshes it, so once entered it only ends
    through [break] or [return]. *)
Fixpoint substitutionLoop (fuel : nat) (optional : bool)
    (pathBuilder previousToken : string) (s : T)
  : result (ConfigValue * T) :=
  match fuel with
  | O => OutOfFuel
  | S fuel' =>
      let pathBuilder := (pathBuilder ++ TokenText s)%string in
      let s := scan s in
      let text := TokenText s in
      if String.eqb previousToken dotToken && String.eqb text dotToken
      then Err AdjacentPeriods
      else if String.eqb text objectEndToken then
        if String.eqb previousToken dotToken then Err TrailingPeriod
        else Ok (Substitution pathBuilder optional, scan s)
      else if forbiddenCharacters text then Err (InvalidKey text)
      else substitutionLoop fuel' optional pathBuilder text s
  end.

Definition extractSubstitution (fuel : nat) (s : T)
  : result (ConfigValue * T) :=
  let s := scan s in
  let s := scan s in
  let '(optional, s) :=
    if String.eqb (TokenText s) "?" then (true, scan s) else (false, s) in
  let firstToken := TokenText s in
  if String.eqb firstToken objectEndToken
  then Err (InvalidSubstitution "path expression cannot be empty")
  else if String.eqb firstToken dotToken then Err LeadingPeriod
  else if Z.eqb (Peek s) scanner.EOF
  then Err (InvalidSubstitution "missing closing parenthesis")
  else substitutionLoop fuel optional "" "" s.

(** *** Includes: [validateIncludeValue] *)
Definition validateIncludeValue (s : T) : result (IncludeToken * T) :=
  let token := TokenText s in
  let* (required, s, token) :=
    if String.eqb token "required" then
      let s := scan s in
      if negb (String.eqb (TokenText s) "(")
      then Err (InvalidIncludeValue "missing opening parenthesis")
      else let s := scan s in Ok (true, s, TokenText s)
    else Ok (false, s, token) in
  let* (s, token) :=
    if String.eqb token "file" || String.eqb token "classpath" then
      let s := scan s in
      if negb (String.eqb (TokenText s) "(")
      then Err (InvalidIncludeValue "missing opening parenthesis")
      else
        let s := scan s in
        let path := TokenText s in
        let s := scan s in
        if negb (String.eqb (TokenText s) ")")
        then Err (InvalidIncludeValue "missing closing parenthesis")
        else Ok (s, path)
    else Ok (s, token) in
  let* s :=
    if (required : bool) then
      let s := scan s in
      if negb (String.eqb (TokenText s) ")")
      then Err (InvalidIncludeValue "missing closing parenthesis")
      else Ok s
    else Ok s in
  let tokenLength := String.length token in
  if negb (HasPrefix token dquoteString) || negb (HasSuffixChar token dquote)
     || (tokenLength <? 2)%nat
  then Err (InvalidIncludeValue "expected quoted string")
  else Ok (mkIncludeToken (substring 1 (tokenLength - 2) token) required, s).

(** The end of [extractConfigObject] after its loop. *)
Definition finishObject (root : Items) (parenthesisBalanced : bool) (s : T)
  : result (Items * T) :=
  if negb parenthesisBalanced
  then Err (InvalidConfigObject "parenthesis do not match")
  else Ok (root, s).

(** *** The extractor

    [objectLoop] is the [for] loop of [extractConfigObject] and
    [arrayLoop] the one of [extractConfigArray]; the map [root], the flag
    [parenthesisBalanced], the slice [values] and the scanner are the
    loop state. *)
Fixpoint extractConfigObject (fuel : nat) (s : T) {struct fuel}
  : result (Items * T) :=
  match fuel with
  | O => OutOfFuel
  | S fuel' =>
      let root : Items := [] in
      if String.eqb (TokenText s) objectStartToken then
        let s := scan s in
        if String.eqb (TokenText s) objectEndToken
        then Ok (root, scan s)
        else objectLoop fuel' root false s
      else objectLoop fuel' root true s
  end

with objectLoop (fuel : nat) (root : Items) (parenthesisBalanced : bool)
    (s : T) {struct fuel} : result (Items * T) :=
  match fuel with
  | O => OutOfFuel
  | S fuel' =>
      if Z.eqb (Peek s) scanner.EOF
      then finishObject root parenthesisBalanced s
      else
        let* (root, s) :=
          if String.eqb (TokenText s) includeToken then
            let s := scan s in
            let* (includedConfigObject, s) :=
              parseIncludedResource fuel' s in
            Ok (mergeConfigObjects root includedConfigObject, scan s)
          else Ok (root, s) in
        let key := TokenText s in
        if forbiddenCharacters key then Err (InvalidKey key)
        else if String.eqb key dotToken then Err LeadingPeriod
        else
          let s := scan s in
          let text := TokenText s in
          let* (root, s) :=
            if String.eqb text dotToken || String.eqb text objectStartToken
            then
              let* s :=
                if String.eqb text dotToken then
                  let s := scan s in
                  if String.eqb (TokenText s) dotToken
                  then Err AdjacentPeriods
                  else if isSeparator (TokenText s) (Peek s)
                  then Err TrailingPeriod
                  else Ok s
                else Ok s in
              let* (configObject, s) := extractConfigObject fuel' s in
              Ok (set root key (NewConfigObject configObject), s)
            else Ok (root, s) in
          let* (root, s) :=
            if String.eqb text equalsToken || String.eqb text colonToken
            then
              let '(currentRune, s) := Scan s in
              let* (configValue, s) :=
                extractConfigValue fuel' currentRune s in
              Ok (assignValue root key configValue, s)
            else if String.eqb text "+" then
              if Z.eqb (Peek s) (rune_of "=") then
                let s := scan s in
                let '(currentRune, s) := Scan s in
                parsePlusEqualsValue fuel' root key currentRune s
              else Ok (root, s)
            else Ok (root, s) in
          let s :=
            if String.eqb (TokenText s) commaToken then scan s else s in
          if negb parenthesisBalanced
             && String.eqb (TokenText s) objectEndToken
          then finishObject root true (scan s)
          else objectLoop fuel' root parenthesisBalanced s
  end

with parsePlusEqualsValue (fuel : nat) (existingItems : Items)
    (key : string) (currentRune : rune) (s : T) {struct fuel}
  : result (Items * T) :=
  match fuel with
  | O => OutOfFuel
  | S fuel' =>
      match get existingItems key with
      | None =>
          let* (configValue, s) :=
            extractConfigValue fuel' currentRune s in
          Ok (set existingItems key (NewConfigArray [configValue]), s)
      | Some (Array values) =>
          let* (configValue, s) :=
            extractConfigValue fuel' currentRune s in
          Ok (set existingItems key (Array (values ++ [configValue])), s)
      | Some _ => Err (NotAnArray key)
      end
  end

with parseIncludedResource (fuel : nat) (s : T) {struct fuel}
  : result (Items * T) :=
  match fuel with
  | O => OutOfFuel
  | S fuel' =>
      let* (includeToken, s) := validateIncludeValue s in
      match os_Open (includePath includeToken) with
      | ErrNotExist =>
          if negb (includeRequired includeToken) then Ok ([], s)
          else Err CouldNotParseResource
      | OpenFailure => Err CouldNotParseResource
      | Opened content =>
          let includeParser := scan (Init content) in
          if String.eqb (TokenText includeParser) arrayStartToken
          then Err IncludedArrayRoot
          else
            let* (includeObject, _) :=
              extractConfigObject fuel' includeParser in
            Ok (includeObject, s)
      end
  end

with extractConfigArray (fuel : nat) (s : T) {struct fuel}
  : result (list ConfigValue * T) :=
  match fuel with
  | O => OutOfFuel
  | S fuel' =>
      let firstToken := TokenText s in
      if negb (String.eqb firstToken arrayStartToken)
      then Err (InvalidConfigArray "not an array start token")
      else
        let '(currentRune, s) := Scan s in
        if String.eqb (TokenText s) arrayEndToken
        then Ok ([], scan s)
        else arrayLoop fuel' [] currentRune s
  end

with arrayLoop (fuel : nat) (values : list ConfigValue)
    (currentRune : rune) (s : T) {struct fuel}
  : result (list ConfigValue * T) :=
  match fuel with
  | O => OutOfFuel
  | S fuel' =>
      if Z.eqb (Peek s) scanner.EOF
      then Err (InvalidConfigArray "parenthesis do not match")
      else
        let* (configValue, s) :=
          extractConfigValue fuel' currentRune s in
        let values := values ++ [configValue] in
        let '(currentRune, s) :=
          if String.eqb (TokenText s) commaToken then Scan s
          else (currentRune, s) in
        if String.eqb (TokenText s) arrayEndToken
        then Ok (values, scan s)
        else arrayLoop fuel' values currentRune s
  end

with extractConfigValue (fuel : nat) (currentRune : rune) (s : T)
    {struct fuel} : result (ConfigValue * T) :=
  match fuel with
  | O => OutOfFuel
  | S fuel' =>
      let token := TokenText s in
      if Z.eqb currentRune scanner.Int then
        match Atoi token with
        | None => Err (AtoiError token)
        | Some value => Ok (NewConfigInt value, scan s)
        end
      else if Z.eqb currentRune scanner.Float then
        if ParseFloat32 token then Ok (NewConfigFloat32 token, scan s)
        else Err (ParseFloatError token)
      else if Z.eqb currentRune scanner.String then
        Ok (NewConfigString (removeQuotes token), scan s)
      else if Z.eqb currentRune scanner.Ident then
        if String.eqb token "null" then Ok (Null, scan s)
        else if isBooleanString token
        then Ok (NewConfigBooleanFromString token, scan s)
        else Err (UnknownConfigValue token)
      else if String.eqb token objectStartToken then
        let* (configObject, s) := extractConfigObject fuel' s in
        Ok (NewConfigObject configObject, s)
      else if String.eqb token arrayStartToken then
        let* (configArray, s) := extractConfigArray fuel' s in
        Ok (NewConfigArray configArray, s)
      else if isSubstitution token (Peek s)
      then extractSubstitution fuel' s
      else Err (UnknownConfigValue token)
  end.

End Parser.


(** ** The store of the substitution pass

    After extraction the root object is a tree.  The substitution pass
    writes found values into fields and elements; a found container is not
    copied, the place receives a second pointer to it ([Alias]).  The tree
    with its aliases is the store: the container with address [a] is the
    one reached from the root along [a]. *)

(** The container (or value) the extractor stored at [a]. *)
Fixpoint lookupAddr (root : ConfigValue) (a : addr) : option ConfigValue :=
  match a with
  | [] => Some root
  | Key key :: rest =>
      match root with
      | Object items =>
          match get items key with
          | Some v => lookupAddr v rest
          | None => None
          end
      | _ => None
      end
  | Idx index :: rest =>
      match root with
      | Array values =>
          match nth_error values index with
          | Some v => lookupAddr v rest
          | None => None
          end
      | _ => None
      end
  end.

(** The value a Go variable holds after reading the place [a] whose content
    is [v]: a container is held by pointer. *)
Definition pointer (a : addr) (v : ConfigValue) : ConfigValue :=
  match v with
  | Object _ | Array _ => Alias a
  | _ => v
  end.

(** [v.items[key]] for the object [v] at address [a]. *)
Definition field (root : ConfigValue) (a : addr) (key : string)
  : option ConfigValue :=
  match lookupAddr root a with
  | Some (Object items) =>
      match get items key with
      | Some v => Some (pointer (a ++ [Key key]) v)
      | None => None
      end
  | _ => None
  end.

(** [v.values[i]] for the array [v] at address [a]. *)
Definition element (root : ConfigValue) (a : addr) (index : nat)
  : option ConfigValue :=
  match lookupAddr root a with
  | Some (Array values) =>
      match nth_error values index with
      | Some v => Some (pointer (a ++ [Idx index]) v)
      | None => None
      end
  | _ => None
  end.

Fixpoint setNth (values : list ConfigValue) (index : nat) (value : ConfigValue)
  : list ConfigValue :=
  match values, index with
  | [] , _ => []
  | _ :: rest, O => value :: rest
  | v :: rest, S index' => v :: setNth rest index' value
  end.

Fixpoint updateKey (items : Items) (key : string)
    (f : ConfigValue -> ConfigValue) : Items :=
  match items with
  | [] => []
  | (k, v) :: rest =>
      if String.eqb k key then (k, f v) :: rest
      else (k, v) :: updateKey rest key f
  end.

Fixpoint updateNth (values : list ConfigValue) (index : nat)
    (f : ConfigValue -> ConfigValue) : list ConfigValue :=
  match values, index with
  | [], _ => []
  | v :: rest, O => f v :: rest
  | v :: rest, S index' => v :: updateNth rest index' f
  end.

(** A write into the container at address [a]. *)
Fixpoint updateAt (root : ConfigValue) (a : addr)
    (f : ConfigValue -> ConfigValue) : ConfigValue :=
  match a with
  | [] => f root
  | Key key :: rest =>
      match root with
      | Object items =>
          Object (updateKey items key (fun v => updateAt v rest f))
      | _ => root
      end
  | Idx index :: rest =>
      match root with
      | Array values =>
          Array (updateNth values index (fun v => updateAt v rest f))
      | _ => root
      end
  end.

(** [v.items[key] = value] for the object [v] at address [a]. *)
Definition setField (a : addr) (key : string) (value root : ConfigValue)
  : ConfigValue :=
  updateAt root a
    (fun c => match c with Object items => Object (set items key value)
                         | _ => c end).

(** [v.values[i] = value] for the array [v] at address [a]. *)
Definition setElement (a : addr) (index : nat) (value root : ConfigValue)
  : ConfigValue :=
  updateAt root a
    (fun c => match c with Array values => Array (setNth values index value)
                         | _ => c end).

(** Modelled from the spec: the method [find] of the root object lives in a
    file of the package that is not part of the sources.  The spec has it
    look the dotted path up by walking the path segments through nested
    objects; the value found is returned as it is held, a container by
    pointer. *)
Fixpoint findFrom (root : ConfigValue) (a : addr) (segments : list string)
  : option ConfigValue :=
  match segments with
  | [] => None
  | [key] => field root a key
  | key :: rest =>
      match field root a key with
      | Some (Alias b) => findFrom root b rest
      | _ => None
      end
  end.

Definition find (root : ConfigValue) (path : string) : option ConfigValue :=
  findFrom root [] (Split path).

(** A [for] loop whose body can fail, threading the store. *)
Fixpoint forEach {A : Type} (l : list A)
    (body : A -> ConfigValue -> result ConfigValue) (root : ConfigValue)
  : result ConfigValue :=
  match l with
  | [] => Ok root
  | x :: rest =>
      let* root := body x root in
      forEach rest body root
  end.

Record Config : Type := mkConfig { root : ConfigValue }.

Section Resolver.

Context {platform : Platform}.

(** [resolveSubstitutions fuel root a] is the Go call with the container
    at address [a] as second argument ([a = []] for the call without
    it); [processSubstitution] gets the value read from the place and
    the closure that writes the place.  A [range] loop reads the current
    content of each place when it reaches it. *)
Fixpoint resolveSubstitutions (fuel : nat) (root : ConfigValue)
    (configValue : addr) {struct fuel} : result ConfigValue :=
  match fuel with
  | O => OutOfFuel
  | S fuel' =>
      match lookupAddr root configValue with
      | Some (Array values) =>
          forEach (seq 0 (length values))
            (fun i root =>
               match element root configValue i with
               | Some value =>
                   processSubstitution fuel' root value
                     (setElement configValue i)
               | None => Ok root
               end) root
      | Some (Object items) =>
          forEach (mapRange configValue (keys items))
            (fun key root =>
               match field root configValue key with
               | Some value =>
                   processSubstitution fuel' root value
                     (setField configValue key)
               | None => Ok root
               end) root
      | _ => Err InvalidSubstitutionType
      end
  end

with processSubstitution (fuel : nat) (root : ConfigValue)
    (value : ConfigValue)
    (resolveFunc : ConfigValue -> ConfigValue -> ConfigValue)
    {struct fuel} : result ConfigValue :=
  match fuel with
  | O => OutOfFuel
  | S fuel' =>
      match value with
      | Substitution path optional =>
          match find root path with
          | Some foundValue => Ok (resolveFunc foundValue root)
          | None =>
              if negb optional then Err (UnresolvedSubstitution path)
              else Ok root
          end
      | Alias target => resolveSubstitutions fuel' root target
      | Object _ | Array _ => Err InvalidSubstitutionType
      | _ => Ok root
      end
  end.

End Resolver.

(** ** Entry points *)

Section EntryPoints.

Context {T : Type} {scannerOps : Scanner T} {platform : Platform}.

Definition newParser (source : string) : T := Init source.

Definition parse (fuel : nat) (p : T) : result Config :=
  let p := scan p in
  if String.eqb (TokenText p) arrayStartToken then
    let* (configArray, _) := extractConfigArray fuel p in
    Ok (mkConfig (NewConfigArray configArray))
  else
    let* (configObject, p) := extractConfigObject fuel p in
    let token := TokenText p in
    if negb (String.eqb token "")
    then Err (InvalidConfigObject ("invalid token " ++ token))
    else
      let* root := resolveSubstitutions fuel (NewConfigObject configObject) [] in
      Ok (mkConfig root).

Definition ParseString (fuel : nat) (input : string) : result Config :=
  parse fuel (newParser input).

Definition ParseResource (fuel : nat) (path : string) : result Config :=
  match os_Open path with
  | Opened content => parse fuel (newParser content)
  | _ => Err CouldNotParseResource
  end.

End EntryPoints.

(** ** An executable token source

    [TextScanner] follows Go's [text/scanner] in the mode [Init] sets up
    ([GoTokens], [GoWhitespace]) on sources of ASCII characters.  The state
    keeps the unread source, whose head is the look-ahead character [s.ch],
    and the text of the current token.  Error reports of the scanner are
    dropped (the parser installs an empty handler); positions are not
    tracked. *)
Module TextScanner.

Record Scanner : Type := mkScanner {
  src : list ascii;
  tokenText : string
}.

Definition code (c : ascii) : N := N_of_ascii c.

Definition isWhitespace (c : ascii) : bool :=
  (N.eqb (code c) 9 || N.eqb (code c) 10 || N.eqb (code c) 13
   || N.eqb (code c) 32)%N.

Definition isLetter (c : ascii) : bool :=
  (N.leb 65 (code c) && N.leb (code c) 90)
  || (N.leb 97 (code c) && N.leb (code c) 122).

Definition isIdentRune (c : ascii) (i : nat) : bool :=
  Ascii.eqb c "_" || isLetter c || (isDecimal c && negb (Nat.eqb i 0)).

(** [lower(ch)]: [('a' - 'A') | ch]. *)
Definition lower (c : ascii) : N := N.lor 32 (code c).

Definition isHex (c : ascii) : bool :=
  isDecimal c || (N.leb 97 (lower c) && N.leb (lower c) 102).

Definition digitVal (c : ascii) : N :=
  if isDecimal c then (code c - 48)%N
  else if (N.leb 97 (lower c) && N.leb (lower c) 102)
  then (lower c - 97 + 10)%N
  else 16%N.

Definition next (l : list ascii) : list ascii := tl l.

Fixpoint dropWhile (p : ascii -> bool) (l : list ascii) : list ascii :=
  match l with
  | c :: rest => if p c then dropWhile p rest else l
  | [] => []
  end.

Definition scanIdentifier (l : list ascii) : list ascii :=
  dropWhile (fun c => isIdentRune c 1) (next l).

Definition digits (l : list ascii) (base : N) : list ascii :=
  if (base <=? 10)%N
  then dropWhile (fun c => isDecimal c || Ascii.eqb c "_") l
  else dropWhile (fun c => isHex c || Ascii.eqb c "_") l.

Definition headIs (l : list ascii) (p : ascii -> bool) : bool :=
  match l with c :: _ => p c | [] => false end.

Definition scanNumber (l : list ascii) (seenDot : bool)
  : rune * list ascii :=
  let '(tok, l, base, seenDot) :=
    if negb seenDot then
      let '(l, base) :=
        if headIs l (Ascii.eqb "0") then
          let l := next l in
          if headIs l (fun c => N.eqb (lower c) 120) then (next l, 16%N)
          else if headIs l (fun c => N.eqb (lower c) 111) then (next l, 8%N)
          else if headIs l (fun c => N.eqb (lower c) 98) then (next l, 2%N)
          else (l, 8%N)
        else (l, 10%N) in
      let l := digits l base in
      if headIs l (Ascii.eqb ".") then (scanner.Int, next l, base, true)
      else (scanner.Int, l, base, false)
    else (scanner.Int, l, 10%N, true) in
  let '(tok, l) :=
    if (seenDot : bool) then (scanner.Float, digits l base) else (tok, l) in
  if headIs l (fun c => N.eqb (lower c) 101 || N.eqb (lower c) 112) then
    let l := next l in
    let l := if headIs l (fun c => Ascii.eqb c "+" || Ascii.eqb c "-")
             then next l else l in
    (scanner.Float, digits l 10%N)
  else (tok, l).

Fixpoint scanDigits (l : list ascii) (base : N) (n : nat) : list ascii :=
  match n with
  | O => l
  | S n' =>
      if headIs l (fun c => N.ltb (digitVal c) base)
      then scanDigits (next l) base n'
      else l
  end.

Definition scanEscape (quote : ascii) (l : list ascii) : list ascii :=
  let l := next l in
  match l with
  | [] => l
  | c :: _ =>
      if existsb (Ascii.eqb c) ["a"; "b"; "f"; "n"; "r"; "t"; "v"; "\"; quote]%char
      then next l
      else if existsb (Ascii.eqb c) ["0"; "1"; "2"; "3"; "4"; "5"; "6"; "7"]%char
      then scanDigits l 8 3
      else if Ascii.eqb c "x" then scanDigits (next l) 16 2
      else if Ascii.eqb c "u" then scanDigits (next l) 16 4
      else if Ascii.eqb c "U" then scanDigits (next l) 16 8
      else l
  end.

(** The loop of [scanString]; [l] starts at the character after the
    opening quote, the result starts at the character the loop stopped
    at.  Every iteration consumes a character, so [length l] iterations
    are enough. *)
Fixpoint scanStringLoop (n : nat) (quote : ascii) (l : list ascii)
  : list ascii :=
  match n with
  | O => l
  | S n' =>
      match l with
      | [] => l
      | c :: _ =>
          if Ascii.eqb c quote then l
          else if N.eqb (code c) 10 then l
          else if Ascii.eqb c "\" then scanStringLoop n' quote (scanEscape quote l)
          else scanStringLoop n' quote (next l)
      end
  end.

Definition scanString (quote : ascii) (l : list ascii) : list ascii :=
  let l := next l in
  scanStringLoop (length l) quote l.

Definition scanRawString (l : list ascii) : list ascii :=
  dropWhile (fun c => negb (Ascii.eqb c "`")) (next l).

Fixpoint generalComment (l : list ascii) : list ascii :=
  match l with
  | [] => []
  | ch0 :: rest =>
      if Ascii.eqb ch0 "*" && headIs rest (Ascii.eqb "/") then next rest
      else generalComment rest
  end.

(** [scanComment]; [l] starts at the second character of the comment
    opener. *)
Definition scanComment (l : list ascii) : list ascii :=
  if headIs l (Ascii.eqb "/")
  then dropWhile (fun c => negb (N.eqb (code c) 10)) (next l)
  else generalComment (next l).

Fixpoint firstChars (n : nat) (l : list ascii) : string :=
  match n, l with
  | S n', c :: rest => String.String c (firstChars n' rest)
  | _, _ => EmptyString
  end.

(** The text between the start of the token and the look-ahead. *)
Definition textBetween (start stop : list ascii) : string :=
  firstChars (length start - length stop) start.

(** The body of [Scan]; a skipped comment restarts it, which happens at
    most [length l] times. *)
Fixpoint scanToken (n : nat) (l : list ascii) : rune * Scanner :=
  let l := dropWhile isWhitespace l in
  let token (tok : rune) (stop : list ascii) :=
    (tok, mkScanner stop (textBetween l stop)) in
  match l with
  | [] => token scanner.EOF l
  | ch :: _ =>
      if isIdentRune ch 0 then token scanner.Ident (scanIdentifier l)
      else if isDecimal ch then
        let '(tok, stop) := scanNumber l false in token tok stop
      else if Ascii.eqb ch dquote
      then token scanner.String (next (scanString dquote l))
      else if Ascii.eqb ch "'"
      then token scanner.Char (next (scanString "'" l))
      else if Ascii.eqb ch "." then
        let l' := next l in
        if headIs l' isDecimal then
          let '(tok, stop) := scanNumber l' true in token tok stop
        else token (rune_of ch) l'
      else if Ascii.eqb ch "/" then
        let l' := next l in
        if headIs l' (fun c => Ascii.eqb c "/" || Ascii.eqb c "*") then
          match n with
          | O => token scanner.EOF []
          | S n' => scanToken n' (scanComment l')
          end
        else token (rune_of ch) l'
      else if Ascii.eqb ch "`"
      then token scanner.RawString (next (scanRawString l))
      else token (rune_of ch) (next l)
  end.

Definition Init (source : string) : Scanner :=
  mkScanner (list_ascii_of_string source) "".

Definition Scan (s : Scanner) : rune * Scanner :=
  scanToken (length (src s)) (src s).

Definition TokenText (s : Scanner) : string := tokenText s.

Definition Peek (s : Scanner) : rune :=
  match src s with
  | [] => scanner.EOF
  | c :: _ => rune_of c
  end.

End TextScanner.

#[export] Instance textScanner : Scanner TextScanner.Scanner := {|
  Init := TextScanner.Init;
  Scan := TextScanner.Scan;
  TokenText := TextScanner.TokenText;
  Peek := TextScanner.Peek
|}.

(** A platform without files, on which every float literal is accepted. *)
Definition noFiles : Platform := {|
  os_Open := fun _ => ErrNotExist;
  ParseFloat32 := fun _ => true;
  mapRange := fun _ ks => ks;
  mapRange_permutation := fun _ ks => Permutation_refl ks
|}.

(** * Vocabulary of the properties *)

Fixpoint plain (v : ConfigValue) : bool :=
  match v with
  | Object items => forallb (fun kv => plain (snd kv)) items
  | Array values => forallb plain values
  | Substitution _ _ | Alias _ => false
  | _ => true
  end.

Fixpoint height (v : ConfigValue) : nat :=
  match v with
  | Object items =>
      S (list_max (map (fun kv => height (snd kv)) items))
  | Array values => S (list_max (map height values))
  | _ => 0
  end.

Definition isContainer (v : ConfigValue) : bool :=
  match v with Object _ | Array _ => true | _ => false end.


Definition isArray (v : ConfigValue) : bool :=
  match v with Array _ => true | _ => false end.

(** [ParseString] on the executable token source. *)
Definition ParseText {platform : Platform} (fuel : nat) (input : string)
  : result Config :=
  @ParseString TextScanner.Scanner textScanner platform fuel input.

Definition notQuote (c : ascii) : bool := negb (Ascii.eqb c dquote).

(** The source text of a string literal whose body holds an escaped
    quote. *)
Definition escapedQuoteLiteral : string :=
  quoted ("x\" ++ dquoteString ++ "y").

(** [forallSubst p v]: every substitution node of [v] passes the test. *)
Fixpoint forallSubst (p : string -> bool -> bool) (v : ConfigValue) : bool :=
  match v with
  | Object items => forallb (fun kv => forallSubst p (snd kv)) items
  | Array values => forallb (forallSubst p) values
  | Substitution path optional => p path optional
  | _ => true
  end.

Definition isNone {A : Type} (o : option A) : bool :=
  match o with None => true | Some _ => false end.


(** [stableFrom root a segments]: the walk of [findFrom] reads no
    substitution node, neither on its way nor at its end. *)
Fixpoint stableFrom (root : ConfigValue) (a : addr) (segments : list string)
  : bool :=
  match segments with
  | [] => true
  | key :: rest =>
      match field root a key with
      | Some (Substitution _ _) => false
      | Some (Alias b) =>
          match rest with
          | [] => true
          | _ => stableFrom root b rest
          end
      | _ => true
      end
  end.

Definition stable (root : ConfigValue) (path : string) : bool :=
  stableFrom root [] (Split path).

(** A tree is free of chains when no path of its substitutions leads to,
    or through, a substitution. *)
Definition chainFree (root : ConfigValue) : bool :=
  forallSubst (fun path _ => stable root path) root.

Definition isSubstitutionNode (v : ConfigValue) : bool :=
  match v with Substitution _ _ => true | _ => false end.

Definition isAlias (v : ConfigValue) : bool :=
  match v with Alias _ => true | _ => false end.

(** What the extractor builds: objects with distinct keys, no alias. *)
Inductive isTree : ConfigValue -> Prop :=
| isTree_Object (items : Items) :
    NoDup (keys items) ->
    (forall k v, In (k, v) items -> isTree v) ->
    isTree (Object items)
| isTree_Array (values : list ConfigValue) :
    (forall v, In v values -> isTree v) ->
    isTree (Array values)
| isTree_leaf (v : ConfigValue) :
    isContainer v = false -> isAlias v = false -> isTree v.

Definition sameShape (c0 c : ConfigValue) : Prop :=
  match c0, c with
  | Object items0, Object items => keys items = keys items0
  | Array values0, Array values => length values = length values0
  | _, _ => False
  end.

(** [evolves t0 v0 v]: [v] is [v0] in which some substitutions have been
    replaced by the value found at their path in [t0]. *)
Inductive evolves (t0 : ConfigValue) : ConfigValue -> ConfigValue -> Prop :=
| evolves_refl (v : ConfigValue) : evolves t0 v v
| evolves_container (c0 c : ConfigValue) :
    sameShape c0 c ->
    (forall st v0 v,
        lookupAddr c0 [st] = Some v0 -> lookupAddr c [st] = Some v ->
        evolves t0 v0 v) ->
    evolves t0 c0 c
| evolves_found (path : string) (optional : bool) (found : ConfigValue) :
    find t0 path = Some found -> isSubstitutionNode found = false ->
    evolves t0 (Substitution path optional) found.

(** [visit] is the body of both [range] loops of [resolveSubstitutions],
    for the place [st] of the container at [a]. *)
Definition visit {platform : Platform} (fuel : nat) (a : addr) (st : step) (root : ConfigValue)
  : result ConfigValue :=
  match option_map (pointer (a ++ [st])) (lookupAddr root (a ++ [st])) with
  | Some value =>
      processSubstitution fuel root value
        (fun v root => updateAt root (a ++ [st]) (fun _ => v))
  | None => Ok root
  end.

Definition settledTest (t0 : ConfigValue) (path : string) (optional : bool) : bool :=
  optional && isNone (find t0 path) && stable t0 path.

Definition settled (t0 v : ConfigValue) : bool :=
  forallSubst (settledTest t0) v.

(** The state of a [range] loop over the container [s0]: the places in
    [todo] hold what the extractor stored, the others have been visited. *)
Definition LoopInv (t0 s0 : ConfigValue) (todo : list step) (c : ConfigValue)
  : Prop :=
  sameShape s0 c /\
  forall st v0,
    lookupAddr s0 [st] = Some v0 ->
    exists v,
      lookupAddr c [st] = Some v /\
      (In st todo -> v = v0) /\
      (~ In st todo -> evolves t0 v0 v /\ settled t0 v = true).

(** What the pass does to an unvisited container [s0] at address [a]. *)
Definition Resolves {platform : Platform} (t0 : ConfigValue) (fuel : nat)
  : Prop :=
  forall (r r' : ConfigValue) (a : addr) (s0 : ConfigValue),
    lookupAddr t0 a = Some s0 -> lookupAddr r a = Some s0 ->
    evolves t0 t0 r ->
    resolveSubstitutions fuel r a = Ok r' ->
    exists s',
      r' = updateAt r a (fun _ => s') /\ evolves t0 s0 s' /\
      settled t0 s' = true.

Definition ExtractsTrees {T : Type} {scannerOps : Scanner T}
    {platform : Platform} (fuel : nat) : Prop :=
  (forall (s s' : T) items,
      extractConfigObject fuel s = Ok (items, s') -> isTree (Object items))
  /\ (forall root balanced (s s' : T) items,
         isTree (Object root) ->
         objectLoop fuel root balanced s = Ok (items, s') ->
         isTree (Object items))
  /\ (forall existingItems key currentRune (s s' : T) items,
         isTree (Object existingItems) ->
         parsePlusEqualsValue fuel existingItems key currentRune s =
         Ok (items, s') ->
         isTree (Object items))
  /\ (forall (s s' : T) items,
         parseIncludedResource fuel s = Ok (items, s') ->
         isTree (Object items))
  /\ (forall (s s' : T) values,
         extractConfigArray fuel s = Ok (values, s') -> isTree (Array values))
  /\ (forall values currentRune (s s' : T) values',
         isTree (Array values) ->
         arrayLoop fuel values currentRune s = Ok (values', s') ->
         isTree (Array values'))
  /\ (forall currentRune (s s' : T) v,
         extractConfigValue fuel currentRune s = Ok (v, s') -> isTree v).

Definition chainDocument : string := "a = ${b}, b = ${c}, c = 1".


(** The parser of a source after its first [n] tokens have been scanned. *)
Definition after (n : nat) (source : string) : TextScanner.Scanner :=
  Nat.iter n scan (Init source).

(** A token source is exhausted in a state that scanning leaves as it is,
    with the empty token text of the end of input. *)
Definition exhausted {T : Type} {scannerOps : Scanner T} (s : T) : Prop :=
  scan s = s /\ TokenText s = "".

(** [s'] is the state right after the token [closer] has been consumed. *)
Definition rightAfter {T : Type} {scannerOps : Scanner T} (closer : string)
    (s' : T) : Prop :=
  exists s1, TokenText s1 = closer /\ s' = scan s1.

(** [resolveAll t0 v]: [v] with every substitution replaced by the value
    that [find] returns for its path in [t0]; a substitution whose path is
    not found stays. *)
Fixpoint resolveAll (t0 v : ConfigValue) : ConfigValue :=
  match v with
  | Object items =>
      Object (map (fun kv => (fst kv, resolveAll t0 (snd kv))) items)
  | Array values => Array (map (resolveAll t0) values)
  | Substitution path optional =>
      match find t0 path with
      | Some found => found
      | None => v
      end
  | _ => v
  end.

(** Every substitution of [v] is optional or has a path found in [t0]. *)
Definition requiredFound (t0 v : ConfigValue) : bool :=
  forallSubst (fun path optional => optional || negb (isNone (find t0 path)))
    v.

(** The pass, given fuel for the depth of the unvisited container [s0] at
    [a], returns a store or stops at a required substitution of [s0] whose
    path is not found. *)
Definition Terminates {platform : Platform} (t0 : ConfigValue) (fuel : nat)
  : Prop :=
  forall (r : ConfigValue) (a : addr) (s0 : ConfigValue),
    lookupAddr t0 a = Some s0 -> lookupAddr r a = Some s0 ->
    evolves t0 t0 r -> isContainer s0 = true -> 2 * height s0 <= fuel ->
    (exists r', resolveSubstitutions fuel r a = Ok r')
    \/ (exists path,
           resolveSubstitutions fuel r a = Err (UnresolvedSubstitution path)
           /\ find t0 path = None /\ requiredFound t0 s0 = false).

Definition sharingDocument : string :=
  "a = ${b}, b = [${c}, ${?d}], c = 1, e { f = ${b}, g = ${e.h}, h = 2 }".

(** The root object the extractor builds for [sharingDocument]. *)
Definition sharingItems : Items :=
  [("a", Substitution "b" false);
   ("b", Array [Substitution "c" false; Substitution "d" true]);
   ("c", Int 1);
   ("e", Object [("f", Substitution "b" false);
                 ("g", Substitution "e.h" false);
                 ("h", Int 2)])].

Definition sharingTree : ConfigValue := Object sharingItems.

(** A document with a required substitution whose path is not found, and
    the root object the extractor builds for it. *)
Definition unresolvedDocument : string := "a { b = ${a.c} }, d = 1".

Definition unresolvedItems : Items :=
  [("a", Object [("b", Substitution "a.c" false)]); ("d", Int 1)].

(** The class of token that value extraction must have been on to return
    the value [v]. *)
Definition startsValue {T : Type} {scannerOps : Scanner T}
    (currentRune : rune) (s : T) (v : ConfigValue) : Prop :=
  match v with
  | Int _ => currentRune = scanner.Int
  | Float32 _ => currentRune = scanner.Float
  | String _ => currentRune = scanner.String
  | Null => currentRune = scanner.Ident /\ TokenText s = "null"
  | Boolean _ =>
      currentRune = scanner.Ident /\ isBooleanString (TokenText s) = true
  | Object _ => TokenText s = objectStartToken
  | Array _ => TokenText s = arrayStartToken
  | Substitution _ optional =>
      TokenText s = "$" /\ Peek s = rune_of "{"
      /\ optional = String.eqb (TokenText (scan (scan s))) "?"
  | Alias _ => False
  end.

(** What [extractConfigObject] demands of a key before it stores under
    it: the token is not one of the forbidden characters and is not a
    period. *)
Definition keyAllowed (key : string) : bool :=
  negb (forbiddenCharacters key) && negb (String.eqb key dotToken).

(** Every key of every object in [v] is allowed. *)
Fixpoint keysAllowed (v : ConfigValue) : bool :=
  match v with
  | Object items =>
      forallb (fun kv => keyAllowed (fst kv) && keysAllowed (snd kv)) items
  | Array values => forallb keysAllowed values
  | _ => true
  end.

(** With [fuel], every function of the extractor returns values whose
    keys are all allowed, given that the values it extends are such. *)
Definition ExtractsAllowedKeys {T : Type} {scannerOps : Scanner T}
    {platform : Platform} (fuel : nat) : Prop :=
  (forall (s s' : T) items,
      extractConfigObject fuel s = Ok (items, s') ->
      keysAllowed (Object items) = true)
  /\ (forall root balanced (s s' : T) items,
         keysAllowed (Object root) = true ->
         objectLoop fuel root balanced s = Ok (items, s') ->
         keysAllowed (Object items) = true)
  /\ (forall existingItems key currentRune (s s' : T) items,
         keysAllowed (Object existingItems) = true ->
         keyAllowed key = true ->
         parsePlusEqualsValue fuel existingItems key currentRune s =
         Ok (items, s') ->
         keysAllowed (Object items) = true)
  /\ (forall (s s' : T) items,
         parseIncludedResource fuel s = Ok (items, s') ->
         keysAllowed (Object items) = true)
  /\ (forall (s s' : T) values,
         extractConfigArray fuel s = Ok (values, s') ->
         keysAllowed (Array values) = true)
  /\ (forall values currentRune (s s' : T) values',
         keysAllowed (Array values) = true ->
         arrayLoop fuel values currentRune s = Ok (values', s') ->
         keysAllowed (Array values') = true)
  /\ (forall currentRune (s s' : T) v,
         extractConfigValue fuel currentRune s = Ok (v, s') ->
         keysAllowed v = true).

(** The state of a [range] loop over the container [s0], whatever the
    visited places hold: the places in [todo] hold what [s0] holds. *)
Definition Unvisited (s0 : ConfigValue) (todo : list step) (c : ConfigValue)
  : Prop :=
  sameShape s0 c /\
  forall st, In st todo -> lookupAddr c [st] = lookupAddr s0 [st].

(** The pass, given fuel for the depth of the container [s0] held at [a]
    as the extractor built it, returns the store with a container of the
    same keys or length written at [a], or stops at a required
    substitution. *)
Definition Ends {platform : Platform} (fuel : nat) : Prop :=
  forall (r : ConfigValue) (a : addr) (s0 : ConfigValue),
    lookupAddr r a = Some s0 -> isTree s0 -> isContainer s0 = true ->
    2 * height s0 <= fuel ->
    (exists s',
        resolveSubstitutions fuel r a = Ok (updateAt r a (fun _ => s'))
        /\ sameShape s0 s')
    \/ (exists path,
           resolveSubstitutions fuel r a = Err (UnresolvedSubstitution path)).

(** * Properties *)

(** ** Trees without substitutions *)

Lemma get_In (items : Items) (key : string) :
  In key (keys items) -> exists v, get items key = Some v /\ In (key, v) items.
Proof.
  induction items as [|[k v] rest IH]; simpl; [tauto|].
  intros H. destruct (String.eqb k key) eqn:E.
  - apply String.eqb_eq in E. subst. eauto.
  - destruct H as [H|H]; [subst; rewrite String.eqb_refl in E; discriminate|].
    destruct (IH H) as [w [Hw Hin]]. eauto.
Qed.

Lemma get_Some_In (items : Items) (key : string) (v : ConfigValue) :
  get items key = Some v -> In (key, v) items.
Proof.
  induction items as [|[k w] rest IH]; simpl; [discriminate|].
  destruct (String.eqb k key) eqn:E.
  - apply String.eqb_eq in E. intros [= ->]. subst. auto.
  - auto.
Qed.

Lemma lookupAddr_app (r : ConfigValue) (a b : addr) :
  lookupAddr r (a ++ b) =
  match lookupAddr r a with Some v => lookupAddr v b | None => None end.
Proof.
  revert r. induction a as [|[k|i] a IH]; intros r; simpl; [reflexivity| |].
  - destruct r; try reflexivity. destruct (get items k); auto.
  - destruct r; try reflexivity. destruct (nth_error values i); auto.
Qed.

Lemma height_item (items : Items) (key : string) (v : ConfigValue) :
  In (key, v) items -> height v < height (Object items).
Proof.
  intros H. simpl. apply Nat.lt_succ_r.
  assert (Hall := list_max_le (map (fun kv => height (snd kv)) items)
                   (list_max (map (fun kv => height (snd kv)) items))).
  destruct Hall as [Hall _]. specialize (Hall (Nat.le_refl _)).
  rewrite Forall_forall in Hall. apply Hall.
  apply in_map_iff. exists (key, v). auto.
Qed.

Lemma height_value (values : list ConfigValue) (v : ConfigValue) :
  In v values -> height v < height (Array values).
Proof.
  intros H. simpl. apply Nat.lt_succ_r.
  assert (Hall := list_max_le (map height values)
                   (list_max (map height values))).
  destruct Hall as [Hall _]. specialize (Hall (Nat.le_refl _)).
  rewrite Forall_forall in Hall. apply Hall. apply in_map. exact H.
Qed.

Lemma forEach_unchanged {A : Type} (l : list A)
    (body : A -> ConfigValue -> result ConfigValue) (r : ConfigValue) :
  (forall x, In x l -> body x r = Ok r) -> forEach l body r = Ok r.
Proof.
  induction l as [|x l IH]; simpl; intros H; [reflexivity|].
  rewrite (H x (or_introl eq_refl)). simpl. apply IH. intros; apply H; auto.
Qed.

Section ResolverFacts.

Context {platform : Platform}.

Lemma mapRange_In (a : addr) (ks : list string) (k : string) :
  In k (mapRange a ks) -> In k ks.
Proof. apply Permutation_in, mapRange_permutation. Qed.

Lemma mapRange_nil (a : addr) : mapRange a [] = [].
Proof.
  apply Permutation_nil, Permutation_sym, mapRange_permutation.
Qed.


(** The pass leaves a container without substitutions as it is, whatever
    the order of the [range] loops, once the fuel covers its depth. *)
Lemma resolveSubstitutions_plain (fuel : nat) :
  forall (r : ConfigValue) (a : addr) (sub : ConfigValue),
    lookupAddr r a = Some sub -> isContainer sub = true ->
    plain sub = true -> 2 * height sub <= fuel ->
    resolveSubstitutions fuel r a = Ok r.
Proof.
  induction fuel as [fuel IH] using lt_wf_ind.
  intros r a sub Hsub Hc Hp Hh.
  destruct fuel as [|f]; [destruct sub; simpl in *; try discriminate; lia|].
  assert (Hchild : forall (st : step) (v : ConfigValue),
             lookupAddr r (a ++ [st]) = Some v -> plain v = true ->
             height v < height sub ->
             forall g, processSubstitution f r (pointer (a ++ [st]) v) g
                       = Ok r).
  { intros st v Hv Hpv Hhv g.
    destruct f as [|f']; [lia|].
    destruct v; simpl in Hpv; try discriminate;
      try reflexivity; simpl;
      apply (IH f' ltac:(lia) r (a ++ [st]) _ Hv eq_refl);
      simpl; auto; simpl in Hhv; lia. }
  simpl. rewrite Hsub.
  destruct sub as [items|values| | | | | | |]; try discriminate.
  - apply forEach_unchanged. intros key Hin.
    apply mapRange_In in Hin. destruct (get_In _ _ Hin) as [v [Hget HinV]].
    unfold field. rewrite Hsub, Hget.
    apply Hchild.
    + rewrite lookupAddr_app, Hsub. simpl. rewrite Hget. reflexivity.
    + simpl in Hp. rewrite forallb_forall in Hp. apply (Hp _ HinV).
    + eapply height_item; eauto.
  - apply forEach_unchanged. intros i Hin.
    apply in_seq in Hin. simpl in Hin.
    destruct (nth_error values i) as [v|] eqn:Hnth;
      [|apply nth_error_None in Hnth; lia].
    unfold element. rewrite Hsub, Hnth.
    apply Hchild.
    + rewrite lookupAddr_app, Hsub. simpl. rewrite Hnth. reflexivity.
    + simpl in Hp. rewrite forallb_forall in Hp.
      apply Hp. eapply nth_error_In; eauto.
    + eapply height_value, nth_error_In; eauto.
Qed.

End ResolverFacts.

Section ParseFacts.

Context {T : Type} {scannerOps : Scanner T} {platform : Platform}.

(** A document whose extracted root object has no substitution is
    returned as extracted. *)
Lemma parse_plain (fuel : nat) (p p' : T) (items : Items) :
  String.eqb (TokenText (scan p)) arrayStartToken = false ->
  extractConfigObject fuel (scan p) = Ok (items, p') ->
  TokenText p' = "" ->
  plain (Object items) = true ->
  2 * height (Object items) <= fuel ->
  parse fuel p = Ok (mkConfig (Object items)).
Proof.
  intros Harr Hext Htok Hp Hh. unfold parse.
  rewrite Harr, Hext. simpl. rewrite Htok. simpl.
  rewrite (resolveSubstitutions_plain fuel (Object items) [] (Object items));
    auto.
Qed.

End ParseFacts.

(** ** Maps in insertion order *)

Lemma get_set_eq (items : Items) (key : string) (v : ConfigValue) :
  get (set items key v) key = Some v.
Proof.
  induction items as [|[k w] rest IH]; simpl.
  - rewrite String.eqb_refl. reflexivity.
  - destruct (String.eqb k key) eqn:E; simpl; rewrite E; auto.
Qed.


Lemma keys_set_In (items : Items) (key : string) (v : ConfigValue) :
  In key (keys items) -> keys (set items key v) = keys items.
Proof.
  induction items as [|[k w] rest IH]; simpl; [tauto|].
  intros H. destruct (String.eqb k key) eqn:E; simpl; [reflexivity|].
  f_equal. apply IH. destruct H as [H|H]; [|exact H].
  subst. rewrite String.eqb_refl in E. discriminate.
Qed.

Lemma keys_set_notIn (items : Items) (key : string) (v : ConfigValue) :
  ~ In key (keys items) -> keys (set items key v) = keys items ++ [key].
Proof.
  induction items as [|[k w] rest IH]; simpl; [reflexivity|].
  intros H. destruct (String.eqb k key) eqn:E; simpl.
  - apply String.eqb_eq in E. tauto.
  - f_equal. apply IH. tauto.
Qed.

Lemma get_None_notIn (items : Items) (key : string) :
  get items key = None <-> ~ In key (keys items).
Proof.
  induction items as [|[k w] rest IH]; simpl; [tauto|].
  destruct (String.eqb k key) eqn:E.
  - apply String.eqb_eq in E. split; [discriminate|tauto].
  - apply String.eqb_neq in E. tauto.
Qed.

Lemma NoDup_keys_set (items : Items) (key : string) (v : ConfigValue) :
  NoDup (keys items) -> NoDup (keys (set items key v)).
Proof.
  intros H. destruct (in_dec string_dec key (keys items)) as [Hin|Hin].
  - rewrite keys_set_In; auto.
  - rewrite keys_set_notIn; auto.
    apply NoDup_app; [exact H|repeat constructor; simpl; tauto|].
    intros x Hx [<-|[]]. contradiction.
Qed.

(** ** Merge *)

Lemma mergeValue_Object (new existingItems : Items) :
  mergeValue (Object new) (Some (Object existingItems)) =
  Object (mergeConfigObjects existingItems new).
Proof.
  simpl. f_equal. revert existingItems.
  induction new as [|[k v] rest IH]; intros existingItems; simpl; auto.
Qed.




(** ** Documents without substitutions, on any platform *)

Ltac extracts_plain :=
  intros; unfold ParseText, ParseString, newParser;
  eapply parse_plain;
  [ vm_compute; reflexivity
  | lazy; reflexivity
  | reflexivity
  | reflexivity
  | simpl; lia ].

Section Documents.

Context {platform : Platform}.

(** C10.  The empty string parses, without error, to a configuration
    whose root is an object without keys. *)
Theorem ParseString_empty (k : nat) :
  ParseText (2 + k) "" = Ok (mkConfig (Object [])).
Proof. extracts_plain. Qed.

(** C1.  A single dotted assignment yields the tree of the nested form,
    but a sibling key that follows the dotted assignment is stored in the
    innermost nested object, while after the nested form it stays in the
    enclosing object. *)
Theorem dotted_key_consumes_sibling (k : nat) :
  ParseText (20 + k) "a.b.c = 1" = ParseText (20 + k) "a { b { c = 1 } }"
  /\ ParseText (20 + k) "a.b.c = 1, d = 2" =
     Ok (mkConfig
           (Object [("a", Object [("b", Object [("c", Int 1);
                                              ("d", Int 2)])])]))
  /\ ParseText (20 + k) "a { b { c = 1 } }, d = 2" =
     Ok (mkConfig
           (Object [("a", Object [("b", Object [("c", Int 1)])]);
                    ("d", Int 2)]))
  /\ ParseText (20 + k) "{ a.b = 1, d = 2 }" =
     Ok (mkConfig (Object [("a", Object [("b", Int 1); ("d", Int 2)])])).
Proof.
  split; [|split; [|split]].
  - transitivity
      (@Ok Config
         (mkConfig (Object [("a", Object [("b", Object [("c", Int 1)])])])));
      [|symmetry]; extracts_plain.
  - extracts_plain.
  - extracts_plain.
  - extracts_plain.
Qed.


(** C4.  Two objects given to one key are merged only when the later one
    is assigned with [=] or [:].  When the later object follows its key
    directly, as in [a { ... }], the loop stores it under the key in place
    of whatever the key held, without merging: the keys of the earlier
    object are lost, whether that one was assigned with a separator or
    not.  In general, at a key that is followed by an opening brace, the
    loop goes on with the map in which the key holds the extracted object
    alone. *)
Theorem duplicate_object_key_replaced (k : nat) :
  ParseText (20 + k) "{a: {x:1}, a: {y:2}}" =
  Ok (mkConfig (Object [("a", Object [("x", Int 1); ("y", Int 2)])]))
  /\ ParseText (20 + k) "{a {x:1}, a {y:2}}" =
     Ok (mkConfig (Object [("a", Object [("y", Int 2)])]))
  /\ ParseText (20 + k) "a { x = 1 }, a { y = 2 }" =
     Ok (mkConfig (Object [("a", Object [("y", Int 2)])]))
  /\ ParseText (20 + k) "{a: {x:1}, a {y:2}}" =
     Ok (mkConfig (Object [("a", Object [("y", Int 2)])]))
  /\ ParseText (20 + k) "{a {x:1}, a: {y:2}}" =
     Ok (mkConfig (Object [("a", Object [("x", Int 1); ("y", Int 2)])]))
  /\ (forall (T : Type) (sc : Scanner T) (fuel : nat) (root : Items)
             (balanced : bool) (s s1 : T) (obj : Items),
         Peek s <> scanner.EOF ->
         TokenText s <> includeToken ->
         forbiddenCharacters (TokenText s) = false ->
         TokenText s <> dotToken ->
         TokenText (scan s) = objectStartToken ->
         extractConfigObject fuel (scan s) = Ok (obj, s1) ->
         let root' := set root (TokenText s) (Object obj) in
         let s2 :=
           if String.eqb (TokenText s1) commaToken then scan s1 else s1 in
         get root' (TokenText s) = Some (Object obj)
         /\ objectLoop (S fuel) root balanced s =
            if negb balanced && String.eqb (TokenText s2) objectEndToken
            then finishObject root' true (scan s2)
            else objectLoop fuel root' balanced s2).
Proof.
  split; [|split; [|split; [|split; [|split]]]].
  - extracts_plain.
  - extracts_plain.
  - extracts_plain.
  - extracts_plain.
  - extracts_plain.
  - intros T sc fuel root balanced s s1 obj Hpeek Hinc Hforb Hdot Hnext Hobj.
    apply Z.eqb_neq in Hpeek. apply String.eqb_neq in Hinc, Hdot.
    split; [apply get_set_eq|].
    simpl. rewrite Hpeek, Hinc. simpl. rewrite Hforb, Hdot, Hnext. simpl.
    rewrite Hobj. reflexivity.
Qed.

(** C6.  [+=] on a key that holds a value other than an array fails with
    the type error, before the appended value is extracted, and the parse
    of a document that does so returns the error and no configuration. *)
Theorem plus_equals_type_error (k : nat) :
  (forall (T : Type) (sc : Scanner T) (fuel : nat) (items : Items)
          (key : string) (existing : ConfigValue) (currentRune : rune)
          (s : T),
      get items key = Some existing -> isArray existing = false ->
      parsePlusEqualsValue (S fuel) items key currentRune s =
      Err (NotAnArray key))
  /\ (forall (T : Type) (sc : Scanner T) (fuel : nat) (root : Items)
             (balanced : bool) (existing : ConfigValue) (s : T),
         Peek s <> scanner.EOF ->
         TokenText s <> includeToken ->
         forbiddenCharacters (TokenText s) = false ->
         TokenText s <> dotToken ->
         TokenText (scan s) = "+" ->
         Peek (scan s) = rune_of "=" ->
         get root (TokenText s) = Some existing ->
         isArray existing = false ->
         objectLoop (S (S fuel)) root balanced s =
         Err (NotAnArray (TokenText s)))
  /\ ParseText (20 + k) "{a = 1, a += 2}" = Err (NotAnArray "a")
  /\ ParseText (20 + k) "a { x = 1 }, a += 2" = Err (NotAnArray "a")
  /\ ParseText (20 + k) "b = 0, c { a = true, a += [1] }" =
     Err (NotAnArray "a").
Proof.
  split; [|split; [|split; [|split]]].
  - intros T sc fuel items key existing currentRune s Hget Harr.
    simpl. rewrite Hget. destruct existing; try reflexivity. discriminate.
  - intros T sc fuel root balanced existing s Hpeek Hinc Hforb Hdot Hplus Heq
      Hget Harr.
    remember (S fuel) as n eqn:En.
    apply Z.eqb_neq in Hpeek. apply String.eqb_neq in Hinc, Hdot.
    simpl. rewrite Hpeek, Hinc. simpl. rewrite Hforb, Hdot, Hplus. simpl.
    rewrite Heq. simpl. destruct (Scan (scan (scan s))) as [currentRune s2].
    subst n. simpl. rewrite Hget.
    destruct existing; try reflexivity. discriminate.
  - intros. vm_compute. reflexivity.
  - intros. vm_compute. reflexivity.
  - intros. vm_compute. reflexivity.
Qed.

(** C5.  [+=] on an absent key stores a new array that holds the extracted
    value alone; on a key that holds an array it stores the array with the
    value added at its end. *)
Theorem plus_equals_accumulates (k : nat) :
  ParseText (20 + k) "{a += 1, a += 2}" =
  Ok (mkConfig (Object [("a", Array [Int 1; Int 2])]))
  /\ ParseText (20 + k) "{a = [1], a += 2}" =
     Ok (mkConfig (Object [("a", Array [Int 1; Int 2])]))
  /\ (forall (T : Type) (sc : Scanner T) (fuel : nat) (items : Items)
             (key : string) (currentRune : rune) (s s' : T)
             (v : ConfigValue),
         get items key = None ->
         extractConfigValue fuel currentRune s = Ok (v, s') ->
         parsePlusEqualsValue (S fuel) items key currentRune s =
         Ok (set items key (Array [v]), s')
         /\ get (set items key (Array [v])) key = Some (Array [v]))
  /\ (forall (T : Type) (sc : Scanner T) (fuel : nat) (items : Items)
             (key : string) (currentRune : rune) (s s' : T)
             (values : list ConfigValue) (v : ConfigValue),
         get items key = Some (Array values) ->
         extractConfigValue fuel currentRune s = Ok (v, s') ->
         parsePlusEqualsValue (S fuel) items key currentRune s =
         Ok (set items key (Array (values ++ [v])), s')
         /\ get (set items key (Array (values ++ [v]))) key =
            Some (Array (values ++ [v]))).
Proof.
  split; [|split; [|split]].
  - extracts_plain.
  - extracts_plain.
  - intros T sc fuel items key currentRune s s' v Hget Hext.
    split; [|apply get_set_eq].
    simpl. rewrite Hget. fold (extractConfigValue fuel currentRune s).
    rewrite Hext. reflexivity.
  - intros T sc fuel items key currentRune s s' values v Hget Hext.
    split; [|apply get_set_eq].
    simpl. rewrite Hget. fold (extractConfigValue fuel currentRune s).
    rewrite Hext. reflexivity.
Qed.

(** ** String tokens *)

Lemma removeQuotes_filter (token : string) :
  list_ascii_of_string (removeQuotes token) =
  filter notQuote (list_ascii_of_string token).
Proof.
  induction token as [|c rest IH]; simpl; [reflexivity|].
  unfold notQuote at 1. destruct (Ascii.eqb c dquote); simpl; congruence.
Qed.

Lemma removeQuotes_app (s1 s2 : string) :
  removeQuotes (s1 ++ s2) = (removeQuotes s1 ++ removeQuotes s2)%string.
Proof.
  induction s1 as [|c rest IH]; simpl; [reflexivity|].
  destruct (Ascii.eqb c dquote); simpl; congruence.
Qed.

Lemma removeQuotes_none (body : string) :
  forallb notQuote (list_ascii_of_string body) = true ->
  removeQuotes body = body.
Proof.
  induction body as [|c rest IH]; simpl; [reflexivity|].
  unfold notQuote at 1. destruct (Ascii.eqb c dquote); simpl;
    [discriminate|]. intros H. f_equal. auto.
Qed.

(** C7 (amended).  For a string token, value extraction yields the String
    scalar that is the token text without its double quotes: the
    surrounding quotes and every quote inside, such as the one of an
    escape; all other characters are kept, in order, so a token without a
    quote inside yields its text between the surrounding quotes. *)
Theorem quoted_string_value (k : nat) :
  (forall (T : Type) (sc : Scanner T) (fuel : nat) (s : T),
      extractConfigValue (S fuel) scanner.String s =
      Ok (String (removeQuotes (TokenText s)), scan s))
  /\ (forall token : string,
         list_ascii_of_string (removeQuotes token) =
         filter notQuote (list_ascii_of_string token))
  /\ (forall body : string,
         forallb notQuote (list_ascii_of_string body) = true ->
         removeQuotes (quoted body) = body)
  /\ ParseText (20 + k) ("a = " ++ quoted "b c.d = ${e} #")%string =
     Ok (mkConfig (Object [("a", String "b c.d = ${e} #")]))
  /\ ParseText (20 + k) ("a = " ++ escapedQuoteLiteral)%string =
     Ok (mkConfig (Object [("a", String "x\y")])).
Proof.
  split; [|split; [|split; [|split]]].
  - intros. reflexivity.
  - apply removeQuotes_filter.
  - intros body H. unfold quoted. simpl.
    rewrite removeQuotes_app, removeQuotes_none by exact H.
    simpl. clear H. induction body; simpl; congruence.
  - extracts_plain.
  - extracts_plain.
Qed.

(** ** Forbidden characters *)

Lemma forbiddenCharacters_not_include (key : string) :
  forbiddenCharacters key = true ->
  String.eqb key includeToken = false /\ String.eqb key dotToken = false.
Proof.
  intros H. split.
  - destruct (String.eqb key includeToken) eqn:E; [|reflexivity].
    apply String.eqb_eq in E. subst. discriminate.
  - destruct (String.eqb key dotToken) eqn:E; [|reflexivity].
    apply String.eqb_eq in E. subst. discriminate.
Qed.

(** C8 (amended).  A key token that is one of the forbidden characters, and
    a token of a substitution path after the first one that is one of them,
    makes the extraction fail with the key error, in whatever object or
    path it stands; it is the whole token that is looked up, so a quoted
    key is accepted with forbidden characters inside. *)
Theorem forbidden_token_rejected (k : nat) :
  (forall (T : Type) (sc : Scanner T) (fuel : nat) (root : Items)
          (balanced : bool) (s : T),
      Peek s <> scanner.EOF ->
      forbiddenCharacters (TokenText s) = true ->
      objectLoop (S fuel) root balanced s = Err (InvalidKey (TokenText s)))
  /\ (forall (T : Type) (sc : Scanner T) (fuel : nat) (optional : bool)
             (pathBuilder previousToken : string) (s : T),
         forbiddenCharacters (TokenText (scan s)) = true ->
         TokenText (scan s) <> objectEndToken ->
         substitutionLoop (S fuel) optional pathBuilder previousToken s =
         Err (InvalidKey (TokenText (scan s))))
  /\ ParseText (20 + k) "$ = 1" = Err (InvalidKey "$")
  /\ ParseText (20 + k) "a = 1, b { c { @ = 2 } }" = Err (InvalidKey "@")
  /\ ParseText (20 + k) "a.# = 1" = Err (InvalidKey "#")
  /\ ParseText (20 + k) "a = [ 1, { b = 2, ! = 3 } ]" = Err (InvalidKey "!")
  /\ ParseText (20 + k) "a = 1, b = ${a.x*y}" = Err (InvalidKey "*")
  /\ ParseText (20 + k) (quoted "a$b" ++ " = 1")%string =
     Ok (mkConfig (Object [(quoted "a$b", Int 1)])).
Proof.
  split; [|split; [|split; [|split; [|split; [|split; [|split]]]]]].
  - intros T sc fuel root balanced s Hpeek Hforb.
    apply Z.eqb_neq in Hpeek.
    destruct (forbiddenCharacters_not_include _ Hforb) as [Hinc Hdot].
    simpl. rewrite Hpeek, Hinc. simpl. rewrite Hforb. reflexivity.
  - intros T sc fuel optional pathBuilder previousToken s Hforb Hend.
    destruct (forbiddenCharacters_not_include _ Hforb) as [Hinc Hdot].
    apply String.eqb_neq in Hend.
    simpl. rewrite Hdot, Hend, Hforb. rewrite andb_false_r. reflexivity.
  - intros. vm_compute. reflexivity.
  - intros. vm_compute. reflexivity.
  - intros. vm_compute. reflexivity.
  - intros. vm_compute. reflexivity.
  - intros. vm_compute. reflexivity.
  - extracts_plain.
Qed.

(** ** Writes into the store *)

Lemma get_updateKey_eq (items : Items) (key : string)
    (f : ConfigValue -> ConfigValue) (v : ConfigValue) :
  get items key = Some v -> get (updateKey items key f) key = Some (f v).
Proof.
  induction items as [|[k w] rest IH]; simpl; [discriminate|].
  destruct (String.eqb k key) eqn:E; simpl; rewrite E; auto.
  intros [= ->]. reflexivity.
Qed.

Lemma nth_error_updateNth_eq (values : list ConfigValue) (i : nat)
    (f : ConfigValue -> ConfigValue) (v : ConfigValue) :
  nth_error values i = Some v ->
  nth_error (updateNth values i f) i = Some (f v).
Proof.
  revert i. induction values as [|w rest IH]; intros [|i]; simpl;
    try discriminate; auto.
  intros [= ->]. reflexivity.
Qed.


Lemma lookupAddr_updateAt (r : ConfigValue) (a : addr)
    (f : ConfigValue -> ConfigValue) (v : ConfigValue) :
  lookupAddr r a = Some v -> lookupAddr (updateAt r a f) a = Some (f v).
Proof.
  revert r. induction a as [|[key|i] a IH]; intros r; simpl.
  - intros [= ->]. reflexivity.
  - destruct r; try discriminate.
    destruct (get items key) as [w|] eqn:E; [|discriminate].
    intros H. rewrite (get_updateKey_eq _ _ _ _ E). apply IH. exact H.
  - destruct r; try discriminate.
    destruct (nth_error values i) as [w|] eqn:E; [|discriminate].
    intros H. rewrite (nth_error_updateNth_eq _ _ _ _ E). apply IH. exact H.
Qed.




(** A value is found as it is held: a container by pointer. *)
Lemma findFrom_held (root : ConfigValue) (segments : list string) :
  forall (a : addr) (found : ConfigValue),
    findFrom root a segments = Some found -> isContainer found = false.
Proof.
  induction segments as [|key rest IH]; intros a found; simpl;
    [discriminate|].
  assert (Hfield : field root a key = Some found ->
                   isContainer found = false).
  { unfold field. destruct (lookupAddr root a) as [[]|]; try discriminate.
    destruct (get items key) as [v|]; [|discriminate].
    intros [= <-]. destruct v; reflexivity. }
  destruct rest as [|key' rest']; [exact Hfield|].
  destruct (field root a key) as [[]|]; try discriminate. apply IH.
Qed.



End Documents.

(** ** Includes *)

Section Includes.

Context {T : Type} {scannerOps : Scanner T} {platform : Platform}.

Lemma mergeConfigObjects_nil (root : Items) : mergeConfigObjects root [] = root.
Proof. reflexivity. Qed.

Lemma parseIncludedResource_missing (fuel : nat) (s s' : T)
    (token : IncludeToken) :
  validateIncludeValue s = Ok (token, s') ->
  os_Open (includePath token) = ErrNotExist ->
  parseIncludedResource (S fuel) s =
  if includeRequired token then Err CouldNotParseResource else Ok ([], s').
Proof.
  intros Hv Ho. simpl. rewrite Hv. simpl. rewrite Ho.
  destruct (includeRequired token); reflexivity.
Qed.

End Includes.

(** C9.  An include directive whose target does not exist yields an empty
    object when it is not wrapped in [required], which adds no key to the
    object under construction, and the parse goes on; wrapped in
    [required], it fails the parse. *)
Theorem include_missing_target :
  (forall (T : Type) (sc : Scanner T) (pf : Platform) (fuel : nat)
          (s s' : T) (token : IncludeToken),
      validateIncludeValue s = Ok (token, s') ->
      os_Open (includePath token) = ErrNotExist ->
      parseIncludedResource (S fuel) s =
      if includeRequired token then Err CouldNotParseResource
      else Ok ([], s'))
  /\ (forall root : Items, mergeConfigObjects root [] = root)
  /\ (forall k : nat,
         @ParseString _ textScanner noFiles (20 + k)
           ("include " ++ quoted "nonexistent.conf")%string =
         Ok (mkConfig (Object []))
         /\ @ParseString _ textScanner noFiles (20 + k)
              ("include file(" ++ quoted "nonexistent.conf" ++ ")")%string =
            Ok (mkConfig (Object []))
         /\ @ParseString _ textScanner noFiles (20 + k)
              ("a = 1, include " ++ quoted "nonexistent.conf" ++ "
                b = 2")%string =
            Ok (mkConfig (Object [("a", Int 1); ("b", Int 2)]))
         /\ @ParseString _ textScanner noFiles (20 + k)
              ("include required(" ++ quoted "nonexistent.conf" ++ ")")%string
            = Err CouldNotParseResource
         /\ @ParseString _ textScanner noFiles (20 + k)
              ("include required(file(" ++ quoted "nonexistent.conf"
               ++ "))")%string = Err CouldNotParseResource).
Proof.
  split; [|split].
  - intros T sc pf. apply parseIncludedResource_missing.
  - reflexivity.
  - intros k. repeat apply conj; vm_compute; reflexivity.
Qed.

(** ** Induction on value trees *)

Lemma ConfigValue_ind' (P : ConfigValue -> Prop) :
  (forall items, Forall (fun kv => P (snd kv)) items -> P (Object items)) ->
  (forall values, Forall P values -> P (Array values)) ->
  (forall value, P (String value)) ->
  (forall value, P (Int value)) ->
  (forall literal, P (Float32 literal)) ->
  (forall value, P (Boolean value)) ->
  P Null ->
  (forall path optional, P (Substitution path optional)) ->
  (forall target, P (Alias target)) ->
  forall v, P v.
Proof.
  intros HO HA HS HI HF HB HN HSub HAl.
  fix IH 1. intros [items|values|x|x|x|x| |path optional|target].
  - apply HO. induction items as [|[k v] rest IHr]; constructor.
    + apply IH.
    + exact IHr.
  - apply HA. induction values as [|v rest IHr]; constructor.
    + apply IH.
    + exact IHr.
  - apply HS.
  - apply HI.
  - apply HF.
  - apply HB.
  - apply HN.
  - apply HSub.
  - apply HAl.
Qed.

(** ** The substitution pass on documents without chains *)

Lemma lookupAddr_cons (r : ConfigValue) (st : step) (a : addr) :
  lookupAddr r (st :: a) =
  match lookupAddr r [st] with Some v => lookupAddr v a | None => None end.
Proof. apply (lookupAddr_app r [st] a). Qed.

Lemma keys_get_Some (items0 items : Items) (k : string) (v0 : ConfigValue) :
  keys items = keys items0 -> get items0 k = Some v0 ->
  exists v, get items k = Some v.
Proof.
  intros Hk Hg. destruct (get items k) as [v|] eqn:E; [eauto|].
  apply get_None_notIn in E. rewrite Hk in E.
  apply get_Some_In in Hg. exfalso. apply E.
  apply in_map_iff. exists (k, v0). auto.
Qed.

Lemma sameShape_child (c0 c : ConfigValue) (st : step) (v0 : ConfigValue) :
  sameShape c0 c -> lookupAddr c0 [st] = Some v0 ->
  exists v, lookupAddr c [st] = Some v.
Proof.
  destruct c0, c; simpl; try tauto; intros Hs; destruct st as [k|i];
    simpl; try discriminate.
  - destruct (get items k) as [w0|] eqn:E0; [|discriminate]. intros _.
    destruct (keys_get_Some _ _ _ _ Hs E0) as [w ->]. eauto.
  - destruct (nth_error values i) as [w0|] eqn:E0; [|discriminate]. intros _.
    destruct (nth_error values0 i) as [w|] eqn:E; [eauto|].
    apply nth_error_None in E.
    assert (i < length values) by (apply nth_error_Some; congruence). lia.
Qed.

Lemma sameShape_sym (c0 c : ConfigValue) : sameShape c0 c -> sameShape c c0.
Proof. destruct c0, c; simpl; auto. Qed.

Lemma sameShape_refl_container (c : ConfigValue) :
  isContainer c = true -> sameShape c c.
Proof. destruct c; simpl; try discriminate; auto. Qed.

Lemma lookup_step_container (c : ConfigValue) (st : step) (v : ConfigValue) :
  lookupAddr c [st] = Some v -> isContainer c = true.
Proof. destruct st, c; simpl; try discriminate; auto. Qed.

Section Evolution.

Variable t0 : ConfigValue.

Lemma evolves_found_held (path : string) (found : ConfigValue) :
  find t0 path = Some found -> isContainer found = false.
Proof. apply findFrom_held. Qed.

Lemma evolves_step (u0 u : ConfigValue) (st : step) (v0 : ConfigValue) :
  evolves t0 u0 u -> lookupAddr u0 [st] = Some v0 ->
  exists v, lookupAddr u [st] = Some v /\ evolves t0 v0 v.
Proof.
  intros He Hl. inversion He as [v|c0 c Hs Hp|p o f Hf Hn]; subst.
  - exists v0. split; [exact Hl|constructor].
  - destruct (sameShape_child _ _ _ _ Hs Hl) as [v Hv]. eauto.
  - destruct st; discriminate.
Qed.

Lemma evolves_lookup (a : addr) :
  forall (u0 u c0 : ConfigValue),
    evolves t0 u0 u -> lookupAddr u0 a = Some c0 ->
    exists c, lookupAddr u a = Some c /\ evolves t0 c0 c.
Proof.
  induction a as [|st a IH]; intros u0 u c0 He Hl.
  - simpl in Hl. injection Hl as <-. exists u. split; [reflexivity|exact He].
  - rewrite lookupAddr_cons in Hl.
    destruct (lookupAddr u0 [st]) as [v0|] eqn:E0; [|discriminate].
    destruct (evolves_step _ _ _ _ He E0) as [v [Hv Hev]].
    rewrite lookupAddr_cons, Hv. eapply IH; eauto.
Qed.

Lemma evolves_step_back (u0 u : ConfigValue) (st : step) (v : ConfigValue) :
  evolves t0 u0 u -> lookupAddr u [st] = Some v ->
  exists v0, lookupAddr u0 [st] = Some v0 /\ evolves t0 v0 v.
Proof.
  intros He Hl. inversion He as [w|c0 c Hs Hp|p o f Hf Hn]; subst.
  - exists v. split; [exact Hl|constructor].
  - destruct (sameShape_child _ _ _ _ (sameShape_sym _ _ Hs) Hl) as [v0 Hv0].
    eauto.
  - apply lookup_step_container in Hl.
    rewrite (evolves_found_held _ _ Hf) in Hl. discriminate.
Qed.

Lemma evolves_lookup_None (a : addr) :
  forall (u0 u : ConfigValue),
    evolves t0 u0 u -> lookupAddr u0 a = None -> lookupAddr u a = None.
Proof.
  induction a as [|st a IH]; intros u0 u He Hl; [discriminate|].
  rewrite lookupAddr_cons in Hl. rewrite lookupAddr_cons.
  destruct (lookupAddr u [st]) as [v|] eqn:E; [|reflexivity].
  destruct (evolves_step_back _ _ _ _ He E) as [v0 [Hv0 Hev]].
  rewrite Hv0 in Hl. eapply IH; eauto.
Qed.

(** The value held after reading a place: unchanged unless the place held a
    substitution. *)
Lemma evolves_pointer (b : addr) (v0 v : ConfigValue) :
  evolves t0 v0 v -> isSubstitutionNode v0 = false ->
  pointer b v = pointer b v0.
Proof.
  intros He Hn. inversion He as [w|c0 c Hs Hp|p o f Hf Hn']; subst.
  - reflexivity.
  - destruct v0, v; simpl in Hs; try tauto; reflexivity.
  - discriminate.
Qed.

End Evolution.

(** *** Reading and writing places *)

Lemma field_lookup (root : ConfigValue) (a : addr) (key : string) :
  field root a key =
  option_map (pointer (a ++ [Key key])) (lookupAddr root (a ++ [Key key])).
Proof.
  unfold field. rewrite lookupAddr_app.
  destruct (lookupAddr root a) as [[]|]; simpl; try reflexivity.
  destruct (get items key); reflexivity.
Qed.

Lemma element_lookup (root : ConfigValue) (a : addr) (i : nat) :
  element root a i =
  option_map (pointer (a ++ [Idx i])) (lookupAddr root (a ++ [Idx i])).
Proof.
  unfold element. rewrite lookupAddr_app.
  destruct (lookupAddr root a) as [[]|]; simpl; try reflexivity.
  destruct (nth_error values i); reflexivity.
Qed.

Lemma updateKey_ext_at (items : Items) (key : string)
    (f g : ConfigValue -> ConfigValue) :
  (forall v, get items key = Some v -> f v = g v) ->
  updateKey items key f = updateKey items key g.
Proof.
  induction items as [|[k w] rest IH]; simpl; [reflexivity|].
  destruct (String.eqb k key); intros H.
  - rewrite (H w eq_refl). reflexivity.
  - rewrite IH by exact H. reflexivity.
Qed.

Lemma updateNth_ext_at (values : list ConfigValue) (i : nat)
    (f g : ConfigValue -> ConfigValue) :
  (forall v, nth_error values i = Some v -> f v = g v) ->
  updateNth values i f = updateNth values i g.
Proof.
  revert i. induction values as [|w rest IH]; intros [|i]; simpl;
    try reflexivity; intros H.
  - rewrite (H w eq_refl). reflexivity.
  - rewrite (IH i) by exact H. reflexivity.
Qed.

Lemma updateAt_ext_at (a : addr) :
  forall (r : ConfigValue) (f g : ConfigValue -> ConfigValue),
    (forall c, lookupAddr r a = Some c -> f c = g c) ->
    updateAt r a f = updateAt r a g.
Proof.
  induction a as [|[key|i] a IH]; intros r f g H; simpl.
  - apply H. reflexivity.
  - destruct r; try reflexivity. f_equal.
    apply updateKey_ext_at. intros v Hv. apply IH.
    intros c Hc. apply H. simpl. rewrite Hv. exact Hc.
  - destruct r; try reflexivity. f_equal.
    apply updateNth_ext_at. intros v Hv. apply IH.
    intros c Hc. apply H. simpl. rewrite Hv. exact Hc.
Qed.

Lemma updateAt_app (a b : addr) :
  forall (r : ConfigValue) (f : ConfigValue -> ConfigValue),
    updateAt r (a ++ b) f = updateAt r a (fun c => updateAt c b f).
Proof.
  induction a as [|[key|i] a IH]; intros r f; simpl; [reflexivity| |].
  - destruct r; try reflexivity. f_equal.
    apply updateKey_ext_at. intros v _. apply IH.
  - destruct r; try reflexivity. f_equal.
    apply updateNth_ext_at. intros v _. apply IH.
Qed.

Lemma updateKey_twice (items : Items) (key : string)
    (f g : ConfigValue -> ConfigValue) :
  updateKey (updateKey items key f) key g =
  updateKey items key (fun v => g (f v)).
Proof.
  induction items as [|[k w] rest IH]; simpl; [reflexivity|].
  destruct (String.eqb k key) eqn:E; simpl; rewrite E; congruence.
Qed.

Lemma updateNth_twice (values : list ConfigValue) (i : nat)
    (f g : ConfigValue -> ConfigValue) :
  updateNth (updateNth values i f) i g =
  updateNth values i (fun v => g (f v)).
Proof.
  revert i. induction values as [|w rest IH]; intros [|i]; simpl;
    try reflexivity. rewrite IH. reflexivity.
Qed.

Lemma updateAt_twice (a : addr) :
  forall (r : ConfigValue) (f g : ConfigValue -> ConfigValue),
    updateAt (updateAt r a f) a g = updateAt r a (fun c => g (f c)).
Proof.
  induction a as [|[key|i] a IH]; intros r f g; simpl; [reflexivity| |].
  - destruct r; try reflexivity. simpl. f_equal.
    rewrite updateKey_twice. apply updateKey_ext_at. intros v _. apply IH.
  - destruct r; try reflexivity. simpl. f_equal.
    rewrite updateNth_twice. apply updateNth_ext_at. intros v _. apply IH.
Qed.

Lemma keys_updateKey (items : Items) (key : string)
    (f : ConfigValue -> ConfigValue) :
  keys (updateKey items key f) = keys items.
Proof.
  induction items as [|[k w] rest IH]; simpl; [reflexivity|].
  destruct (String.eqb k key); simpl; congruence.
Qed.

Lemma length_updateNth (values : list ConfigValue) (i : nat)
    (f : ConfigValue -> ConfigValue) :
  length (updateNth values i f) = length values.
Proof.
  revert i. induction values as [|w rest IH]; intros [|i]; simpl;
    try reflexivity. rewrite IH. reflexivity.
Qed.

Lemma get_updateKey_neq (items : Items) (key key' : string)
    (f : ConfigValue -> ConfigValue) :
  key <> key' -> get (updateKey items key f) key' = get items key'.
Proof.
  intros Hne. induction items as [|[k w] rest IH]; simpl; [reflexivity|].
  destruct (String.eqb k key) eqn:E; simpl.
  - apply String.eqb_eq in E. subst k.
    destruct (String.eqb key key') eqn:E'; [|reflexivity].
    apply String.eqb_eq in E'. contradiction.
  - destruct (String.eqb k key'); auto.
Qed.

Lemma nth_error_updateNth_neq (values : list ConfigValue) (i j : nat)
    (f : ConfigValue -> ConfigValue) :
  i <> j -> nth_error (updateNth values i f) j = nth_error values j.
Proof.
  revert i j. induction values as [|w rest IH]; intros [|i] [|j] Hne; simpl;
    try reflexivity; try lia. apply IH. lia.
Qed.

(** The children of a container after a write below one of them. *)
Lemma lookup_update_same (u : ConfigValue) (st : step) (a : addr)
    (f : ConfigValue -> ConfigValue) (v : ConfigValue) :
  lookupAddr u [st] = Some v ->
  lookupAddr (updateAt u (st :: a) f) [st] = Some (updateAt v a f).
Proof.
  destruct st as [k|i], u; simpl; try discriminate.
  - destruct (get items k) as [w|] eqn:E; [|discriminate]. intros [= ->].
    rewrite (get_updateKey_eq _ _ _ _ E). reflexivity.
  - destruct (nth_error values i) as [w|] eqn:E; [|discriminate].
    intros [= ->]. rewrite (nth_error_updateNth_eq _ _ _ _ E). reflexivity.
Qed.

Lemma lookup_update_other (u : ConfigValue) (st st' : step) (a : addr)
    (f : ConfigValue -> ConfigValue) :
  st <> st' ->
  lookupAddr (updateAt u (st :: a) f) [st'] = lookupAddr u [st'].
Proof.
  intros Hne. destruct st as [k|i], st' as [k'|i'], u; simpl;
    try reflexivity.
  - rewrite get_updateKey_neq; [reflexivity|congruence].
  - rewrite nth_error_updateNth_neq; [reflexivity|congruence].
Qed.

Lemma sameShape_update (u : ConfigValue) (st : step) (a : addr)
    (f : ConfigValue -> ConfigValue) :
  isContainer u = true -> sameShape u (updateAt u (st :: a) f).
Proof.
  destruct st as [k|i], u; simpl; try discriminate; intros _; auto.
  - apply keys_updateKey.
  - apply length_updateNth.
Qed.

Lemma sameShape_trans (c0 c1 c2 : ConfigValue) :
  sameShape c0 c1 -> sameShape c1 c2 -> sameShape c0 c2.
Proof. destruct c0, c1, c2; simpl; try tauto; congruence. Qed.

Lemma set_updateKey (items : Items) (key : string) (v old : ConfigValue) :
  get items key = Some old ->
  set items key v = updateKey items key (fun _ => v).
Proof.
  induction items as [|[k w] rest IH]; simpl; [discriminate|].
  destruct (String.eqb k key); [reflexivity|]. intros H. f_equal. auto.
Qed.

Lemma setNth_updateNth (values : list ConfigValue) (i : nat)
    (v : ConfigValue) :
  setNth values i v = updateNth values i (fun _ => v).
Proof.
  revert i. induction values as [|w rest IH]; intros [|i]; simpl;
    try reflexivity. rewrite IH. reflexivity.
Qed.

Lemma setField_present (root : ConfigValue) (a : addr) (key : string)
    (v old : ConfigValue) :
  lookupAddr root (a ++ [Key key]) = Some old ->
  setField a key v root = updateAt root (a ++ [Key key]) (fun _ => v).
Proof.
  intros H. unfold setField. rewrite updateAt_app.
  apply updateAt_ext_at. intros c Hc.
  rewrite lookupAddr_app, Hc in H. destruct c; simpl in *; try discriminate.
  destruct (get items key) as [w|] eqn:E; [|discriminate].
  rewrite (set_updateKey _ _ _ _ E). reflexivity.
Qed.

Lemma setElement_present (root : ConfigValue) (a : addr) (i : nat)
    (v old : ConfigValue) :
  lookupAddr root (a ++ [Idx i]) = Some old ->
  setElement a i v root = updateAt root (a ++ [Idx i]) (fun _ => v).
Proof.
  intros H. unfold setElement. rewrite updateAt_app.
  apply updateAt_ext_at. intros c Hc.
  rewrite lookupAddr_app, Hc in H. destruct c; simpl in *; try discriminate.
  rewrite setNth_updateNth. reflexivity.
Qed.

Lemma step_eq_dec (st st' : step) : {st = st'} + {st <> st'}.
Proof. decide equality; [apply string_dec|apply Nat.eq_dec]. Qed.

(** *** Lookups in an evolved store *)

Section EvolvedStore.

Variable t0 : ConfigValue.

Lemma pointer_substitution (b : addr) (v : ConfigValue) :
  isSubstitutionNode (pointer b v) = isSubstitutionNode v.
Proof. destruct v; reflexivity. Qed.

Lemma field_evolves (r : ConfigValue) (a : addr) (key : string)
    (held : ConfigValue) :
  evolves t0 t0 r -> field t0 a key = Some held ->
  isSubstitutionNode held = false -> field r a key = Some held.
Proof.
  intros He. rewrite !field_lookup.
  destruct (lookupAddr t0 (a ++ [Key key])) as [v0|] eqn:E0; [|discriminate].
  simpl. intros [= <-] Hn. rewrite pointer_substitution in Hn.
  destruct (evolves_lookup t0 _ _ _ _ He E0) as [v [Hv Hev]].
  rewrite Hv. simpl. f_equal. apply (evolves_pointer t0); assumption.
Qed.

Lemma field_evolves_None (r : ConfigValue) (a : addr) (key : string) :
  evolves t0 t0 r -> field t0 a key = None -> field r a key = None.
Proof.
  intros He. rewrite !field_lookup.
  destruct (lookupAddr t0 (a ++ [Key key])) as [v0|] eqn:E0; [discriminate|].
  intros _. rewrite (evolves_lookup_None t0 _ _ _ He E0). reflexivity.
Qed.

(** Where the walk of a path reads no substitution, it finds in every
    evolved store what it finds in the extracted tree. *)
Lemma findFrom_stable (r : ConfigValue) (segments : list string) :
  evolves t0 t0 r ->
  forall a : addr,
    stableFrom t0 a segments = true ->
    findFrom r a segments = findFrom t0 a segments.
Proof.
  intros He. induction segments as [|key rest IH]; intros a; [reflexivity|].
  cbn [stableFrom findFrom].
  destruct (field t0 a key) as [held|] eqn:E0.
  - destruct (isSubstitutionNode held) eqn:En.
    + destruct held; discriminate.
    + rewrite (field_evolves _ _ _ _ He E0 En).
      destruct rest as [|key' rest']; [reflexivity|].
      destruct held; try reflexivity. apply IH.
  - rewrite (field_evolves_None _ _ _ He E0).
    destruct rest; reflexivity.
Qed.

Lemma stableFrom_found (segments : list string) :
  forall (a : addr) (found : ConfigValue),
    stableFrom t0 a segments = true ->
    findFrom t0 a segments = Some found ->
    isSubstitutionNode found = false.
Proof.
  induction segments as [|key rest IH]; intros a found; [discriminate|].
  cbn [stableFrom findFrom].
  destruct (field t0 a key) as [held|] eqn:E0.
  - destruct rest as [|key' rest'].
    + intros Hs [= <-]. destruct held; try reflexivity. discriminate.
    + destruct held; try discriminate. apply IH.
  - destruct rest; discriminate.
Qed.

Lemma find_stable (r : ConfigValue) (path : string) :
  evolves t0 t0 r -> stable t0 path = true -> find r path = find t0 path.
Proof. intros He Hs. apply findFrom_stable; assumption. Qed.

Lemma evolves_container_inv (u0 u : ConfigValue) :
  evolves t0 u0 u -> isContainer u0 = true -> sameShape u0 u.
Proof.
  intros He Hc. inversion He as [v|c0 c Hs Hp|p o f Hf Hn]; subst.
  - apply sameShape_refl_container. exact Hc.
  - exact Hs.
  - discriminate.
Qed.

(** A write that replaces a subtree by an evolved one. *)
Lemma evolves_updateAt (a : addr) :
  forall (u0 u s0 s : ConfigValue) (f : ConfigValue -> ConfigValue),
    evolves t0 u0 u -> lookupAddr u0 a = Some s0 ->
    lookupAddr u a = Some s -> evolves t0 s0 (f s) ->
    evolves t0 u0 (updateAt u a f).
Proof.
  induction a as [|st a IH]; intros u0 u s0 s f He H0 H1 Hf.
  - simpl in *. injection H0 as ->. injection H1 as ->. exact Hf.
  - rewrite lookupAddr_cons in H0, H1.
    destruct (lookupAddr u0 [st]) as [v0|] eqn:E0; [|discriminate].
    destruct (lookupAddr u [st]) as [v|] eqn:E1; [|discriminate].
    assert (Hc0 : isContainer u0 = true)
      by (eapply lookup_step_container; eauto).
    assert (Hc : isContainer u = true)
      by (eapply lookup_step_container; eauto).
    apply evolves_container.
    + eapply sameShape_trans;
        [apply evolves_container_inv; eassumption|].
      apply sameShape_update. exact Hc.
    + intros st' w0 w Hw0 Hw.
      destruct (step_eq_dec st st') as [<-|Hne].
      * rewrite (lookup_update_same _ _ _ _ _ E1) in Hw.
        injection Hw as <-. rewrite E0 in Hw0. injection Hw0 as <-.
        destruct (evolves_step t0 _ _ _ _ He E0) as [v' [Hv' Hev]].
        rewrite E1 in Hv'. injection Hv' as <-.
        eapply IH; eauto.
      * rewrite (lookup_update_other _ _ _ _ _ Hne) in Hw.
        destruct (evolves_step t0 _ _ _ _ He Hw0) as [w' [Hw' Hev]].
        rewrite Hw in Hw'. injection Hw' as <-. exact Hev.
Qed.

End EvolvedStore.

(** *** Trees *)

Lemma In_get_NoDup (items : Items) (k : string) (v : ConfigValue) :
  NoDup (keys items) -> In (k, v) items -> get items k = Some v.
Proof.
  induction items as [|[k' w] rest IH]; simpl; [tauto|].
  intros Hnd [H|H].
  - injection H as -> ->. rewrite String.eqb_refl. reflexivity.
  - inversion Hnd as [|? ? Hnotin Hnd']; subst.
    destruct (String.eqb k' k) eqn:E; [|auto].
    apply String.eqb_eq in E. subst k'. exfalso. apply Hnotin.
    apply in_map_iff. exists (k, v). auto.
Qed.

Lemma isTree_step (u : ConfigValue) (st : step) (v : ConfigValue) :
  isTree u -> lookupAddr u [st] = Some v -> isTree v.
Proof.
  intros Ht. inversion Ht as [items Hnd Hall|values Hall|w Hc Ha]; subst;
    destruct st as [k|i]; simpl; try discriminate.
  - destruct (get items k) as [w|] eqn:E; [|discriminate]. intros [= <-].
    apply (Hall k). apply get_Some_In. exact E.
  - destruct (nth_error values i) as [w|] eqn:E; [|discriminate].
    intros [= <-]. apply Hall. eapply nth_error_In; eauto.
  - destruct u; discriminate.
  - destruct u; discriminate.
Qed.

Lemma isTree_lookup (a : addr) :
  forall (u v : ConfigValue),
    isTree u -> lookupAddr u a = Some v -> isTree v.
Proof.
  induction a as [|st a IH]; intros u v Ht.
  - simpl. intros [= <-]. exact Ht.
  - rewrite lookupAddr_cons.
    destruct (lookupAddr u [st]) as [w|] eqn:E; [|discriminate].
    apply IH. eapply isTree_step; eauto.
Qed.

Lemma forallSubst_step (p : string -> bool -> bool) (u : ConfigValue)
    (st : step) (v : ConfigValue) :
  forallSubst p u = true -> lookupAddr u [st] = Some v ->
  forallSubst p v = true.
Proof.
  destruct st as [k|i], u; simpl; try discriminate; intros Hall.
  - destruct (get items k) as [w|] eqn:E; [|discriminate]. intros [= <-].
    rewrite forallb_forall in Hall.
    apply (Hall (k, w)). apply get_Some_In. exact E.
  - destruct (nth_error values i) as [w|] eqn:E; [|discriminate].
    intros [= <-]. rewrite forallb_forall in Hall.
    apply Hall. eapply nth_error_In; eauto.
Qed.

Lemma forallSubst_lookup (p : string -> bool -> bool) (a : addr) :
  forall (u v : ConfigValue),
    forallSubst p u = true -> lookupAddr u a = Some v ->
    forallSubst p v = true.
Proof.
  induction a as [|st a IH]; intros u v Hall.
  - simpl. intros [= <-]. exact Hall.
  - rewrite lookupAddr_cons.
    destruct (lookupAddr u [st]) as [w|] eqn:E; [|discriminate].
    apply IH. eapply forallSubst_step; eauto.
Qed.

Lemma forallSubst_held (p : string -> bool -> bool) (v : ConfigValue) :
  isContainer v = false -> isSubstitutionNode v = false ->
  forallSubst p v = true.
Proof. destruct v; simpl; try reflexivity; discriminate. Qed.

Lemma forEach_ext {A : Type} (l : list A)
    (f g : A -> ConfigValue -> result ConfigValue) :
  (forall x r, f x r = g x r) ->
  forall r, forEach l f r = forEach l g r.
Proof.
  intros H. induction l as [|x l IH]; intros r; simpl; [reflexivity|].
  rewrite H. destruct (g x r); simpl; auto.
Qed.

Lemma forEach_map {A B : Type} (h : A -> B) (l : list A)
    (g : B -> ConfigValue -> result ConfigValue) :
  forall r, forEach (map h l) g r = forEach l (fun x => g (h x)) r.
Proof.
  induction l as [|x l IH]; intros r; simpl; [reflexivity|].
  destruct (g (h x) r); simpl; auto.
Qed.

Lemma NoDup_map_injective {A B : Type} (h : A -> B) (l : list A) :
  (forall x y, h x = h y -> x = y) -> NoDup l -> NoDup (map h l).
Proof.
  intros Hinj. induction 1 as [|x l Hnotin Hnd IH]; simpl; constructor; auto.
  intros Hin. apply in_map_iff in Hin. destruct Hin as [y [Hy Hin]].
  apply Hinj in Hy. subst. contradiction.
Qed.

Section Pass.

Context {platform : Platform}.

Lemma processSubstitution_ext (fuel : nat) (root value : ConfigValue)
    (f g : ConfigValue -> ConfigValue -> ConfigValue) :
  (forall v, f v root = g v root) ->
  processSubstitution fuel root value f = processSubstitution fuel root value g.
Proof.
  intros H. destruct fuel; [reflexivity|]. destruct value; try reflexivity.
  simpl. destruct (find root path); [rewrite H|]; reflexivity.
Qed.

Lemma resolveSubstitutions_visits (fuel : nat) (r : ConfigValue) (a : addr) :
  resolveSubstitutions (S fuel) r a =
  match lookupAddr r a with
  | Some (Array values) =>
      forEach (map Idx (seq 0 (length values))) (visit fuel a) r
  | Some (Object items) =>
      forEach (map Key (mapRange a (keys items))) (visit fuel a) r
  | _ => Err InvalidSubstitutionType
  end.
Proof.
  simpl. destruct (lookupAddr r a) as [[]|]; try reflexivity.
  - rewrite forEach_map. apply forEach_ext. intros key root.
    unfold visit. rewrite field_lookup.
    destruct (lookupAddr root (a ++ [Key key])) as [old|] eqn:E;
      [|reflexivity].
    simpl. apply processSubstitution_ext. intros v.
    apply (setField_present _ _ _ _ _ E).
  - rewrite forEach_map. apply forEach_ext. intros i root.
    unfold visit. rewrite element_lookup.
    destruct (lookupAddr root (a ++ [Idx i])) as [old|] eqn:E;
      [|reflexivity].
    simpl. apply processSubstitution_ext. intros v.
    apply (setElement_present _ _ _ _ _ E).
Qed.

Variable t0 : ConfigValue.
Hypothesis t0_tree : isTree t0.
Hypothesis t0_chainFree : chainFree t0 = true.

Lemma LoopInv_evolves (s0 c : ConfigValue) (todo : list step) :
  LoopInv t0 s0 todo c -> evolves t0 s0 c.
Proof.
  intros [Hs Hp]. apply evolves_container; [exact Hs|].
  intros st v0 v H0 H1. destruct (Hp st v0 H0) as [w [Hw [Hin Hout]]].
  rewrite H1 in Hw. injection Hw as <-.
  destruct (in_dec step_eq_dec st todo) as [H|H].
  - rewrite (Hin H). constructor.
  - apply Hout. exact H.
Qed.

Lemma LoopInv_keep (s0 c : ConfigValue) (st : step) (todo : list step)
    (v0 : ConfigValue) :
  LoopInv t0 s0 (st :: todo) c -> lookupAddr s0 [st] = Some v0 ->
  settled t0 v0 = true -> LoopInv t0 s0 todo c.
Proof.
  intros [Hs Hp] H0 Hset. split; [exact Hs|].
  intros st' w0 Hw0. destruct (Hp st' w0 Hw0) as [w [Hw [Hin Hout]]].
  exists w. split; [exact Hw|]. split.
  - intros H. apply Hin. right. exact H.
  - intros H. destruct (step_eq_dec st st') as [<-|Hne].
    + rewrite H0 in Hw0. injection Hw0 as <-.
      rewrite (Hin (or_introl eq_refl)). split; [constructor|exact Hset].
    + apply Hout. intros [E|E]; [contradiction|contradiction].
Qed.

Lemma LoopInv_replace (s0 c : ConfigValue) (st : step) (todo : list step)
    (v0 x : ConfigValue) :
  LoopInv t0 s0 (st :: todo) c -> lookupAddr s0 [st] = Some v0 ->
  ~ In st todo -> evolves t0 v0 x -> settled t0 x = true ->
  LoopInv t0 s0 todo (updateAt c [st] (fun _ => x)).
Proof.
  intros [Hs Hp] H0 Hnotin Hev Hset.
  destruct (Hp st v0 H0) as [v [Hv _]].
  split.
  - eapply sameShape_trans; [exact Hs|].
    apply sameShape_update. eapply lookup_step_container; eauto.
  - intros st' w0 Hw0. destruct (step_eq_dec st st') as [<-|Hne].
    + rewrite H0 in Hw0. injection Hw0 as <-.
      exists x. split; [|split].
      * rewrite (lookup_update_same _ _ _ _ _ Hv). reflexivity.
      * intros H. contradiction.
      * intros _. split; assumption.
    + destruct (Hp st' w0 Hw0) as [w [Hw [Hin Hout]]].
      exists w. split; [|split].
      * rewrite lookup_update_other by exact Hne. exact Hw.
      * intros H. apply Hin. right. exact H.
      * intros H. apply Hout. intros [E|E]; contradiction.
Qed.

Lemma LoopInv_settled (s0 c : ConfigValue) :
  isTree s0 -> LoopInv t0 s0 [] c -> settled t0 c = true.
Proof.
  intros Ht [Hs Hp].
  destruct s0 as [items0|values0| | | | | | |], c as [items|values| | | | | | |];
    simpl in Hs; try tauto.
  - unfold settled. simpl. apply forallb_forall. intros [k v] Hin. simpl.
    inversion Ht as [? Hnd _| |? Hc _]; subst; [|discriminate].
    assert (Hget : get items k = Some v).
    { apply In_get_NoDup; [rewrite Hs; exact Hnd|exact Hin]. }
    assert (Hk : In k (keys items0)).
    { rewrite <- Hs. apply in_map_iff. exists (k, v). auto. }
    destruct (get_In _ _ Hk) as [v0 [Hv0 _]].
    destruct (Hp (Key k) v0) as [w [Hw [_ Hout]]]; [simpl; rewrite Hv0; auto|].
    simpl in Hw. rewrite Hget in Hw. injection Hw as <-.
    apply Hout. simpl. tauto.
  - unfold settled. simpl. apply forallb_forall. intros v Hin.
    destruct (In_nth_error _ _ Hin) as [i Hi].
    assert (Hlt : i < length values0).
    { rewrite <- Hs. apply nth_error_Some. congruence. }
    destruct (nth_error values0 i) as [v0|] eqn:E0;
      [|apply nth_error_None in E0; lia].
    destruct (Hp (Idx i) v0) as [w [Hw [_ Hout]]]; [simpl; rewrite E0; auto|].
    simpl in Hw. rewrite Hi in Hw. injection Hw as <-.
    apply Hout. simpl. tauto.
Qed.

Lemma updateAt_child (rbase c : ConfigValue) (a : addr) (st : step)
    (x s0 : ConfigValue) :
  lookupAddr rbase a = Some s0 ->
  updateAt (updateAt rbase a (fun _ => c)) (a ++ [st]) (fun _ => x) =
  updateAt rbase a (fun _ => updateAt c [st] (fun _ => x)).
Proof.
  intros H. rewrite updateAt_app, updateAt_twice. reflexivity.
Qed.

Lemma visit_sound (fuel : nat) :
  (forall f, f < fuel -> Resolves t0 f) ->
  forall (a : addr) (s0 rbase c r1 : ConfigValue) (st : step)
         (todo : list step) (v0 : ConfigValue),
    lookupAddr t0 a = Some s0 -> lookupAddr rbase a = Some s0 ->
    evolves t0 t0 rbase ->
    LoopInv t0 s0 (st :: todo) c -> ~ In st todo ->
    lookupAddr s0 [st] = Some v0 ->
    visit fuel a st (updateAt rbase a (fun _ => c)) = Ok r1 ->
    exists c1, r1 = updateAt rbase a (fun _ => c1) /\ LoopInv t0 s0 todo c1.
Proof.
  intros IH a s0 rbase c r1 st todo v0 H0 Hb Heb Hinv Hnotin Hv0 Hvisit.
  set (r := updateAt rbase a (fun _ => c)) in *.
  assert (Hr : lookupAddr r a = Some c)
    by (apply (lookupAddr_updateAt _ _ _ _ Hb)).
  assert (Her : evolves t0 t0 r).
  { apply (evolves_updateAt t0 a t0 rbase s0 s0); auto.
    eapply LoopInv_evolves; eauto. }
  assert (Hc : lookupAddr c [st] = Some v0).
  { destruct Hinv as [_ Hp]. destruct (Hp st v0 Hv0) as [v [Hv [Hin _]]].
    rewrite (Hin (or_introl eq_refl)) in Hv. exact Hv. }
  assert (Hr1 : lookupAddr r (a ++ [st]) = Some v0)
    by (rewrite lookupAddr_app, Hr; exact Hc).
  assert (Ht1 : lookupAddr t0 (a ++ [st]) = Some v0)
    by (rewrite lookupAddr_app, H0; exact Hv0).
  assert (Htree : isTree v0) by (eapply isTree_lookup; eauto).
  assert (Hkeep : settled t0 v0 = true -> r1 = r ->
                  exists c1, r1 = updateAt rbase a (fun _ => c1) /\
                             LoopInv t0 s0 todo c1).
  { intros Hset ->. exists c. split; [reflexivity|].
    eapply LoopInv_keep; eauto. }
  assert (Hrepl : forall x, evolves t0 v0 x -> settled t0 x = true ->
                  r1 = updateAt r (a ++ [st]) (fun _ => x) ->
                  exists c1, r1 = updateAt rbase a (fun _ => c1) /\
                             LoopInv t0 s0 todo c1).
  { intros x Hev Hset ->. exists (updateAt c [st] (fun _ => x)). split.
    - unfold r. apply (updateAt_child _ _ _ _ _ s0). exact Hb.
    - eapply LoopInv_replace; eauto. }
  unfold visit in Hvisit. rewrite Hr1 in Hvisit. simpl in Hvisit.
  destruct fuel as [|f]; [discriminate|].
  destruct v0 as [items|values|x|x|x|x| |path optional|target];
    simpl in Hvisit.
  - destruct (IH f (Nat.lt_succ_diag_r f) _ _ _ _ Ht1 Hr1 Her Hvisit)
      as [s' [-> [Hev Hset]]].
    eapply Hrepl; eauto.
  - destruct (IH f (Nat.lt_succ_diag_r f) _ _ _ _ Ht1 Hr1 Her Hvisit)
      as [s' [-> [Hev Hset]]].
    eapply Hrepl; eauto.
  - injection Hvisit as <-. apply Hkeep; reflexivity.
  - injection Hvisit as <-. apply Hkeep; reflexivity.
  - injection Hvisit as <-. apply Hkeep; reflexivity.
  - injection Hvisit as <-. apply Hkeep; reflexivity.
  - injection Hvisit as <-. apply Hkeep; reflexivity.
  - assert (Hstable : stable t0 path = true).
    { apply (forallSubst_lookup _ _ _ _ t0_chainFree Ht1). }
    rewrite (find_stable t0 r path Her Hstable) in Hvisit.
    destruct (find t0 path) as [found|] eqn:Efind.
    + injection Hvisit as <-.
      assert (Hn : isSubstitutionNode found = false)
        by (eapply stableFrom_found; eauto).
      apply (Hrepl found); auto.
      * constructor; assumption.
      * apply forallSubst_held; auto. eapply findFrom_held; eauto.
    + destruct optional; simpl in Hvisit; [|discriminate].
      injection Hvisit as <-. apply Hkeep; [|reflexivity].
      unfold settled, settledTest. simpl. rewrite Efind, Hstable. reflexivity.
  - inversion Htree; discriminate.
Qed.

Lemma visits_sound (fuel : nat) :
  (forall f, f < fuel -> Resolves t0 f) ->
  forall (a : addr) (s0 rbase : ConfigValue),
    lookupAddr t0 a = Some s0 -> lookupAddr rbase a = Some s0 ->
    evolves t0 t0 rbase ->
    forall (todo : list step) (c r' : ConfigValue),
      NoDup todo ->
      (forall st, In st todo -> lookupAddr s0 [st] <> None) ->
      LoopInv t0 s0 todo c ->
      forEach todo (visit fuel a) (updateAt rbase a (fun _ => c)) = Ok r' ->
      exists c', r' = updateAt rbase a (fun _ => c') /\ LoopInv t0 s0 [] c'.
Proof.
  intros IH a s0 rbase H0 Hb Heb todo.
  induction todo as [|st todo IHtodo]; intros c r' Hnd Hex Hinv Hrun.
  - simpl in Hrun. injection Hrun as <-. eauto.
  - simpl in Hrun.
    destruct (visit fuel a st (updateAt rbase a (fun _ => c)))
      as [r1| |] eqn:Hvisit; simpl in Hrun; try discriminate.
    inversion Hnd as [|? ? Hnotin Hnd']; subst.
    destruct (lookupAddr s0 [st]) as [v0|] eqn:Hv0;
      [|exfalso; apply (Hex st (or_introl eq_refl)); exact Hv0].
    destruct (visit_sound fuel IH a s0 rbase c r1 st todo v0
                H0 Hb Heb Hinv Hnotin Hv0 Hvisit) as [c1 [-> Hinv1]].
    apply (IHtodo c1 r'); auto.
    intros st' Hin. apply Hex. right. exact Hin.
Qed.

Lemma updateAt_same (a : addr) :
  forall (r s : ConfigValue),
    lookupAddr r a = Some s -> updateAt r a (fun _ => s) = r.
Proof.
  intros r s H. transitivity (updateAt r a (fun c => c)).
  - apply updateAt_ext_at. intros c Hc. congruence.
  - clear H. revert r. induction a as [|[k|i] a IH]; intros r; simpl;
      [reflexivity| |]; destruct r; try reflexivity; f_equal.
    + induction items as [|[k' w] rest IHi]; simpl; [reflexivity|].
      destruct (String.eqb k' k); [rewrite IH|rewrite IHi]; reflexivity.
    + revert i. induction values as [|w rest IHv]; intros [|i]; simpl;
        try reflexivity; [rewrite IH|rewrite IHv]; reflexivity.
Qed.

Lemma LoopInv_start (s0 : ConfigValue) (todo : list step) :
  isContainer s0 = true ->
  (forall st v0, lookupAddr s0 [st] = Some v0 -> In st todo) ->
  LoopInv t0 s0 todo s0.
Proof.
  intros Hc Hcover. split; [apply sameShape_refl_container; exact Hc|].
  intros st v0 Hv0. exists v0. split; [exact Hv0|]. split; [reflexivity|].
  intros H. exfalso. apply H. eapply Hcover; eauto.
Qed.

Theorem resolveSubstitutions_sound (fuel : nat) : Resolves t0 fuel.
Proof.
  induction fuel as [fuel IH] using lt_wf_ind.
  intros r r' a s0 H0 Hr Her Hrun.
  destruct fuel as [|f]; [discriminate|].
  rewrite resolveSubstitutions_visits, Hr in Hrun.
  assert (IH' : forall f', f' < f -> Resolves t0 f')
    by (intros f' Hlt; apply IH; lia).
  assert (Ht : isTree s0) by (eapply isTree_lookup; eauto).
  assert (Hloop : forall todo,
             isContainer s0 = true -> NoDup todo ->
             (forall st, In st todo -> lookupAddr s0 [st] <> None) ->
             (forall st v0, lookupAddr s0 [st] = Some v0 -> In st todo) ->
             forEach todo (visit f a) r = Ok r' ->
             exists s', r' = updateAt r a (fun _ => s') /\
                        evolves t0 s0 s' /\ settled t0 s' = true).
  { intros todo Hc Hnd Hex Hcover Hrun'.
    rewrite <- (updateAt_same a r s0 Hr) in Hrun'.
    destruct (visits_sound f IH' a s0 r H0 Hr Her todo s0 r' Hnd Hex
                (LoopInv_start s0 todo Hc Hcover) Hrun')
      as [c' [-> Hinv]].
    exists c'. split; [reflexivity|]. split.
    - eapply LoopInv_evolves; eauto.
    - apply (LoopInv_settled s0); assumption. }
  destruct s0 as [items|values| | | | | | |]; try discriminate.
  - inversion Ht as [? Hnd _| |? Hc _]; subst; [|discriminate].
    apply (Hloop (map Key (mapRange a (keys items))) eq_refl);
      [| | |exact Hrun].
    + apply NoDup_map_injective; [intros x y [= ->]; reflexivity|].
      eapply Permutation_NoDup;
        [apply Permutation_sym, mapRange_permutation|exact Hnd].
    + intros st Hin. apply in_map_iff in Hin.
      destruct Hin as [k [<- Hin]]. apply mapRange_In in Hin.
      destruct (get_In _ _ Hin) as [v [Hv _]]. simpl. rewrite Hv. discriminate.
    + intros [k|i] v0; simpl; [|discriminate].
      destruct (get items k) as [w|] eqn:E; [|discriminate]. intros _.
      apply in_map.
      eapply Permutation_in;
        [apply Permutation_sym, mapRange_permutation|].
      apply in_map_iff. exists (k, w). split; [reflexivity|].
      apply get_Some_In. exact E.
  - apply (Hloop (map Idx (seq 0 (length values))) eq_refl);
      [| | |exact Hrun].
    + apply NoDup_map_injective; [intros x y [= ->]; reflexivity|].
      apply seq_NoDup.
    + intros st Hin. apply in_map_iff in Hin.
      destruct Hin as [i [<- Hin]]. apply in_seq in Hin. simpl.
      destruct (nth_error values i) eqn:E; [discriminate|].
      apply nth_error_None in E. lia.
    + intros [k|i] v0; simpl; [discriminate|].
      destruct (nth_error values i) as [w|] eqn:E; [|discriminate]. intros _.
      apply in_map. apply in_seq.
      assert (i < length values) by (apply nth_error_Some; congruence). lia.
Qed.


End Pass.

(** ** The extractor builds trees *)

Lemma isTree_set (items : Items) (key : string) (v : ConfigValue) :
  isTree (Object items) -> isTree v -> isTree (Object (set items key v)).
Proof.
  intros Ht Hv. inversion Ht as [? Hnd Hall| |? Hc _]; subst; [|discriminate].
  constructor; [apply NoDup_keys_set; exact Hnd|].
  clear Hnd Ht. induction items as [|[k w] rest IH]; simpl.
  - intros k' v' [[= <- <-]|[]]. exact Hv.
  - destruct (String.eqb k key).
    + intros k' v' [[= <- <-]|H]; [exact Hv|]. apply (Hall k'). right. exact H.
    + intros k' v' [[= <- <-]|H]; [apply (Hall k); left; reflexivity|].
      revert k' v' H. apply IH. intros k' v' H. apply (Hall k'). right.
      exact H.
Qed.

Lemma isTree_get (items : Items) (key : string) (v : ConfigValue) :
  isTree (Object items) -> get items key = Some v -> isTree v.
Proof.
  intros Ht Hg. apply (isTree_step (Object items) (Key key)); [exact Ht|].
  simpl. rewrite Hg. reflexivity.
Qed.

Lemma isTree_empty : isTree (Object []).
Proof. constructor; [constructor|intros k v []]. Qed.

Lemma isTree_mergeValue (v : ConfigValue) :
  forall existing : option ConfigValue,
    isTree v ->
    (forall e, existing = Some e -> isTree e) ->
    isTree (mergeValue v existing).
Proof.
  induction v as [new IHv|values IHv| | | | | | |] using ConfigValue_ind';
    intros existing Hv He; try exact Hv.
  destruct existing as [[existingItems| | | | | | | |]|]; try exact Hv.
  rewrite mergeValue_Object.
  assert (Hex : isTree (Object existingItems)) by (apply He; reflexivity).
  clear He. revert existingItems Hex.
  inversion Hv as [? Hnd Hall| |? Hc _]; subst; [|discriminate].
  clear Hv Hnd.
  induction new as [|[k w] rest IHnew]; intros existingItems Hex; simpl;
    [exact Hex|].
  inversion IHv as [|? ? Hw IHrest]; subst.
  apply IHnew; auto.
  - intros k' v' H. apply (Hall k'). right. exact H.
  - apply isTree_set; [exact Hex|].
    apply Hw; [apply (Hall k); left; reflexivity|].
    intros e Hg. eapply isTree_get; eauto.
Qed.

Lemma isTree_mergeConfigObjects (existingItems new : Items) :
  isTree (Object existingItems) -> isTree (Object new) ->
  isTree (Object (mergeConfigObjects existingItems new)).
Proof.
  intros He Hn. rewrite <- mergeValue_Object.
  apply isTree_mergeValue; [exact Hn|]. intros e [= <-]. exact He.
Qed.

Lemma isTree_assignValue (root : Items) (key : string) (v : ConfigValue) :
  isTree (Object root) -> isTree v ->
  isTree (Object (assignValue root key v)).
Proof.
  intros Hr Hv. unfold assignValue. apply isTree_set; [exact Hr|].
  destruct v as [new| | | | | | | |]; try exact Hv.
  destruct (get root key) as [e|] eqn:E; [|exact Hv].
  destruct e; try exact Hv.
  apply isTree_mergeConfigObjects; [|exact Hv].
  apply (isTree_get root key); assumption.
Qed.

Lemma isTree_snoc (values : list ConfigValue) (v : ConfigValue) :
  isTree (Array values) -> isTree v -> isTree (Array (values ++ [v])).
Proof.
  intros Ha Hv. inversion Ha as [|? Hall|? Hc _]; subst; [|discriminate].
  constructor. intros w Hin. apply in_app_or in Hin.
  destruct Hin as [Hin|[<-|[]]]; auto.
Qed.

Lemma isTree_nil : isTree (Array []).
Proof. constructor. intros v []. Qed.

Section ExtractorFacts.

Context {T : Type} {scannerOps : Scanner T} {platform : Platform}.

Lemma substitutionLoop_tree (fuel : nat) :
  forall (optional : bool) (pathBuilder previousToken : string) (s s' : T)
         (v : ConfigValue),
    substitutionLoop fuel optional pathBuilder previousToken s = Ok (v, s') ->
    isTree v.
Proof.
  induction fuel as [|fuel IH]; intros optional pathBuilder previousToken
    s s' v; simpl; [discriminate|].
  destruct (_ && _); [discriminate|].
  destruct (String.eqb (TokenText (scan s)) objectEndToken).
  - destruct (String.eqb previousToken dotToken); [discriminate|].
    intros [= <- _]. apply isTree_leaf; reflexivity.
  - destruct (forbiddenCharacters _); [discriminate|]. apply IH.
Qed.

Lemma extractSubstitution_tree (fuel : nat) (s s' : T) (v : ConfigValue) :
  extractSubstitution fuel s = Ok (v, s') -> isTree v.
Proof.
  unfold extractSubstitution.
  destruct (String.eqb (TokenText (scan (scan s))) "?").
  - destruct (String.eqb _ objectEndToken); [discriminate|].
    destruct (String.eqb _ dotToken); [discriminate|].
    destruct (Z.eqb _ _); [discriminate|]. apply substitutionLoop_tree.
  - destruct (String.eqb _ objectEndToken); [discriminate|].
    destruct (String.eqb _ dotToken); [discriminate|].
    destruct (Z.eqb _ _); [discriminate|]. apply substitutionLoop_tree.
Qed.

Ltac bind_case H root s E :=
  match type of H with
  | bind ?r _ = _ => destruct r as [[root s]| |] eqn:E; simpl in H;
                     try discriminate H
  end.

Local Opaque forbiddenCharacters String.eqb isSeparator.

Lemma extractor_builds_trees (fuel : nat) : ExtractsTrees fuel.
Proof.
  induction fuel as [|fuel IH].
  - repeat split; intros; discriminate.
  - destruct IH as (IHobj & IHloop & IHplus & IHinc & IHarr & IHaloop & IHval).
    repeat apply conj.
    + intros s s' items. simpl.
      destruct (String.eqb (TokenText s) objectStartToken).
      * destruct (String.eqb _ objectEndToken).
        -- intros [= <- _]. apply isTree_empty.
        -- apply IHloop, isTree_empty.
      * apply IHloop, isTree_empty.
    + intros root balanced s s' items Hroot H.
      simpl in H.
      destruct (Z.eqb (Peek s) scanner.EOF).
      { unfold finishObject in H. destruct (negb balanced); [discriminate|].
        injection H as <- _. exact Hroot. }
      bind_case H root0 s0 E1.
      assert (H0 : isTree (Object root0)).
      { destruct (String.eqb (TokenText s) includeToken).
        - bind_case E1 inc s1 Einc. injection E1 as <- _.
          apply isTree_mergeConfigObjects; eauto.
        - injection E1 as <- _. exact Hroot. }
      clear E1.
      destruct (forbiddenCharacters (TokenText s0)); [discriminate|].
      destruct (String.eqb (TokenText s0) dotToken); [discriminate|].
      bind_case H root1 s1 E2.
      assert (H1 : isTree (Object root1)).
      { destruct (_ || _).
        - match type of E2 with
          | bind ?r _ = _ => destruct r as [s1'| |] eqn:Es; simpl in E2;
                             try discriminate E2
          end.
          bind_case E2 obj s2 Eobj. injection E2 as <- _.
          apply isTree_set; eauto.
        - injection E2 as <- _. exact H0. }
      clear E2.
      bind_case H root2 s2 E3.
      assert (H2 : isTree (Object root2)).
      { destruct (_ || _).
        - destruct (Scan s1) as [currentRune s2'].
          bind_case E3 v s3 Ev. injection E3 as <- _.
          apply isTree_assignValue; eauto.
        - destruct (String.eqb (TokenText (scan s0)) "+").
          + destruct (Z.eqb (Peek s1) (rune_of "=")).
            * destruct (Scan (scan s1)) as [currentRune s2'].
              eapply IHplus; eauto.
            * injection E3 as <- _. exact H1.
          + injection E3 as <- _. exact H1. }
      clear E3.
      destruct (negb balanced && _).
      * unfold finishObject in H. simpl in H. injection H as <- _. exact H2.
      * eapply IHloop; eauto.
    + intros existingItems key currentRune s s' items Hex H. simpl in H.
      destruct (get existingItems key) as [existing|] eqn:Eget.
      * destruct existing; try discriminate.
        bind_case H v s1 Ev. injection H as <- _.
        apply isTree_set; [exact Hex|].
        apply isTree_snoc; [eapply isTree_get; eauto|eauto].
      * bind_case H v s1 Ev. injection H as <- _.
        apply isTree_set; [exact Hex|].
        apply (isTree_snoc []); [apply isTree_nil|eauto].
    + intros s s' items H. simpl in H.
      bind_case H token s1 Ev.
      destruct (os_Open (includePath token)).
      * destruct (String.eqb _ arrayStartToken); [discriminate|].
        bind_case H obj s2 Eobj. injection H as <- _. eauto.
      * destruct (negb (includeRequired token)); [|discriminate].
        injection H as <- _. apply isTree_empty.
      * discriminate.
    + intros s s' values H. simpl in H.
      destruct (negb _); [discriminate|].
      destruct (Scan s) as [currentRune s1].
      destruct (String.eqb _ arrayEndToken).
      * injection H as <- _. apply isTree_nil.
      * eapply IHaloop; [apply isTree_nil|eauto].
    + intros values currentRune s s' values' Hvalues H. simpl in H.
      destruct (Z.eqb (Peek s) scanner.EOF); [discriminate|].
      bind_case H v s1 Ev.
      assert (Hsnoc : isTree (Array (values ++ [v])))
        by (apply isTree_snoc; eauto).
      destruct (String.eqb (TokenText s1) commaToken).
      * destruct (Scan s1) as [currentRune' s2].
        destruct (String.eqb _ arrayEndToken).
        -- injection H as <- _. exact Hsnoc.
        -- eapply IHaloop; eauto.
      * destruct (String.eqb _ arrayEndToken).
        -- injection H as <- _. exact Hsnoc.
        -- eapply IHaloop; eauto.
    + intros currentRune s s' v H. simpl in H.
      destruct (Z.eqb currentRune scanner.Int).
      { destruct (Atoi (TokenText s)); [|discriminate].
        injection H as <- _. apply isTree_leaf; reflexivity. }
      destruct (Z.eqb currentRune scanner.Float).
      { destruct (ParseFloat32 (TokenText s)); [|discriminate].
        injection H as <- _. apply isTree_leaf; reflexivity. }
      destruct (Z.eqb currentRune scanner.String).
      { injection H as <- _. apply isTree_leaf; reflexivity. }
      destruct (Z.eqb currentRune scanner.Ident).
      { destruct (String.eqb (TokenText s) "null").
        - injection H as <- _. apply isTree_leaf; reflexivity.
        - destruct (isBooleanString (TokenText s)); [|discriminate].
          injection H as <- _. apply isTree_leaf; reflexivity. }
      destruct (String.eqb (TokenText s) objectStartToken).
      { bind_case H obj s1 Eobj. injection H as <- _. eauto. }
      destruct (String.eqb (TokenText s) arrayStartToken).
      { bind_case H arr s1 Earr. injection H as <- _. eauto. }
      destruct (isSubstitution (TokenText s) (Peek s)); [|discriminate].
      eapply extractSubstitution_tree; eauto.
Qed.

Local Transparent forbiddenCharacters String.eqb isSeparator.

End ExtractorFacts.

(** ** Accepted documents *)




(** For the string token of [escapedQuoteLiteral], whose body is [x], an
    escaped quote and [y], value extraction yields [x\y], which is not the
    token text between its surrounding quotes. *)
Lemma interior_quote_removed :
  let s := Nat.iter 2 scan (@Init _ textScanner ("a = " ++ escapedQuoteLiteral)) in
  fst (Scan s) = scanner.String
  /\ TokenText (scan s) = escapedQuoteLiteral
  /\ @extractConfigValue _ textScanner noFiles 1 scanner.String (scan s) =
     Ok (String "x\y", scan (scan s))
  /\ String "x\y" <>
     String (substring 1 (String.length escapedQuoteLiteral - 2)
               escapedQuoteLiteral).
Proof.
  repeat apply conj; try (vm_compute; reflexivity).
  vm_compute. discriminate.
Qed.

(** The key of the document [quoted a$b = 1] holds the forbidden
    characters [$] and the double quote, and the document is accepted. *)
Lemma quoted_key_with_forbidden_character :
  @ParseString _ textScanner noFiles 40 (quoted "a$b" ++ " = 1") =
  Ok (mkConfig (Object [(quoted "a$b", Int 1)]))
  /\ existsb (fun c => forbiddenCharacters (String.String c EmptyString))
       (list_ascii_of_string (quoted "a$b")) = true.
Proof. split; vm_compute; reflexivity. Qed.

(** ** Instances of the conditional statements *)



Lemma duplicate_object_key_replaced_witness :
  let doc := "{a {x:1}, a {y:2}}" in
  @objectLoop _ textScanner noFiles 6 [("a", Object [("x", Int 1)])] false
    (after 9 doc) =
  Ok ([("a", Object [("y", Int 2)])], after 16 doc).
Proof.
  intros doc.
  destruct (@duplicate_object_key_replaced noFiles 0)
    as (_ & _ & _ & _ & _ & Hloop).
  assert (Hrun := proj2 (Hloop _ textScanner 5
                           [("a", Object [("x", Int 1)])] false
                           (after 9 doc) (after 15 doc) [("y", Int 2)]
                           ltac:(vm_compute; discriminate)
                           ltac:(vm_compute; discriminate)
                           ltac:(vm_compute; reflexivity)
                           ltac:(vm_compute; discriminate)
                           ltac:(vm_compute; reflexivity)
                           ltac:(vm_compute; reflexivity))).
  rewrite Hrun. vm_compute. reflexivity.
Defined.

Lemma plus_equals_accumulates_witness :
  let s := after 5 "{a += 1}" in
  @parsePlusEqualsValue _ textScanner noFiles 2 [] "a" scanner.Int s =
  Ok (set [] "a" (Array [Int 1]), scan s)
  /\ @parsePlusEqualsValue _ textScanner noFiles 2 [("a", Array [Int 0])]
       "a" scanner.Int s =
     Ok (set [("a", Array [Int 0])] "a" (Array ([Int 0] ++ [Int 1])), scan s).
Proof.
  destruct (@plus_equals_accumulates noFiles 0) as (_ & _ & Habsent & Harray).
  split.
  - apply (Habsent _ textScanner 1); vm_compute; reflexivity.
  - apply (Harray _ textScanner 1 [("a", Array [Int 0])]); vm_compute;
      reflexivity.
Defined.

Lemma plus_equals_type_error_witness :
  @parsePlusEqualsValue _ textScanner noFiles 1 [("a", Int 1)] "a"
    scanner.Int (Init "") = Err (NotAnArray "a")
  /\ @objectLoop _ textScanner noFiles 2 [("a", Int 1)] false
       (after 6 "{a = 1, a += 2}") = Err (NotAnArray "a").
Proof.
  destruct (@plus_equals_type_error noFiles 0) as (Hvalue & Hloop & _).
  split.
  - apply (Hvalue _ textScanner 0 [("a", Int 1)] "a" (Int 1)); reflexivity.
  - change (@objectLoop _ textScanner noFiles 2 [("a", Int 1)] false
              (after 6 "{a = 1, a += 2}") =
            Err (NotAnArray (TokenText (after 6 "{a = 1, a += 2}")))).
    apply (Hloop _ textScanner 0 [("a", Int 1)] false (Int 1));
      vm_compute; try reflexivity; discriminate.
Defined.

Lemma quoted_string_value_witness : removeQuotes (quoted "b c") = "b c".
Proof.
  destruct (@quoted_string_value noFiles 0) as (_ & _ & Hbody & _).
  apply Hbody. reflexivity.
Defined.

Lemma forbidden_token_rejected_witness :
  @objectLoop _ textScanner noFiles 1 [] true (after 1 "$ = 1") =
  Err (InvalidKey "$")
  /\ @substitutionLoop _ textScanner 1 false "" "" (after 3 "${a*b}") =
     Err (InvalidKey "*").
Proof.
  destruct (@forbidden_token_rejected noFiles 0) as (Hkey & Hpath & _).
  split.
  - change (@objectLoop _ textScanner noFiles 1 [] true (after 1 "$ = 1") =
            Err (InvalidKey (TokenText (after 1 "$ = 1")))).
    apply (Hkey _ textScanner 0 [] true (after 1 "$ = 1"));
      vm_compute; try reflexivity; discriminate.
  - change (@substitutionLoop _ textScanner 1 false "" ""
              (after 3 "${a*b}") =
            Err (InvalidKey (TokenText (scan (after 3 "${a*b}"))))).
    apply (Hpath _ textScanner 0 false "" "" (after 3 "${a*b}"));
      vm_compute; try reflexivity; discriminate.
Defined.

Lemma include_missing_target_witness :
  let s := after 2 ("include " ++ quoted "nonexistent.conf") in
  @parseIncludedResource _ textScanner noFiles 1 s = Ok ([], s).
Proof.
  destruct include_missing_target as (Hmissing & _).
  apply (Hmissing _ textScanner noFiles 0 _ _
           (mkIncludeToken "nonexistent.conf" false));
    vm_compute; reflexivity.
Defined.

(** * Further properties of the parser *)

(** ** Where extracted objects and arrays end *)

Ltac bind_pair H x s E :=
  match type of H with
  | bind ?r _ = _ => destruct r as [[x s]| |] eqn:E; simpl in H;
                     try discriminate H
  end.

Section Ends.

Context {T : Type} {scannerOps : Scanner T} {platform : Platform}.

Local Opaque forbiddenCharacters String.eqb isSeparator.

Lemma objectLoop_end (fuel : nat) :
  forall (root : Items) (balanced : bool) (s s' : T) (items : Items),
    objectLoop fuel root balanced s = Ok (items, s') ->
    if balanced then Peek s' = scanner.EOF
    else rightAfter objectEndToken s'.
Proof.
  induction fuel as [|fuel IH]; intros root balanced s s' items H;
    [discriminate|].
  simpl in H.
  destruct (Z.eqb (Peek s) scanner.EOF) eqn:Epeek.
  { unfold finishObject in H. destruct balanced; simpl in H;
      [|discriminate]. injection H as _ <-. apply Z.eqb_eq. exact Epeek. }
  bind_pair H root0 s0 E1. clear E1.
  destruct (forbiddenCharacters (TokenText s0)); [discriminate|].
  destruct (String.eqb (TokenText s0) dotToken); [discriminate|].
  bind_pair H root1 s1 E2. clear E2.
  bind_pair H root2 s2 E3. clear E3.
  destruct (negb balanced && _) eqn:Eend.
  - apply andb_prop in Eend. destruct Eend as [Eb Etok].
    destruct balanced; [discriminate|].
    unfold finishObject in H. simpl in H. injection H as _ <-.
    eexists. split; [|reflexivity].
    apply String.eqb_eq. exact Etok.
  - apply IH in H. exact H.
Qed.

Local Transparent forbiddenCharacters String.eqb isSeparator.

(** An object that starts with an opening brace is returned only right
    after a closing brace has been consumed. *)
Theorem braced_object_ends_after_closing_brace (fuel : nat) (s s' : T)
    (items : Items) :
  TokenText s = objectStartToken ->
  extractConfigObject fuel s = Ok (items, s') ->
  rightAfter objectEndToken s'.
Proof.
  intros Hs H. destruct fuel as [|fuel]; [discriminate|]. simpl in H.
  rewrite Hs in H. simpl in H.
  destruct (String.eqb (TokenText (scan s)) objectEndToken) eqn:E.
  - injection H as _ <-. exists (scan s). split; [|reflexivity].
    apply String.eqb_eq. exact E.
  - apply objectLoop_end in H. exact H.
Qed.

(** An object that does not start with an opening brace (the root without
    braces, and the object nested by a dotted key) is returned only when no
    character is left after the current token. *)
Theorem unbraced_object_ends_at_end_of_input (fuel : nat) (s s' : T)
    (items : Items) :
  TokenText s <> objectStartToken ->
  extractConfigObject fuel s = Ok (items, s') ->
  Peek s' = scanner.EOF.
Proof.
  intros Hs H. destruct fuel as [|fuel]; [discriminate|]. simpl in H.
  apply String.eqb_neq in Hs. rewrite Hs in H.
  apply objectLoop_end in H. exact H.
Qed.

Lemma arrayLoop_end (fuel : nat) :
  forall (values : list ConfigValue) (currentRune : rune) (s s' : T)
         (values' : list ConfigValue),
    arrayLoop fuel values currentRune s = Ok (values', s') ->
    rightAfter arrayEndToken s'.
Proof.
  induction fuel as [|fuel IH]; intros values currentRune s s' values' H;
    [discriminate|].
  simpl in H.
  destruct (Z.eqb (Peek s) scanner.EOF); [discriminate|].
  bind_pair H v s1 Ev. clear Ev.
  destruct (String.eqb (TokenText s1) commaToken).
  - destruct (Scan s1) as [currentRune' s2] eqn:Escan.
    destruct (String.eqb (TokenText s2) arrayEndToken) eqn:E.
    + injection H as _ <-. exists s2. split; [|reflexivity].
      apply String.eqb_eq. exact E.
    + apply IH in H. exact H.
  - destruct (String.eqb (TokenText s1) arrayEndToken) eqn:E.
    + injection H as _ <-. exists s1. split; [|reflexivity].
      apply String.eqb_eq. exact E.
    + apply IH in H. exact H.
Qed.

(** An array is returned only right after a closing bracket has been
    consumed, and only from an opening bracket. *)
Theorem array_ends_after_closing_bracket (fuel : nat) (s s' : T)
    (values : list ConfigValue) :
  extractConfigArray fuel s = Ok (values, s') ->
  TokenText s = arrayStartToken /\ rightAfter arrayEndToken s'.
Proof.
  intros H. destruct fuel as [|fuel]; [discriminate|]. simpl in H.
  destruct (String.eqb (TokenText s) arrayStartToken) eqn:Es; simpl in H;
    [|discriminate].
  split; [apply String.eqb_eq; exact Es|].
  destruct (Scan s) as [currentRune s1] eqn:Escan.
  destruct (String.eqb (TokenText s1) arrayEndToken) eqn:E.
  - injection H as _ <-. exists s1. split; [|reflexivity].
    apply String.eqb_eq. exact E.
  - apply arrayLoop_end in H. exact H.
Qed.

End Ends.

Lemma braced_object_ends_after_closing_brace_witness :
  @extractConfigObject _ textScanner noFiles 5 (after 1 "{a = 1} b") =
  Ok ([("a", Int 1)], after 6 "{a = 1} b")
  /\ rightAfter objectEndToken (after 6 "{a = 1} b").
Proof.
  split; [vm_compute; reflexivity|].
  apply (@braced_object_ends_after_closing_brace _ textScanner noFiles 5
           (after 1 "{a = 1} b") (after 6 "{a = 1} b") [("a", Int 1)]);
    vm_compute; reflexivity.
Defined.

Lemma unbraced_object_ends_at_end_of_input_witness :
  @extractConfigObject _ textScanner noFiles 5 (after 1 "a = 1, b = 2") =
  Ok ([("a", Int 1); ("b", Int 2)], after 8 "a = 1, b = 2")
  /\ Peek (after 8 "a = 1, b = 2") = scanner.EOF.
Proof.
  split; [vm_compute; reflexivity|].
  apply (@unbraced_object_ends_at_end_of_input _ textScanner noFiles 5
           (after 1 "a = 1, b = 2") (after 8 "a = 1, b = 2")
           [("a", Int 1); ("b", Int 2)]);
    [vm_compute; discriminate|vm_compute; reflexivity].
Defined.

Lemma array_ends_after_closing_bracket_witness :
  @extractConfigArray _ textScanner noFiles 5 (after 1 "[1, 2] b") =
  Ok ([Int 1; Int 2], after 6 "[1, 2] b")
  /\ TokenText (after 1 "[1, 2] b") = arrayStartToken
  /\ rightAfter arrayEndToken (after 6 "[1, 2] b").
Proof.
  split; [vm_compute; reflexivity|].
  apply (@array_ends_after_closing_bracket _ textScanner noFiles 5
           (after 1 "[1, 2] b") (after 6 "[1, 2] b") [Int 1; Int 2]).
  vm_compute. reflexivity.
Defined.

(** ** A substitution path that is not closed *)

Section Hang.

Context {T : Type} {scannerOps : Scanner T}.

Lemma substitutionLoop_exhausted (fuel : nat) :
  forall (optional : bool) (pathBuilder previousToken : string) (s : T),
    exhausted s ->
    substitutionLoop fuel optional pathBuilder previousToken s = OutOfFuel.
Proof.
  induction fuel as [|fuel IH]; intros optional pathBuilder previousToken s
    [Hscan Htok]; [reflexivity|].
  simpl. rewrite Hscan, Htok. simpl.
  rewrite andb_false_r. apply IH. split; assumption.
Qed.

(** Once the input ends inside a substitution path, the loop of
    [extractSubstitution] never exits: whatever fuel it is given, it uses
    it up.  This holds from the exhausted state and from the state of the
    last token of the input. *)
Theorem unclosed_substitution_path_never_returns (fuel : nat)
    (optional : bool) (pathBuilder previousToken : string) (s : T) :
  exhausted s \/ exhausted (scan s) ->
  substitutionLoop fuel optional pathBuilder previousToken s = OutOfFuel.
Proof.
  intros [H|H]; [apply substitutionLoop_exhausted; exact H|].
  destruct fuel as [|fuel]; [reflexivity|].
  destruct H as [Hscan Htok].
  simpl. rewrite Htok. simpl. rewrite andb_false_r.
  apply substitutionLoop_exhausted. split; assumption.
Qed.

End Hang.

Lemma unclosed_substitution_path_never_returns_witness :
  @substitutionLoop _ textScanner 50 false "" "" (after 6 "a = ${b c") =
  OutOfFuel.
Proof.
  apply unclosed_substitution_path_never_returns.
  right. split; vm_compute; reflexivity.
Defined.

(** ** Merging *)

Lemma set_get_same (items : Items) (key : string) (v : ConfigValue) :
  get items key = Some v -> set items key v = items.
Proof.
  induction items as [|[k w] rest IH]; simpl; [discriminate|].
  destruct (String.eqb k key) eqn:E.
  - intros [= ->]. reflexivity.
  - intros H. rewrite IH by exact H. reflexivity.
Qed.

Lemma mergeConfigObjects_fixed (new existingItems : Items) :
  (forall k v, In (k, v) new ->
               get existingItems k = Some v /\ mergeValue v (Some v) = v) ->
  mergeConfigObjects existingItems new = existingItems.
Proof.
  induction new as [|[k v] rest IH]; intros H; simpl; [reflexivity|].
  destruct (H k v (or_introl eq_refl)) as [Hget Hfix].
  rewrite Hget, Hfix, (set_get_same _ _ _ Hget).
  apply IH. intros k' v' Hin. apply H. right. exact Hin.
Qed.

Lemma mergeValue_same (v : ConfigValue) :
  isTree v -> mergeValue v (Some v) = v.
Proof.
  induction v as [items IHv|values IHv| | | | | | |] using ConfigValue_ind';
    intros Ht; try reflexivity.
  rewrite mergeValue_Object. f_equal.
  inversion Ht as [? Hnd Hall| |? Hc _]; subst; [|discriminate].
  apply mergeConfigObjects_fixed. intros k v Hin. split.
  - apply In_get_NoDup; assumption.
  - rewrite Forall_forall in IHv. apply (IHv (k, v) Hin).
    apply (Hall k). exact Hin.
Qed.

(** Merging an object into itself changes nothing, at any depth. *)
Theorem merge_idempotent (items : Items) :
  isTree (Object items) -> mergeConfigObjects items items = items.
Proof.
  intros Ht. apply mergeValue_same in Ht.
  rewrite mergeValue_Object in Ht. injection Ht as Ht. exact Ht.
Qed.

Lemma merge_idempotent_witness :
  let items := [("a", Object [("x", Int 1); ("y", Array [Int 2])]);
                ("b", String "s")] in
  mergeConfigObjects items items = items.
Proof.
  apply merge_idempotent.
  repeat (first [ apply isTree_leaf; reflexivity
                | apply isTree_Array; simpl; intros ? [<-|[]]
                | apply isTree_Object;
                  [repeat constructor; simpl; intuition discriminate
                  |simpl; intros ? ? [[= <- <-]|[[= <- <-]|[]]]] ]).
Defined.

Lemma In_keys_set (items : Items) (key k : string) (v : ConfigValue) :
  In k (keys (set items key v)) <-> In k (keys items) \/ k = key.
Proof.
  induction items as [|[k' w] rest IH]; simpl.
  - intuition.
  - destruct (String.eqb k' key) eqn:E; simpl.
    + apply String.eqb_eq in E. subst k'. intuition.
    + rewrite IH. intuition.
Qed.

(** The keys of a merged map are those of the existing map and those of
    the incoming one: merging drops no key and invents none. *)
Theorem merge_keys (existingItems new : Items) (k : string) :
  In k (keys (mergeConfigObjects existingItems new)) <->
  In k (keys existingItems) \/ In k (keys new).
Proof.
  revert existingItems.
  induction new as [|[key v] rest IH]; intros existingItems; simpl.
  - intuition.
  - rewrite IH, In_keys_set. intuition.
Qed.

(** ** Include directives *)

Lemma HasPrefix_quoted (body : string) :
  HasPrefix (quoted body) dquoteString = true.
Proof. unfold HasPrefix, quoted. destruct body; reflexivity. Qed.

Lemma lastChar_quoted (body : string) (c : ascii) :
  lastChar (String.String c (body ++ dquoteString)) = Some dquote.
Proof.
  revert c. induction body as [|d rest IH]; intros c; [reflexivity|].
  simpl. apply (IH d).
Qed.

Lemma HasSuffixChar_quoted (body : string) :
  HasSuffixChar (quoted body) dquote = true.
Proof.
  unfold HasSuffixChar, quoted. rewrite lastChar_quoted. reflexivity.
Qed.

Lemma length_quoted (body : string) :
  String.length (quoted body) = S (S (String.length body)).
Proof.
  unfold quoted. simpl. f_equal.
  induction body as [|c rest IH]; simpl; congruence.
Qed.

Lemma substring_quoted (body : string) :
  substring 1 (String.length (quoted body) - 2) (quoted body) = body.
Proof.
  rewrite length_quoted. unfold quoted. simpl. rewrite Nat.sub_0_r.
  induction body as [|c rest IH]; simpl; [reflexivity|]. rewrite IH.
  reflexivity.
Qed.

Lemma quoted_token_accepted (body : string) :
  negb (HasPrefix (quoted body) dquoteString)
  || negb (HasSuffixChar (quoted body) dquote)
  || (String.length (quoted body) <? 2)%nat = false.
Proof.
  rewrite HasPrefix_quoted, HasSuffixChar_quoted, length_quoted.
  reflexivity.
Qed.

Section IncludeForms.

Context {T : Type} {scannerOps : Scanner T}.

(** The forms of an include directive that [validateIncludeValue] accepts:
    a quoted path, alone or wrapped in [file(...)] or [classpath(...)],
    each optionally wrapped in [required(...)].  The path returned is the
    text between the quotes, unchanged, the flag tells whether [required]
    was there, and the scanner is left on the last token of the directive.
    A bare token that is not quoted is refused. *)
Theorem include_directive_forms (s : T) (body wrapper : string) :
  wrapper = "file" \/ wrapper = "classpath" ->
  (TokenText s = quoted body ->
   validateIncludeValue s = Ok (mkIncludeToken body false, s))
  /\ (TokenText s = wrapper -> TokenText (scan s) = "(" ->
      TokenText (Nat.iter 2 scan s) = quoted body ->
      TokenText (Nat.iter 3 scan s) = ")" ->
      validateIncludeValue s =
      Ok (mkIncludeToken body false, Nat.iter 3 scan s))
  /\ (TokenText s = "required" -> TokenText (scan s) = "(" ->
      TokenText (Nat.iter 2 scan s) = quoted body ->
      TokenText (Nat.iter 3 scan s) = ")" ->
      validateIncludeValue s =
      Ok (mkIncludeToken body true, Nat.iter 3 scan s))
  /\ (TokenText s = "required" -> TokenText (scan s) = "(" ->
      TokenText (Nat.iter 2 scan s) = wrapper ->
      TokenText (Nat.iter 3 scan s) = "(" ->
      TokenText (Nat.iter 4 scan s) = quoted body ->
      TokenText (Nat.iter 5 scan s) = ")" ->
      TokenText (Nat.iter 6 scan s) = ")" ->
      validateIncludeValue s =
      Ok (mkIncludeToken body true, Nat.iter 6 scan s))
  /\ (forall token : string,
         TokenText s = token -> token <> "required" -> token <> "file" ->
         token <> "classpath" -> HasPrefix token dquoteString = false ->
         validateIncludeValue s =
         Err (InvalidIncludeValue "expected quoted string")).
Proof.
  intros Hw.
  assert (Hwrap : String.eqb wrapper "file" || String.eqb wrapper "classpath"
                  = true)
    by (destruct Hw as [-> | ->]; reflexivity).
  assert (Hwreq : String.eqb wrapper "required" = false)
    by (destruct Hw as [-> | ->]; reflexivity).
  assert (Hqr : String.eqb (quoted body) "required" = false) by reflexivity.
  assert (Hqf : String.eqb (quoted body) "file"
                || String.eqb (quoted body) "classpath" = false)
    by reflexivity.
  pose proof (quoted_token_accepted body) as Hacc.
  pose proof (substring_quoted body) as Hsub.
  remember (quoted body) as q eqn:Eq. clear Eq.
  repeat apply conj.
  - intros H0. unfold validateIncludeValue. rewrite H0, Hqr. simpl bind.
    rewrite Hqf. simpl bind. rewrite Hacc, Hsub. reflexivity.
  - simpl. intros H0 H1 H2 H3. unfold validateIncludeValue.
    rewrite H0, Hwreq. simpl bind. rewrite Hwrap, H1, H2, H3. simpl bind.
    rewrite Hacc, Hsub. reflexivity.
  - simpl. intros H0 H1 H2 H3. unfold validateIncludeValue.
    rewrite H0, H1. simpl bind. rewrite H2, Hqf. simpl bind.
    rewrite H3. simpl bind. rewrite Hacc, Hsub. reflexivity.
  - simpl. intros H0 H1 H2 H3 H4 H5 H6. unfold validateIncludeValue.
    rewrite H0, H1. simpl bind. rewrite H2, Hwrap, H3, H4, H5. simpl bind.
    rewrite H6. simpl bind. rewrite Hacc, Hsub. reflexivity.
  - intros token H0 Hr Hf Hc Hp. unfold validateIncludeValue.
    apply String.eqb_neq in Hr, Hf, Hc.
    rewrite H0, Hr. simpl bind. rewrite Hf, Hc. simpl bind.
    rewrite Hp. reflexivity.
Qed.

End IncludeForms.

Lemma include_directive_forms_witness :
  validateIncludeValue
    (after 2 ("include required(classpath(" ++ quoted "a b.conf" ++ "))")) =
  Ok (mkIncludeToken "a b.conf" true,
      Nat.iter 6 scan
        (after 2 ("include required(classpath(" ++ quoted "a b.conf"
                  ++ "))")))
  /\ validateIncludeValue (after 2 "include base") =
     Err (InvalidIncludeValue "expected quoted string").
Proof.
  destruct (include_directive_forms
              (after 2 ("include required(classpath(" ++ quoted "a b.conf"
                        ++ "))")) "a b.conf" "classpath"
              (or_intror eq_refl)) as (_ & _ & _ & Hfull & _).
  destruct (include_directive_forms (after 2 "include base") "" "file"
              (or_introl eq_refl)) as (_ & _ & _ & _ & Hbare).
  split.
  - apply Hfull; vm_compute; reflexivity.
  - apply (Hbare "base"); try (vm_compute; reflexivity);
      vm_compute; discriminate.
Defined.

Section IncludeFailures.

Context {T : Type} {scannerOps : Scanner T} {platform : Platform}.

(** Only a missing target is skipped for an include without [required]:
    a target that cannot be opened for another reason, and a target whose
    root is an array, fail the include whether or not it is required. *)
Theorem include_failures_not_skipped (fuel : nat) (s s' : T)
    (token : IncludeToken) :
  validateIncludeValue s = Ok (token, s') ->
  (os_Open (includePath token) = OpenFailure ->
   parseIncludedResource (S fuel) s = Err CouldNotParseResource)
  /\ (forall content,
         os_Open (includePath token) = Opened content ->
         TokenText (scan (Init content)) = arrayStartToken ->
         parseIncludedResource (S fuel) s = Err IncludedArrayRoot).
Proof.
  intros Hv. split.
  - intros Ho. simpl. rewrite Hv. simpl. rewrite Ho. reflexivity.
  - intros content Ho Harr. simpl. rewrite Hv. simpl. rewrite Ho, Harr.
    reflexivity.
Qed.

End IncludeFailures.

(** A platform with one array-rooted file and one unreadable file. *)
Lemma include_failures_not_skipped_witness :
  let pf := {| os_Open := fun p => if String.eqb p "list.conf"
                                   then Opened "[1, 2]" else OpenFailure;
               ParseFloat32 := fun _ => true;
               mapRange := fun _ ks => ks;
               mapRange_permutation := fun _ ks => Permutation_refl ks |} in
  @parseIncludedResource _ textScanner pf 1
    (after 2 ("include " ++ quoted "list.conf")) = Err IncludedArrayRoot
  /\ @parseIncludedResource _ textScanner pf 1
       (after 2 ("include " ++ quoted "locked.conf")) =
     Err CouldNotParseResource.
Proof.
  intros pf. split.
  - refine (proj2 (@include_failures_not_skipped _ textScanner pf 0
                     (after 2 ("include " ++ quoted "list.conf")) _
                     (mkIncludeToken "list.conf" false) _) "[1, 2]" _ _);
      vm_compute; reflexivity.
  - refine (proj1 (@include_failures_not_skipped _ textScanner pf 0
                     (after 2 ("include " ++ quoted "locked.conf")) _
                     (mkIncludeToken "locked.conf" false) _) _);
      vm_compute; reflexivity.
Defined.

(** ** Documents without substitutions *)

Section PlainDocuments.

Context {T : Type} {scannerOps : Scanner T} {platform : Platform}.

(** The substitution pass changes nothing in a document without
    substitutions: when the extracted root object holds none and the whole
    input has been read, the parse returns the extracted object, in any
    order of the range loops, as soon as the fuel covers its depth. *)
Theorem document_without_substitutions_unchanged (fuel : nat) (p p' : T)
    (items : Items) :
  String.eqb (TokenText (scan p)) arrayStartToken = false ->
  extractConfigObject fuel (scan p) = Ok (items, p') ->
  TokenText p' = "" ->
  plain (Object items) = true ->
  2 * height (Object items) <= fuel ->
  parse fuel p = Ok (mkConfig (Object items)).
Proof.
  intros Harr Hext Htok Hp Hh. unfold parse.
  rewrite Harr, Hext. simpl. rewrite Htok. simpl.
  unfold NewConfigObject.
  rewrite (resolveSubstitutions_plain fuel (Object items) [] (Object items));
    auto.
Qed.

End PlainDocuments.

Lemma document_without_substitutions_unchanged_witness :
  @parse _ textScanner noFiles 30
    (Init "a { b = [1, { c = true }] }, d = null") =
  Ok (mkConfig
        (Object [("a", Object [("b", Array [Int 1;
                                            Object [("c", Boolean true)]])]);
                 ("d", Null)])).
Proof.
  refine (@document_without_substitutions_unchanged _ textScanner noFiles 30
            (Init "a { b = [1, { c = true }] }, d = null") _ _ _ _ _ _ _).
  - vm_compute. reflexivity.
  - vm_compute. reflexivity.
  - reflexivity.
  - reflexivity.
  - vm_compute. lia.
Defined.

(** ** What the substitution pass computes *)

Lemma items_determined (F : ConfigValue -> ConfigValue) (items0 : Items) :
  forall items : Items,
    keys items = keys items0 -> NoDup (keys items0) ->
    (forall k v0 v, In (k, v0) items0 -> get items k = Some v -> v = F v0) ->
    items = map (fun kv => (fst kv, F (snd kv))) items0.
Proof.
  induction items0 as [|[k v0] rest0 IH]; intros [|[k' v] rest] Hk Hnd Hp;
    simpl in Hk; try discriminate; [reflexivity|].
  injection Hk as -> Hk. simpl.
  inversion Hnd as [|? ? Hnotin Hnd']; subst.
  f_equal.
  - f_equal. apply (Hp k); [left; reflexivity|].
    simpl. rewrite String.eqb_refl. reflexivity.
  - apply IH; auto. intros k1 w0 w Hin Hget.
    apply (Hp k1); [right; exact Hin|].
    simpl. destruct (String.eqb k k1) eqn:E; [|exact Hget].
    apply String.eqb_eq in E. subst k1. exfalso. apply Hnotin.
    apply in_map_iff. exists (k, w0). auto.
Qed.

Lemma values_determined (F : ConfigValue -> ConfigValue)
    (values0 : list ConfigValue) :
  forall values : list ConfigValue,
    length values = length values0 ->
    (forall i v0 v, nth_error values0 i = Some v0 ->
                    nth_error values i = Some v -> v = F v0) ->
    values = map F values0.
Proof.
  induction values0 as [|v0 rest0 IH]; intros [|v rest] Hl Hp;
    simpl in Hl; try discriminate; [reflexivity|].
  simpl. f_equal.
  - apply (Hp 0); reflexivity.
  - apply IH; [lia|]. intros i w0 w H0 H1. apply (Hp (S i)); assumption.
Qed.

Section PassResult.

Context {platform : Platform}.

Variable t0 : ConfigValue.

Lemma evolved_settled_determined (v0 : ConfigValue) :
  forall v : ConfigValue,
    isTree v0 -> evolves t0 v0 v -> settled t0 v = true ->
    v = resolveAll t0 v0.
Proof.
  induction v0 as [items0 IHv|values0 IHv| | | | | |path optional|target]
    using ConfigValue_ind'; intros v Ht Hev Hset.
  - assert (Hs := evolves_container_inv t0 _ _ Hev eq_refl).
    destruct v as [items| | | | | | | |]; simpl in Hs; try tauto.
    inversion Ht as [? Hnd Hall| |? Hc _]; subst; [|discriminate].
    simpl. f_equal.
    apply items_determined; auto.
    intros k w0 w Hin Hget. rewrite Forall_forall in IHv.
    apply (IHv (k, w0) Hin).
    + apply (Hall k). exact Hin.
    + destruct (evolves_step t0 _ _ (Key k) w0 Hev) as [w' [Hw' Hevw]].
      { simpl. rewrite (In_get_NoDup _ _ _ Hnd Hin). reflexivity. }
      simpl in Hw'. rewrite Hget in Hw'. injection Hw' as <-. exact Hevw.
    + apply (forallSubst_step _ (Object items) (Key k)); [exact Hset|].
      simpl. rewrite Hget. reflexivity.
  - assert (Hs := evolves_container_inv t0 _ _ Hev eq_refl).
    destruct v as [|values| | | | | | |]; simpl in Hs; try tauto.
    inversion Ht as [|? Hall|? Hc _]; subst; [|discriminate].
    simpl. f_equal.
    apply values_determined; auto.
    intros i w0 w H0 H1. rewrite Forall_forall in IHv.
    apply (IHv w0 (nth_error_In _ _ H0)).
    + apply Hall. eapply nth_error_In; eauto.
    + destruct (evolves_step t0 _ _ (Idx i) w0 Hev) as [w' [Hw' Hevw]].
      { simpl. rewrite H0. reflexivity. }
      simpl in Hw'. rewrite H1 in Hw'. injection Hw' as <-. exact Hevw.
    + apply (forallSubst_step _ (Array values) (Idx i)); [exact Hset|].
      simpl. rewrite H1. reflexivity.
  - inversion Hev as [w|c0 c Hs Hp|]; subst; [reflexivity|destruct Hs].
  - inversion Hev as [w|c0 c Hs Hp|]; subst; [reflexivity|destruct Hs].
  - inversion Hev as [w|c0 c Hs Hp|]; subst; [reflexivity|destruct Hs].
  - inversion Hev as [w|c0 c Hs Hp|]; subst; [reflexivity|destruct Hs].
  - inversion Hev as [w|c0 c Hs Hp|]; subst; [reflexivity|destruct Hs].
  - inversion Hev as [w|c0 c Hs Hp|p o f Hf Hn]; subst.
    + unfold settled, settledTest in Hset. simpl in Hset.
      simpl. destruct (find t0 path); [|reflexivity].
      rewrite andb_false_r in Hset. discriminate.
    + destruct Hs.
    + simpl. rewrite Hf. reflexivity.
  - inversion Hev as [w|c0 c Hs Hp|]; subst; [reflexivity|destruct Hs].
Qed.

Lemma evolved_settled_requiredFound (v0 : ConfigValue) :
  forall v : ConfigValue,
    isTree v0 -> evolves t0 v0 v -> settled t0 v = true ->
    requiredFound t0 v0 = true.
Proof.
  induction v0 as [items0 IHv|values0 IHv| | | | | |path optional|target]
    using ConfigValue_ind'; intros v Ht Hev Hset; try reflexivity.
  - inversion Ht as [? Hnd Hall| |? Hc _]; subst; [|discriminate].
    unfold requiredFound. simpl. apply forallb_forall. intros [k w0] Hin.
    rewrite Forall_forall in IHv.
    destruct (evolves_step t0 _ _ (Key k) w0 Hev) as [w [Hw Hevw]].
    { simpl. rewrite (In_get_NoDup _ _ _ Hnd Hin). reflexivity. }
    apply (IHv (k, w0) Hin w); auto.
    + apply (Hall k). exact Hin.
    + eapply forallSubst_step; eauto.
  - inversion Ht as [|? Hall|? Hc _]; subst; [|discriminate].
    unfold requiredFound. simpl. apply forallb_forall. intros w0 Hin.
    rewrite Forall_forall in IHv.
    destruct (In_nth_error _ _ Hin) as [i Hi].
    destruct (evolves_step t0 _ _ (Idx i) w0 Hev) as [w [Hw Hevw]].
    { simpl. rewrite Hi. reflexivity. }
    apply (IHv w0 Hin w); auto.
    eapply forallSubst_step; eauto.
  - unfold requiredFound. simpl.
    inversion Hev as [w|c0 c Hs Hp|p o f Hf Hn]; subst.
    + unfold settled, settledTest in Hset. simpl in Hset.
      destruct optional; [reflexivity|discriminate].
    + destruct Hs.
    + rewrite Hf. simpl. apply orb_true_r.
Qed.

Hypothesis t0_tree : isTree t0.
Hypothesis t0_chainFree : chainFree t0 = true.

Lemma pass_result (fuel : nat) (r' : ConfigValue) :
  resolveSubstitutions fuel t0 [] = Ok r' ->
  r' = resolveAll t0 t0 /\ requiredFound t0 t0 = true.
Proof.
  intros Hrun.
  destruct (resolveSubstitutions_sound t0 t0_tree t0_chainFree fuel t0 r' []
              t0 eq_refl eq_refl (evolves_refl t0 t0) Hrun)
    as [s' [-> [Hev Hset]]].
  simpl. split.
  - apply evolved_settled_determined; assumption.
  - eapply evolved_settled_requiredFound; eauto.
Qed.

End PassResult.

Section PassTermination.

Context {platform : Platform}.

Variable t0 : ConfigValue.
Hypothesis t0_tree : isTree t0.
Hypothesis t0_chainFree : chainFree t0 = true.

Lemma requiredFound_child (s0 : ConfigValue) (st : step) (v0 : ConfigValue) :
  lookupAddr s0 [st] = Some v0 -> requiredFound t0 v0 = false ->
  requiredFound t0 s0 = false.
Proof.
  intros Hl Hv. destruct (requiredFound t0 s0) eqn:E; [|reflexivity].
  unfold requiredFound in *.
  rewrite (forallSubst_step _ _ _ _ E Hl) in Hv. discriminate.
Qed.

Lemma height_child (s0 : ConfigValue) (st : step) (v0 : ConfigValue) :
  lookupAddr s0 [st] = Some v0 -> height v0 < height s0.
Proof.
  destruct st as [k|i], s0; simpl; try discriminate.
  - destruct (get items k) as [w|] eqn:E; [|discriminate]. intros [= <-].
    apply (height_item items k). apply get_Some_In. exact E.
  - destruct (nth_error values i) as [w|] eqn:E; [|discriminate].
    intros [= <-]. apply (height_value values). eapply nth_error_In; eauto.
Qed.

Lemma visit_terminates (fuel : nat) :
  (forall f, f < fuel -> Terminates t0 f) ->
  forall (a : addr) (s0 rbase c : ConfigValue) (st : step)
         (todo : list step) (v0 : ConfigValue),
    lookupAddr t0 a = Some s0 -> lookupAddr rbase a = Some s0 ->
    evolves t0 t0 rbase ->
    LoopInv t0 s0 (st :: todo) c ->
    lookupAddr s0 [st] = Some v0 ->
    2 * height s0 <= S fuel ->
    (exists r1, visit fuel a st (updateAt rbase a (fun _ => c)) = Ok r1)
    \/ (exists path,
           visit fuel a st (updateAt rbase a (fun _ => c)) =
           Err (UnresolvedSubstitution path)
           /\ find t0 path = None /\ requiredFound t0 s0 = false).
Proof.
  intros IH a s0 rbase c st todo v0 H0 Hb Heb Hinv Hv0 Hfuel.
  set (r := updateAt rbase a (fun _ => c)) in *.
  assert (Hr : lookupAddr r a = Some c)
    by (apply (lookupAddr_updateAt _ _ _ _ Hb)).
  assert (Her : evolves t0 t0 r).
  { apply (evolves_updateAt t0 a t0 rbase s0 s0); auto.
    eapply LoopInv_evolves; eauto. }
  assert (Hc : lookupAddr c [st] = Some v0).
  { destruct Hinv as [_ Hp]. destruct (Hp st v0 Hv0) as [v [Hv [Hin _]]].
    rewrite (Hin (or_introl eq_refl)) in Hv. exact Hv. }
  assert (Hr1 : lookupAddr r (a ++ [st]) = Some v0)
    by (rewrite lookupAddr_app, Hr; exact Hc).
  assert (Ht1 : lookupAddr t0 (a ++ [st]) = Some v0)
    by (rewrite lookupAddr_app, H0; exact Hv0).
  assert (Htree : isTree v0) by (eapply isTree_lookup; eauto).
  assert (Hh := height_child _ _ _ Hv0).
  destruct fuel as [|f]; [lia|].
  unfold visit. rewrite Hr1. simpl.
  assert (Hsub : isContainer v0 = true ->
            (exists r1, resolveSubstitutions f r (a ++ [st]) = Ok r1)
            \/ (exists path,
                   resolveSubstitutions f r (a ++ [st]) =
                   Err (UnresolvedSubstitution path)
                   /\ find t0 path = None /\ requiredFound t0 s0 = false)).
  { intros Hcont.
    destruct (IH f (Nat.lt_succ_diag_r f) r (a ++ [st]) v0 Ht1 Hr1 Her Hcont
                ltac:(lia)) as [Hok|[path [He [Hf Hreq]]]]; [left; exact Hok|].
    right. exists path. repeat split; auto.
    eapply requiredFound_child; eauto. }
  destruct v0 as [items|values|x|x|x|x| |path optional|target]; simpl.
  - apply Hsub. reflexivity.
  - apply Hsub. reflexivity.
  - left. eauto.
  - left. eauto.
  - left. eauto.
  - left. eauto.
  - left. eauto.
  - assert (Hstable : stable t0 path = true).
    { apply (forallSubst_lookup _ _ _ _ t0_chainFree Ht1). }
    rewrite (find_stable t0 r path Her Hstable).
    destruct (find t0 path) as [found|] eqn:Efind; [left; eauto|].
    destruct optional; simpl; [left; eauto|].
    right. exists path. repeat split; auto.
    apply (requiredFound_child s0 st (Substitution path false)); auto.
    unfold requiredFound. simpl. rewrite Efind. reflexivity.
  - inversion Htree; discriminate.
Qed.

Lemma visits_terminate (fuel : nat) :
  (forall f, f < fuel -> Terminates t0 f) ->
  forall (a : addr) (s0 rbase : ConfigValue),
    lookupAddr t0 a = Some s0 -> lookupAddr rbase a = Some s0 ->
    evolves t0 t0 rbase -> 2 * height s0 <= S fuel ->
    forall (todo : list step) (c : ConfigValue),
      NoDup todo ->
      (forall st, In st todo -> lookupAddr s0 [st] <> None) ->
      LoopInv t0 s0 todo c ->
      (exists r', forEach todo (visit fuel a)
                    (updateAt rbase a (fun _ => c)) = Ok r')
      \/ (exists path,
             forEach todo (visit fuel a) (updateAt rbase a (fun _ => c)) =
             Err (UnresolvedSubstitution path)
             /\ find t0 path = None /\ requiredFound t0 s0 = false).
Proof.
  intros IH a s0 rbase H0 Hb Heb Hfuel todo.
  induction todo as [|st todo IHtodo]; intros c Hnd Hex Hinv.
  - left. simpl. eauto.
  - inversion Hnd as [|? ? Hnotin Hnd']; subst.
    destruct (lookupAddr s0 [st]) as [v0|] eqn:Hv0;
      [|exfalso; apply (Hex st (or_introl eq_refl)); exact Hv0].
    simpl.
    destruct (visit_terminates fuel IH a s0 rbase c st todo v0
                H0 Hb Heb Hinv Hv0 Hfuel) as [[r1 Hr1]|[path [He Hrest]]].
    + rewrite Hr1. simpl.
      destruct (visit_sound t0 t0_tree t0_chainFree fuel
                  (fun f _ => resolveSubstitutions_sound t0 t0_tree
                                t0_chainFree f)
                  a s0 rbase c r1 st todo v0 H0 Hb Heb Hinv Hnotin Hv0 Hr1)
        as [c1 [-> Hinv1]].
      apply IHtodo; auto.
      intros st' Hin. apply Hex. right. exact Hin.
    + right. exists path. rewrite He. simpl. auto.
Qed.

Lemma resolveSubstitutions_terminates (fuel : nat) : Terminates t0 fuel.
Proof.
  induction fuel as [fuel IH] using lt_wf_ind.
  intros r a s0 H0 Hr Her Hc Hfuel.
  destruct fuel as [|f]; [destruct s0; simpl in *; try discriminate; lia|].
  rewrite resolveSubstitutions_visits, Hr.
  assert (IH' : forall f', f' < f -> Terminates t0 f')
    by (intros f' Hlt; apply IH; lia).
  assert (Ht : isTree s0) by (eapply isTree_lookup; eauto).
  assert (Hloop : forall todo,
             NoDup todo ->
             (forall st, In st todo -> lookupAddr s0 [st] <> None) ->
             (forall st v0, lookupAddr s0 [st] = Some v0 -> In st todo) ->
             (exists r', forEach todo (visit f a) r = Ok r')
             \/ (exists path,
                    forEach todo (visit f a) r =
                    Err (UnresolvedSubstitution path)
                    /\ find t0 path = None /\ requiredFound t0 s0 = false)).
  { intros todo Hnd Hex Hcover.
    rewrite <- (updateAt_same a r s0 Hr).
    apply (visits_terminate f IH' a s0 r H0 Hr Her Hfuel todo s0 Hnd Hex).
    apply LoopInv_start; assumption. }
  destruct s0 as [items|values| | | | | | |]; try discriminate.
  - inversion Ht as [? Hnd _| |? Hc' _]; subst; [|discriminate].
    apply Hloop.
    + apply NoDup_map_injective; [intros x y [= ->]; reflexivity|].
      eapply Permutation_NoDup;
        [apply Permutation_sym, mapRange_permutation|exact Hnd].
    + intros st Hin. apply in_map_iff in Hin.
      destruct Hin as [k [<- Hin]]. apply mapRange_In in Hin.
      destruct (get_In _ _ Hin) as [v [Hv _]]. simpl. rewrite Hv. discriminate.
    + intros [k|i] v0; simpl; [|discriminate].
      destruct (get items k) as [w|] eqn:E; [|discriminate]. intros _.
      apply in_map.
      eapply Permutation_in;
        [apply Permutation_sym, mapRange_permutation|].
      apply in_map_iff. exists (k, w). split; [reflexivity|].
      apply get_Some_In. exact E.
  - apply Hloop.
    + apply NoDup_map_injective; [intros x y [= ->]; reflexivity|].
      apply seq_NoDup.
    + intros st Hin. apply in_map_iff in Hin.
      destruct Hin as [i [<- Hin]]. apply in_seq in Hin. simpl.
      destruct (nth_error values i) eqn:E; [discriminate|].
      apply nth_error_None in E. lia.
    + intros [k|i] v0; simpl; [discriminate|].
      destruct (nth_error values i) as [w|] eqn:E; [|discriminate]. intros _.
      apply in_map. apply in_seq.
      assert (i < length values) by (apply nth_error_Some; congruence). lia.
Qed.

End PassTermination.

(** For the tree extracted from a document, when no path of its
    substitutions leads to or through a substitution, a store returned by
    the substitution pass is the extracted tree in which every substitution
    has been replaced by the value found at its path in the extracted tree
    (a container by a pointer to it) and a substitution whose path is not
    found is left; every substitution that is left is optional.  The
    returned store is therefore the same for every order of the range
    loops and for every fuel. *)
Theorem pass_replaces_substitutions_by_lookups
    (T : Type) (sc : Scanner T) (pf0 pf : Platform)
    (fuel0 fuel : nat) (s s' : T) (items : Items) (r' : ConfigValue) :
  @extractConfigObject T sc pf0 fuel0 s = Ok (items, s') ->
  chainFree (Object items) = true ->
  @resolveSubstitutions pf fuel (Object items) [] = Ok r' ->
  r' = resolveAll (Object items) (Object items)
  /\ requiredFound (Object items) (Object items) = true.
Proof.
  intros Hext Hchain Hrun.
  apply (pass_result (platform := pf) (Object items)) with (fuel := fuel);
    auto.
  destruct (@extractor_builds_trees T sc pf0 fuel0) as [Hobj _].
  eapply Hobj; eauto.
Qed.

Lemma pass_replaces_substitutions_by_lookups_witness :
  @resolveSubstitutions noFiles 20 sharingTree [] =
  Ok (resolveAll sharingTree sharingTree)
  /\ resolveAll sharingTree sharingTree =
     Object [("a", Alias [Key "b"]);
             ("b", Array [Int 1; Substitution "d" true]);
             ("c", Int 1);
             ("e", Object [("f", Alias [Key "b"]); ("g", Int 2);
                           ("h", Int 2)])].
Proof.
  split; [|vm_compute; reflexivity].
  destruct (@resolveSubstitutions noFiles 20 sharingTree []) as [r'| |] eqn:E;
    [|vm_compute in E; discriminate E|vm_compute in E; discriminate E].
  f_equal.
  refine (proj1 (pass_replaces_substitutions_by_lookups _ textScanner noFiles
                   noFiles 30 20 (after 1 sharingDocument) _ _ r' _ _ E)).
  - vm_compute. reflexivity.
  - vm_compute. reflexivity.
Defined.

(** For an object-rooted document read to its end, in whose extracted tree
    no path of a substitution leads to or through a substitution, and with
    fuel for the depth of the tree, the parse is decided by the extracted
    tree alone: when every required substitution has a path that is found,
    it returns the tree with every found substitution replaced; otherwise
    it fails with the unresolved-substitution error for a path that is not
    found.  It never runs out of fuel in the pass and never reports the
    resolution-type error. *)
Theorem parse_of_document_without_chains
    (T : Type) (sc : Scanner T) (pf : Platform)
    (fuel : nat) (p p' : T) (items : Items) :
  String.eqb (TokenText (scan p)) arrayStartToken = false ->
  extractConfigObject fuel (scan p) = Ok (items, p') ->
  TokenText p' = "" ->
  chainFree (Object items) = true ->
  2 * height (Object items) <= fuel ->
  (requiredFound (Object items) (Object items) = true ->
   parse fuel p = Ok (mkConfig (resolveAll (Object items) (Object items))))
  /\ (requiredFound (Object items) (Object items) = false ->
      exists path,
        parse fuel p = Err (UnresolvedSubstitution path)
        /\ find (Object items) path = None).
Proof.
  intros Harr Hext Htok Hchain Hfuel.
  assert (Htree : isTree (Object items)).
  { destruct (@extractor_builds_trees T sc pf fuel) as [Hobj _].
    eapply Hobj; eauto. }
  assert (Hparse : parse fuel p =
                   bind (resolveSubstitutions fuel (Object items) [])
                     (fun r => Ok (mkConfig r))).
  { unfold parse. rewrite Harr, Hext. simpl. rewrite Htok. reflexivity. }
  rewrite Hparse.
  destruct (resolveSubstitutions_terminates (Object items) Htree Hchain fuel
              (Object items) [] (Object items) eq_refl eq_refl
              (evolves_refl _ _) eq_refl Hfuel)
    as [[r' Hok]|[path [He [Hf Hreq]]]].
  - destruct (pass_result (Object items) Htree Hchain fuel r' Hok)
      as [-> Hfound].
    rewrite Hok. simpl. split; [reflexivity|].
    intros Hnot. rewrite Hfound in Hnot. discriminate.
  - rewrite He. simpl. split.
    + intros Hfound. rewrite Hfound in Hreq. discriminate.
    + intros _. exists path. auto.
Qed.

Lemma parse_of_document_without_chains_witness :
  @parse _ textScanner noFiles 30 (Init sharingDocument) =
  Ok (mkConfig (resolveAll sharingTree sharingTree))
  /\ exists path,
       @parse _ textScanner noFiles 30 (Init unresolvedDocument) =
       Err (UnresolvedSubstitution path)
       /\ find (Object unresolvedItems) path = None.
Proof.
  split.
  - refine (proj1 (parse_of_document_without_chains _ textScanner noFiles 30
                     (Init sharingDocument) _ sharingItems _ _ _ _ _) _);
      try (vm_compute; reflexivity).
    vm_compute. lia.
  - refine (proj2 (parse_of_document_without_chains _ textScanner noFiles 30
                     (Init unresolvedDocument) _ unresolvedItems
                     _ _ _ _ _) _);
      try (vm_compute; reflexivity).
    vm_compute. lia.
Defined.

(** ** What value extraction returns *)

Section Values.

Context {T : Type} {scannerOps : Scanner T} {platform : Platform}.

Lemma append_assoc_string (a b c : string) :
  ((a ++ b) ++ c)%string = (a ++ b ++ c)%string.
Proof. induction a as [|x a IH]; simpl; congruence. Qed.

Lemma substitutionLoop_result (fuel : nat) :
  forall (optional : bool) (pathBuilder previousToken : string) (s s' : T)
         (v : ConfigValue),
    substitutionLoop fuel optional pathBuilder previousToken s = Ok (v, s') ->
    exists rest,
      v = Substitution (pathBuilder ++ TokenText s ++ rest) optional
      /\ rightAfter objectEndToken s'.
Proof.
  induction fuel as [|fuel IH]; intros optional pathBuilder previousToken
    s s' v; simpl; [discriminate|].
  destruct (_ && _); [discriminate|].
  destruct (String.eqb (TokenText (scan s)) objectEndToken) eqn:Eend.
  - destruct (String.eqb previousToken dotToken); [discriminate|].
    intros [= <- <-]. exists "". split.
    + rewrite <- append_assoc_string.
      replace ((pathBuilder ++ TokenText s) ++ "")%string
        with (pathBuilder ++ TokenText s)%string; [reflexivity|].
      generalize (pathBuilder ++ TokenText s)%string.
      intros x. induction x; simpl; congruence.
    + exists (scan s). split; [apply String.eqb_eq; exact Eend|reflexivity].
  - destruct (forbiddenCharacters _); [discriminate|].
    intros H. apply IH in H. destruct H as [rest [-> Hafter]].
    exists (TokenText (scan s) ++ rest)%string. split; [|exact Hafter].
    rewrite append_assoc_string. reflexivity.
Qed.

Lemma extractSubstitution_optional (fuel : nat) (s s' : T)
    (v : ConfigValue) :
  extractSubstitution fuel s = Ok (v, s') ->
  exists path,
    v = Substitution path (String.eqb (TokenText (scan (scan s))) "?").
Proof.
  unfold extractSubstitution.
  destruct (String.eqb (TokenText (scan (scan s))) "?");
    (destruct (String.eqb _ objectEndToken); [discriminate|];
     destruct (String.eqb _ dotToken); [discriminate|];
     destruct (Z.eqb _ _); [discriminate|];
     intros H; apply substitutionLoop_result in H;
     destruct H as [rest [-> _]]; eexists; reflexivity).
Qed.

(** A substitution returned by [extractSubstitution] is optional exactly
    when [?] follows the opening [${]; its path starts with the text of
    the first token of the path, and the scanner has consumed the closing
    brace. *)
Theorem extractSubstitution_result (fuel : nat) (s s' : T)
    (v : ConfigValue) :
  extractSubstitution fuel s = Ok (v, s') ->
  let optional := String.eqb (TokenText (scan (scan s))) "?" in
  let first := if optional then scan (scan (scan s)) else scan (scan s) in
  exists rest,
    v = Substitution (TokenText first ++ rest) optional
    /\ rightAfter objectEndToken s'.
Proof.
  unfold extractSubstitution.
  destruct (String.eqb (TokenText (scan (scan s))) "?"); simpl.
  - destruct (String.eqb _ objectEndToken); [discriminate|].
    destruct (String.eqb _ dotToken); [discriminate|].
    destruct (Z.eqb _ _); [discriminate|].
    intros H. apply substitutionLoop_result in H. exact H.
  - destruct (String.eqb _ objectEndToken); [discriminate|].
    destruct (String.eqb _ dotToken); [discriminate|].
    destruct (Z.eqb _ _); [discriminate|].
    intros H. apply substitutionLoop_result in H. exact H.
Qed.

(** The kind of value that [extractConfigValue] returns is decided by the
    token it is on: a number, a string, [null] or a boolean literal for the
    token classes of the scanner, an object after [{], an array after [[],
    a substitution after [${]; no other token starts a value. *)
Theorem value_kind_follows_token (fuel : nat) (currentRune : rune)
    (s s' : T) (v : ConfigValue) :
  extractConfigValue fuel currentRune s = Ok (v, s') ->
  startsValue currentRune s v.
Proof.
  intros H. destruct fuel as [|fuel]; [discriminate|]. simpl in H.
  destruct (Z.eqb currentRune scanner.Int) eqn:Eint.
  { destruct (Atoi (TokenText s)); [|discriminate].
    injection H as <- _. apply Z.eqb_eq. exact Eint. }
  destruct (Z.eqb currentRune scanner.Float) eqn:Efloat.
  { destruct (ParseFloat32 (TokenText s)); [|discriminate].
    injection H as <- _. apply Z.eqb_eq. exact Efloat. }
  destruct (Z.eqb currentRune scanner.String) eqn:Estring.
  { injection H as <- _. apply Z.eqb_eq. exact Estring. }
  destruct (Z.eqb currentRune scanner.Ident) eqn:Eident.
  { apply Z.eqb_eq in Eident.
    destruct (String.eqb (TokenText s) "null") eqn:Enull.
    - injection H as <- _. split; [exact Eident|].
      apply String.eqb_eq. exact Enull.
    - destruct (isBooleanString (TokenText s)) eqn:Ebool; [|discriminate].
      injection H as <- _. split; assumption. }
  destruct (String.eqb (TokenText s) objectStartToken) eqn:Eobj.
  { bind_pair H obj s1 Hobj. injection H as <- _.
    apply String.eqb_eq. exact Eobj. }
  destruct (String.eqb (TokenText s) arrayStartToken) eqn:Earr.
  { bind_pair H arr s1 Harr. injection H as <- _.
    apply String.eqb_eq. exact Earr. }
  destruct (isSubstitution (TokenText s) (Peek s)) eqn:Esub; [|discriminate].
  apply extractSubstitution_optional in H.
  destruct H as [path ->]. simpl.
  unfold isSubstitution in Esub. apply andb_prop in Esub.
  destruct Esub as [E1 E2]. apply String.eqb_eq in E1. apply Z.eqb_eq in E2.
  auto.
Qed.

End Values.

Lemma extractSubstitution_result_witness :
  exists rest,
    Substitution "a.b" true =
    Substitution (TokenText (after 6 "x = ${?a.b}") ++ rest) true
    /\ rightAfter objectEndToken (after 10 "x = ${?a.b}").
Proof.
  refine (@extractSubstitution_result _ textScanner 10
            (after 3 "x = ${?a.b}") _ _ _).
  vm_compute. reflexivity.
Defined.

Lemma value_kind_follows_token_witness :
  startsValue (scanner.Ident) (after 3 "a = yes") (Boolean true).
Proof.
  refine (@value_kind_follows_token _ textScanner noFiles 1 scanner.Ident
            (after 3 "a = yes") _ _ _).
  vm_compute. reflexivity.
Defined.

(** ** Periods in keys and paths *)

Section Periods.

Context {T : Type} {scannerOps : Scanner T} {platform : Platform}.

(** A key path is refused when it starts with a period, when two periods
    follow each other and when a period is followed by a separator
    ([=], [:] or [+=]): the object under construction is dropped and the
    extraction fails with the leading, adjacent or trailing period error. *)
Theorem key_path_period_errors (fuel : nat) (root : Items) (balanced : bool)
    (s : T) :
  Peek s <> scanner.EOF ->
  (TokenText s = dotToken ->
   objectLoop (S fuel) root balanced s = Err LeadingPeriod)
  /\ (TokenText s <> includeToken ->
      forbiddenCharacters (TokenText s) = false ->
      TokenText s <> dotToken ->
      TokenText (scan s) = dotToken ->
      (TokenText (scan (scan s)) = dotToken ->
       objectLoop (S fuel) root balanced s = Err AdjacentPeriods)
      /\ (TokenText (scan (scan s)) <> dotToken ->
          isSeparator (TokenText (scan (scan s))) (Peek (scan (scan s)))
          = true ->
          objectLoop (S fuel) root balanced s = Err TrailingPeriod)).
Proof.
  intros Hpeek. apply Z.eqb_neq in Hpeek. split.
  - intros Hdot.
    assert (Hinc : String.eqb dotToken includeToken = false)
      by (apply String.eqb_neq; discriminate).
    assert (Hforb : forbiddenCharacters dotToken = false)
      by (vm_compute; reflexivity).
    assert (Hkey : String.eqb dotToken dotToken = true)
      by (apply String.eqb_refl).
    simpl. rewrite Hpeek, Hdot, Hinc. simpl.
    rewrite Hdot, Hforb, Hkey. reflexivity.
  - intros Hinc Hforb Hkey Hnext.
    apply String.eqb_neq in Hinc, Hkey. split.
    + intros Hdot. simpl. rewrite Hpeek, Hinc. simpl.
      rewrite Hforb, Hkey, Hnext. simpl. rewrite Hdot. reflexivity.
    + intros Hnot Hsep. apply String.eqb_neq in Hnot.
      simpl. rewrite Hpeek, Hinc. simpl.
      rewrite Hforb, Hkey, Hnext. simpl. rewrite Hnot, Hsep. reflexivity.
Qed.

(** A substitution is refused when its path is empty, when the path starts
    with a period, when the input ends right after the first token of the
    path, and, inside the path, when two periods follow each other or a
    period comes right before the closing brace. *)
Theorem substitution_path_errors (fuel : nat) (s : T) :
  let afterMark :=
    if String.eqb (TokenText (scan (scan s))) "?"
    then scan (scan (scan s)) else scan (scan s) in
  (TokenText afterMark = objectEndToken ->
   extractSubstitution fuel s =
   Err (InvalidSubstitution "path expression cannot be empty"))
  /\ (TokenText afterMark = dotToken ->
      extractSubstitution fuel s = Err LeadingPeriod)
  /\ (TokenText afterMark <> objectEndToken ->
      TokenText afterMark <> dotToken ->
      Peek afterMark = scanner.EOF ->
      extractSubstitution fuel s =
      Err (InvalidSubstitution "missing closing parenthesis"))
  /\ (forall optional pathBuilder (p : T),
         TokenText (scan p) = dotToken ->
         substitutionLoop (S fuel) optional pathBuilder dotToken p =
         Err AdjacentPeriods)
  /\ (forall optional pathBuilder (p : T),
         TokenText (scan p) = objectEndToken ->
         substitutionLoop (S fuel) optional pathBuilder dotToken p =
         Err TrailingPeriod).
Proof.
  simpl. unfold extractSubstitution.
  destruct (String.eqb (TokenText (scan (scan s))) "?");
    (split; [|split; [|split; [|split]]]).
  all: try (intros H; rewrite H; reflexivity).
  all: try (intros H1 H2 H3; apply String.eqb_neq in H1, H2;
            rewrite H1, H2, H3; reflexivity).
  all: try (intros optional pathBuilder p H; simpl; rewrite H; reflexivity).
Qed.

End Periods.

Lemma key_path_period_errors_witness :
  @objectLoop _ textScanner noFiles 1 [] true (after 1 ".a = 1") =
  Err LeadingPeriod
  /\ @objectLoop _ textScanner noFiles 1 [] true (after 1 "a..b = 1") =
     Err AdjacentPeriods
  /\ @objectLoop _ textScanner noFiles 1 [] true (after 1 "a. += 1") =
     Err TrailingPeriod.
Proof.
  split; [|split].
  - apply (proj1 (@key_path_period_errors _ textScanner noFiles 0 [] true
                    (after 1 ".a = 1") ltac:(vm_compute; discriminate)));
      vm_compute; reflexivity.
  - apply (proj1 (proj2 (@key_path_period_errors _ textScanner noFiles 0 []
                           true (after 1 "a..b = 1")
                           ltac:(vm_compute; discriminate))
                    ltac:(vm_compute; discriminate)
                    ltac:(vm_compute; reflexivity)
                    ltac:(vm_compute; discriminate)
                    ltac:(vm_compute; reflexivity)));
      vm_compute; reflexivity.
  - apply (proj2 (proj2 (@key_path_period_errors _ textScanner noFiles 0 []
                           true (after 1 "a. += 1")
                           ltac:(vm_compute; discriminate))
                    ltac:(vm_compute; discriminate)
                    ltac:(vm_compute; reflexivity)
                    ltac:(vm_compute; discriminate)
                    ltac:(vm_compute; reflexivity)));
      [vm_compute; discriminate|vm_compute; reflexivity].
Defined.

Lemma substitution_path_errors_witness :
  @extractSubstitution _ textScanner 5 (after 3 "a = ${?}") =
  Err (InvalidSubstitution "path expression cannot be empty")
  /\ @extractSubstitution _ textScanner 5 (after 3 "a = ${.b}") =
     Err LeadingPeriod
  /\ @extractSubstitution _ textScanner 5 (after 3 "a = ${b") =
     Err (InvalidSubstitution "missing closing parenthesis").
Proof.
  split; [|split].
  - apply (proj1 (@substitution_path_errors _ textScanner 5
                    (after 3 "a = ${?}"))).
    vm_compute. reflexivity.
  - apply (proj1 (proj2 (@substitution_path_errors _ textScanner 5
                           (after 3 "a = ${.b}")))).
    vm_compute. reflexivity.
  - apply (proj1 (proj2 (proj2 (@substitution_path_errors _ textScanner 5
                                  (after 3 "a = ${b")))));
      vm_compute; try reflexivity; discriminate.
Defined.

(** ** The keys of extracted objects *)

Lemma keysAllowed_Object (items : Items) :
  keysAllowed (Object items) = true <->
  (forall k v, In (k, v) items ->
               keyAllowed k = true /\ keysAllowed v = true).
Proof.
  simpl. rewrite forallb_forall. split.
  - intros H k v Hin. apply andb_prop. apply (H (k, v)). exact Hin.
  - intros H [k v] Hin. apply andb_true_intro. apply (H k v). exact Hin.
Qed.

Lemma In_set (items : Items) (key : string) (v : ConfigValue) :
  forall k' v', In (k', v') (set items key v) ->
                (k' = key /\ v' = v) \/ In (k', v') items.
Proof.
  induction items as [|[k w] rest IH]; simpl; intros k' v'.
  - intros [[= <- <-]|[]]. left. split; reflexivity.
  - destruct (String.eqb k key) eqn:E.
    + apply String.eqb_eq in E. subst k.
      intros [[= <- <-]|H]; [left; split; reflexivity|right; right; exact H].
    + intros [[= <- <-]|H]; [right; left; reflexivity|].
      destruct (IH _ _ H) as [Heq|Hin]; [left; exact Heq|right; right].
      exact Hin.
Qed.

Lemma keysAllowed_set (items : Items) (key : string) (v : ConfigValue) :
  keysAllowed (Object items) = true -> keyAllowed key = true ->
  keysAllowed v = true -> keysAllowed (Object (set items key v)) = true.
Proof.
  intros Hi Hk Hv. apply keysAllowed_Object. intros k' v' Hin.
  destruct (In_set _ _ _ _ _ Hin) as [[-> ->]|Hold]; [split; assumption|].
  apply (proj1 (keysAllowed_Object items) Hi). exact Hold.
Qed.

Lemma keysAllowed_get (items : Items) (key : string) (v : ConfigValue) :
  keysAllowed (Object items) = true -> get items key = Some v ->
  keyAllowed key = true /\ keysAllowed v = true.
Proof.
  intros Hi Hg. apply (proj1 (keysAllowed_Object items) Hi).
  apply get_Some_In. exact Hg.
Qed.

Lemma keysAllowed_mergeValue (v : ConfigValue) :
  forall existing : option ConfigValue,
    keysAllowed v = true ->
    (forall e, existing = Some e -> keysAllowed e = true) ->
    keysAllowed (mergeValue v existing) = true.
Proof.
  induction v as [new IHv|values IHv| | | | | | |] using ConfigValue_ind';
    intros existing Hv He; try exact Hv.
  destruct existing as [[existingItems| | | | | | | |]|]; try exact Hv.
  rewrite mergeValue_Object.
  assert (Hex : keysAllowed (Object existingItems) = true)
    by (apply He; reflexivity).
  clear He. revert existingItems Hex.
  pose proof (proj1 (keysAllowed_Object new) Hv) as Hall. clear Hv.
  induction new as [|[k w] rest IHnew]; intros existingItems Hex; simpl;
    [exact Hex|].
  inversion IHv as [|? ? Hw IHrest]; subst.
  destruct (Hall k w (or_introl eq_refl)) as [Hk Hkw].
  apply IHnew; auto.
  - intros k' v' H. apply (Hall k'). right. exact H.
  - apply keysAllowed_set; [exact Hex|exact Hk|].
    apply Hw; [exact Hkw|].
    intros e Hg. eapply keysAllowed_get; eauto.
Qed.

Lemma keysAllowed_mergeConfigObjects (existingItems new : Items) :
  keysAllowed (Object existingItems) = true ->
  keysAllowed (Object new) = true ->
  keysAllowed (Object (mergeConfigObjects existingItems new)) = true.
Proof.
  intros He Hn. rewrite <- mergeValue_Object.
  apply keysAllowed_mergeValue; [exact Hn|]. intros e [= <-]. exact He.
Qed.

Lemma keysAllowed_assignValue (root : Items) (key : string)
    (v : ConfigValue) :
  keysAllowed (Object root) = true -> keyAllowed key = true ->
  keysAllowed v = true ->
  keysAllowed (Object (assignValue root key v)) = true.
Proof.
  intros Hr Hk Hv. unfold assignValue.
  apply keysAllowed_set; [exact Hr|exact Hk|].
  destruct v as [new| | | | | | | |]; try exact Hv.
  destruct (get root key) as [e|] eqn:E; [|exact Hv].
  destruct e; try exact Hv.
  apply keysAllowed_mergeConfigObjects; [|exact Hv].
  apply (keysAllowed_get root key); assumption.
Qed.

Lemma keysAllowed_snoc (values : list ConfigValue) (v : ConfigValue) :
  keysAllowed (Array values) = true -> keysAllowed v = true ->
  keysAllowed (Array (values ++ [v])) = true.
Proof.
  simpl. intros Ha Hv. rewrite forallb_app, Ha. simpl. rewrite Hv.
  reflexivity.
Qed.

Section Keys.

Context {T : Type} {scannerOps : Scanner T} {platform : Platform}.

Lemma substitutionLoop_keys (fuel : nat) :
  forall (optional : bool) (pathBuilder previousToken : string) (s s' : T)
         (v : ConfigValue),
    substitutionLoop fuel optional pathBuilder previousToken s = Ok (v, s') ->
    keysAllowed v = true.
Proof.
  intros optional pathBuilder previousToken s s' v H.
  destruct (substitutionLoop_result _ _ _ _ _ _ _ H) as [path [-> _]].
  reflexivity.
Qed.

Local Opaque forbiddenCharacters String.eqb isSeparator.

Lemma extractor_keys_allowed (fuel : nat) : ExtractsAllowedKeys fuel.
Proof.
  induction fuel as [|fuel IH].
  - repeat split; intros; discriminate.
  - destruct IH as (IHobj & IHloop & IHplus & IHinc & IHarr & IHaloop & IHval).
    repeat apply conj.
    + intros s s' items. simpl.
      destruct (String.eqb (TokenText s) objectStartToken).
      * destruct (String.eqb _ objectEndToken).
        -- intros [= <- _]. reflexivity.
        -- apply IHloop. reflexivity.
      * apply IHloop. reflexivity.
    + intros root balanced s s' items Hroot H.
      simpl in H.
      destruct (Z.eqb (Peek s) scanner.EOF).
      { unfold finishObject in H. destruct (negb balanced); [discriminate|].
        injection H as <- _. exact Hroot. }
      bind_pair H root0 s0 E1.
      assert (H0 : keysAllowed (Object root0) = true).
      { destruct (String.eqb (TokenText s) includeToken).
        - bind_pair E1 inc s1 Einc. injection E1 as <- _.
          apply keysAllowed_mergeConfigObjects; eauto.
        - injection E1 as <- _. exact Hroot. }
      clear E1.
      destruct (forbiddenCharacters (TokenText s0)) eqn:Ef; [discriminate|].
      destruct (String.eqb (TokenText s0) dotToken) eqn:Ed; [discriminate|].
      assert (Hkey : keyAllowed (TokenText s0) = true).
      { unfold keyAllowed. rewrite Ef, Ed. reflexivity. }
      bind_pair H root1 s1 E2.
      assert (H1 : keysAllowed (Object root1) = true).
      { destruct (_ || _).
        - match type of E2 with
          | bind ?r _ = _ => destruct r as [s1'| |] eqn:Es; simpl in E2;
                             try discriminate E2
          end.
          bind_pair E2 obj s2 Eobj. injection E2 as <- _.
          apply keysAllowed_set; eauto.
        - injection E2 as <- _. exact H0. }
      clear E2.
      bind_pair H root2 s2 E3.
      assert (H2 : keysAllowed (Object root2) = true).
      { destruct (_ || _).
        - destruct (Scan s1) as [currentRune s2'].
          bind_pair E3 v s3 Ev. injection E3 as <- _.
          apply keysAllowed_assignValue; eauto.
        - destruct (String.eqb (TokenText (scan s0)) "+").
          + destruct (Z.eqb (Peek s1) (rune_of "=")).
            * destruct (Scan (scan s1)) as [currentRune s2'].
              eapply IHplus; eauto.
            * injection E3 as <- _. exact H1.
          + injection E3 as <- _. exact H1. }
      clear E3.
      destruct (negb balanced && _).
      * unfold finishObject in H. simpl in H. injection H as <- _. exact H2.
      * eapply IHloop; eauto.
    + intros existingItems key currentRune s s' items Hex Hkey H.
      simpl in H.
      destruct (get existingItems key) as [existing|] eqn:Eget.
      * destruct existing; try discriminate.
        bind_pair H v s1 Ev. injection H as <- _.
        apply keysAllowed_set; [exact Hex|exact Hkey|].
        apply keysAllowed_snoc; [eapply keysAllowed_get; eauto|eauto].
      * bind_pair H v s1 Ev. injection H as <- _.
        apply keysAllowed_set; [exact Hex|exact Hkey|].
        apply (keysAllowed_snoc []); [reflexivity|eauto].
    + intros s s' items H. simpl in H.
      bind_pair H token s1 Ev.
      destruct (os_Open (includePath token)).
      * destruct (String.eqb _ arrayStartToken); [discriminate|].
        bind_pair H obj s2 Eobj. injection H as <- _. eauto.
      * destruct (negb (includeRequired token)); [|discriminate].
        injection H as <- _. reflexivity.
      * discriminate.
    + intros s s' values H. simpl in H.
      destruct (negb _); [discriminate|].
      destruct (Scan s) as [currentRune s1].
      destruct (String.eqb _ arrayEndToken).
      * injection H as <- _. reflexivity.
      * apply (IHaloop [] _ _ _ _ eq_refl H).
    + intros values currentRune s s' values' Hvalues H. simpl in H.
      destruct (Z.eqb (Peek s) scanner.EOF); [discriminate|].
      bind_pair H v s1 Ev.
      assert (Hsnoc : keysAllowed (Array (values ++ [v])) = true)
        by (apply keysAllowed_snoc; eauto).
      destruct (String.eqb (TokenText s1) commaToken).
      * destruct (Scan s1) as [currentRune' s2].
        destruct (String.eqb _ arrayEndToken).
        -- injection H as <- _. exact Hsnoc.
        -- eapply IHaloop; eauto.
      * destruct (String.eqb _ arrayEndToken).
        -- injection H as <- _. exact Hsnoc.
        -- eapply IHaloop; eauto.
    + intros currentRune s s' v H. simpl in H.
      destruct (Z.eqb currentRune scanner.Int).
      { destruct (Atoi (TokenText s)); [|discriminate].
        injection H as <- _. reflexivity. }
      destruct (Z.eqb currentRune scanner.Float).
      { destruct (ParseFloat32 (TokenText s)); [|discriminate].
        injection H as <- _. reflexivity. }
      destruct (Z.eqb currentRune scanner.String).
      { injection H as <- _. reflexivity. }
      destruct (Z.eqb currentRune scanner.Ident).
      { destruct (String.eqb (TokenText s) "null").
        - injection H as <- _. reflexivity.
        - destruct (isBooleanString (TokenText s)); [|discriminate].
          injection H as <- _. reflexivity. }
      destruct (String.eqb (TokenText s) objectStartToken).
      { bind_pair H obj s1 Eobj. injection H as <- _. eauto. }
      destruct (String.eqb (TokenText s) arrayStartToken).
      { bind_pair H arr s1 Earr. injection H as <- _. eauto. }
      destruct (isSubstitution (TokenText s) (Peek s)); [|discriminate].
      unfold extractSubstitution in H.
      destruct (String.eqb (TokenText (scan (scan s))) "?");
        (destruct (String.eqb _ objectEndToken); [discriminate|];
         destruct (String.eqb _ dotToken); [discriminate|];
         destruct (Z.eqb _ _); [discriminate|];
         eapply substitutionLoop_keys; eauto).
Qed.

Local Transparent forbiddenCharacters String.eqb isSeparator.

(** No key of an extracted value is a forbidden character or a period:
    every key of every object in it, at any depth, whether it comes from
    the document, from a dotted key, from [+=] or from an included file,
    passed the check of [extractConfigObject]. *)
Theorem extracted_keys_allowed (fuel : nat) (currentRune : rune) (s s' : T)
    (v : ConfigValue) :
  extractConfigValue fuel currentRune s = Ok (v, s') ->
  keysAllowed v = true.
Proof.
  destruct (extractor_keys_allowed fuel) as (_ & _ & _ & _ & _ & _ & Hval).
  apply Hval.
Qed.

End Keys.

Lemma extracted_keys_allowed_witness :
  @extractConfigValue _ textScanner noFiles 6 (rune_of "{")
    (after 1 "{a {b = 1}, c += 2} d") =
  Ok (Object [("a", Object [("b", Int 1)]); ("c", Array [Int 2])],
      after 14 "{a {b = 1}, c += 2} d")
  /\ keysAllowed
       (Object [("a", Object [("b", Int 1)]); ("c", Array [Int 2])]) = true.
Proof.
  split; [vm_compute; reflexivity|].
  apply (@extracted_keys_allowed _ textScanner noFiles 6 (rune_of "{")
           (after 1 "{a {b = 1}, c += 2} d")
           (after 14 "{a {b = 1}, c += 2} d")).
  vm_compute. reflexivity.
Defined.

(** ** The pass ends on every document *)

Lemma sameShape_isContainer (s0 c : ConfigValue) :
  sameShape s0 c -> isContainer c = true.
Proof. destruct s0, c; simpl; try tauto; reflexivity. Qed.

Lemma Unvisited_write (s0 c : ConfigValue) (st : step) (todo : list step)
    (x : ConfigValue) :
  Unvisited s0 (st :: todo) c -> ~ In st todo ->
  Unvisited s0 todo (updateAt c [st] (fun _ => x)).
Proof.
  intros [Hshape Hsame] Hnotin. split.
  - eapply sameShape_trans; [exact Hshape|].
    apply sameShape_update. eapply sameShape_isContainer; eauto.
  - intros st' Hin. rewrite lookup_update_other.
    + apply Hsame. right. exact Hin.
    + intros ->. apply Hnotin. exact Hin.
Qed.

Lemma Unvisited_skip (s0 c : ConfigValue) (st : step) (todo : list step) :
  Unvisited s0 (st :: todo) c -> Unvisited s0 todo c.
Proof.
  intros [Hshape Hsame]. split; [exact Hshape|].
  intros st' Hin. apply Hsame. right. exact Hin.
Qed.

Section PassEnds.

Context {platform : Platform}.

Lemma visit_ends (fuel : nat) :
  (forall f, f < fuel -> Ends f) ->
  forall (a : addr) (s0 rbase c : ConfigValue) (st : step)
         (todo : list step) (v0 : ConfigValue),
    lookupAddr rbase a = Some s0 -> isTree s0 ->
    Unvisited s0 (st :: todo) c -> ~ In st todo ->
    lookupAddr s0 [st] = Some v0 ->
    2 * height s0 <= S fuel ->
    (exists c1,
        visit fuel a st (updateAt rbase a (fun _ => c)) =
        Ok (updateAt rbase a (fun _ => c1))
        /\ Unvisited s0 todo c1)
    \/ (exists path,
           visit fuel a st (updateAt rbase a (fun _ => c)) =
           Err (UnresolvedSubstitution path)).
Proof.
  intros IH a s0 rbase c st todo v0 Hb Hs0 Hinv Hnotin Hv0 Hfuel.
  set (r := updateAt rbase a (fun _ => c)) in *.
  assert (Hr : lookupAddr r a = Some c)
    by (apply (lookupAddr_updateAt _ _ _ _ Hb)).
  assert (Hc : lookupAddr c [st] = Some v0).
  { destruct Hinv as [_ Hsame]. rewrite (Hsame st (or_introl eq_refl)).
    exact Hv0. }
  assert (Hr1 : lookupAddr r (a ++ [st]) = Some v0)
    by (rewrite lookupAddr_app, Hr; exact Hc).
  assert (Htree : isTree v0) by (eapply isTree_step; eauto).
  assert (Hh := height_child _ _ _ Hv0).
  assert (Hkeep : exists c1, Ok r = Ok (updateAt rbase a (fun _ => c1))
                             /\ Unvisited s0 todo c1).
  { exists c. split; [reflexivity|]. eapply Unvisited_skip; eauto. }
  assert (Hwrite : forall x,
             exists c1,
               Ok (updateAt r (a ++ [st]) (fun _ => x)) =
               Ok (updateAt rbase a (fun _ => c1))
               /\ Unvisited s0 todo c1).
  { intros x. exists (updateAt c [st] (fun _ => x)). split.
    - unfold r. rewrite (updateAt_child _ _ _ _ _ _ Hb). reflexivity.
    - apply Unvisited_write; assumption. }
  destruct fuel as [|f]; [lia|].
  unfold visit. rewrite Hr1. simpl.
  assert (Hsub : isContainer v0 = true ->
            (exists c1,
                resolveSubstitutions f r (a ++ [st]) =
                Ok (updateAt rbase a (fun _ => c1))
                /\ Unvisited s0 todo c1)
            \/ (exists path,
                   resolveSubstitutions f r (a ++ [st]) =
                   Err (UnresolvedSubstitution path))).
  { intros Hcont.
    destruct (IH f (Nat.lt_succ_diag_r f) r (a ++ [st]) v0 Hr1 Htree Hcont
                ltac:(lia)) as [[s' [Hok _]]|Herr]; [left|right; exact Herr].
    rewrite Hok. apply Hwrite. }
  destruct v0 as [items|values|x|x|x|x| |path optional|target]; simpl.
  - apply Hsub. reflexivity.
  - apply Hsub. reflexivity.
  - left. exact Hkeep.
  - left. exact Hkeep.
  - left. exact Hkeep.
  - left. exact Hkeep.
  - left. exact Hkeep.
  - destruct (find r path) as [found|]; [left; apply Hwrite|].
    destruct optional; simpl; [left; exact Hkeep|].
    right. exists path. reflexivity.
  - inversion Htree; discriminate.
Qed.

Lemma visits_end (fuel : nat) :
  (forall f, f < fuel -> Ends f) ->
  forall (a : addr) (s0 rbase : ConfigValue),
    lookupAddr rbase a = Some s0 -> isTree s0 ->
    2 * height s0 <= S fuel ->
    forall (todo : list step) (c : ConfigValue),
      NoDup todo ->
      (forall st, In st todo -> lookupAddr s0 [st] <> None) ->
      Unvisited s0 todo c ->
      (exists c',
          forEach todo (visit fuel a) (updateAt rbase a (fun _ => c)) =
          Ok (updateAt rbase a (fun _ => c'))
          /\ sameShape s0 c')
      \/ (exists path,
             forEach todo (visit fuel a) (updateAt rbase a (fun _ => c)) =
             Err (UnresolvedSubstitution path)).
Proof.
  intros IH a s0 rbase Hb Hs0 Hfuel todo.
  induction todo as [|st todo IHtodo]; intros c Hnd Hex Hinv.
  - left. exists c. split; [reflexivity|]. apply Hinv.
  - inversion Hnd as [|? ? Hnotin Hnd']; subst.
    destruct (lookupAddr s0 [st]) as [v0|] eqn:Hv0;
      [|exfalso; apply (Hex st (or_introl eq_refl)); exact Hv0].
    simpl.
    destruct (visit_ends fuel IH a s0 rbase c st todo v0
                Hb Hs0 Hinv Hnotin Hv0 Hfuel)
      as [[c1 [Hr1 Hinv1]]|[path He]].
    + rewrite Hr1. simpl. apply IHtodo; auto.
      intros st' Hin. apply Hex. right. exact Hin.
    + right. exists path. rewrite He. reflexivity.
Qed.

Lemma resolveSubstitutions_ends (fuel : nat) : Ends fuel.
Proof.
  induction fuel as [fuel IH] using lt_wf_ind.
  intros r a s0 Hr Ht Hc Hfuel.
  destruct fuel as [|f]; [destruct s0; simpl in *; try discriminate; lia|].
  rewrite resolveSubstitutions_visits, Hr.
  assert (IH' : forall f', f' < f -> Ends f')
    by (intros f' Hlt; apply IH; lia).
  assert (Hloop : forall todo,
             NoDup todo ->
             (forall st, In st todo -> lookupAddr s0 [st] <> None) ->
             (exists s',
                 forEach todo (visit f a) r =
                 Ok (updateAt r a (fun _ => s'))
                 /\ sameShape s0 s')
             \/ (exists path,
                    forEach todo (visit f a) r =
                    Err (UnresolvedSubstitution path))).
  { intros todo Hnd Hex.
    assert (Hstart : Unvisited s0 todo s0)
      by (split; [apply sameShape_refl_container; exact Hc|reflexivity]).
    destruct (visits_end f IH' a s0 r Hr Ht Hfuel todo s0 Hnd Hex Hstart)
      as [[c' [Hok Hshape]]|[path He]];
      rewrite (updateAt_same a r s0 Hr) in *; eauto. }
  destruct s0 as [items|values| | | | | | |]; try discriminate.
  - inversion Ht as [? Hnd _| |? Hc' _]; subst; [|discriminate].
    apply Hloop.
    + apply NoDup_map_injective; [intros x y [= ->]; reflexivity|].
      eapply Permutation_NoDup;
        [apply Permutation_sym, mapRange_permutation|exact Hnd].
    + intros st Hin. apply in_map_iff in Hin.
      destruct Hin as [k [<- Hin]]. apply mapRange_In in Hin.
      destruct (get_In _ _ Hin) as [v [Hv _]]. simpl. rewrite Hv. discriminate.
  - apply Hloop.
    + apply NoDup_map_injective; [intros x y [= ->]; reflexivity|].
      apply seq_NoDup.
    + intros st Hin. apply in_map_iff in Hin.
      destruct Hin as [i [<- Hin]]. apply in_seq in Hin. simpl.
      destruct (nth_error values i) eqn:E; [discriminate|].
      apply nth_error_None in E. lia.
Qed.

End PassEnds.

(** For every object-rooted document read to its end, whatever its
    substitutions refer to (values, other substitutions, themselves,
    nothing), and with fuel for the depth of the extracted tree, the parse
    ends in one of two ways: it returns a root object with the keys of the
    extracted one, in their order, or it fails with the
    unresolved-substitution error.  The pass never uses up its fuel and
    never reports the resolution-type error. *)
Theorem parse_ends_after_extraction
    (T : Type) (sc : Scanner T) (pf : Platform)
    (fuel : nat) (p p' : T) (items : Items) :
  String.eqb (TokenText (scan p)) arrayStartToken = false ->
  extractConfigObject fuel (scan p) = Ok (items, p') ->
  TokenText p' = "" ->
  2 * height (Object items) <= fuel ->
  (exists items',
      parse fuel p = Ok (mkConfig (Object items'))
      /\ keys items' = keys items)
  \/ (exists path, parse fuel p = Err (UnresolvedSubstitution path)).
Proof.
  intros Harr Hext Htok Hfuel.
  assert (Htree : isTree (Object items)).
  { destruct (@extractor_builds_trees T sc pf fuel) as [Hobj _].
    eapply Hobj; eauto. }
  assert (Hparse : parse fuel p =
                   bind (resolveSubstitutions fuel (Object items) [])
                     (fun r => Ok (mkConfig r))).
  { unfold parse. rewrite Harr, Hext. simpl. rewrite Htok. reflexivity. }
  rewrite Hparse.
  destruct (resolveSubstitutions_ends fuel (Object items) [] (Object items)
              eq_refl Htree eq_refl Hfuel)
    as [[s' [Hok Hshape]]|[path He]].
  - left. rewrite Hok. simpl. destruct s'; simpl in Hshape; try tauto.
    eexists. split; [reflexivity|exact Hshape].
  - right. exists path. rewrite He. reflexivity.
Qed.

Lemma parse_ends_after_extraction_witness :
  (exists items',
      @parse _ textScanner noFiles 30 (Init chainDocument) =
      Ok (mkConfig (Object items'))
      /\ keys items' = ["a"; "b"; "c"])
  \/ (exists path,
         @parse _ textScanner noFiles 30 (Init chainDocument) =
         Err (UnresolvedSubstitution path)).
Proof.
  refine (parse_ends_after_extraction _ textScanner noFiles 30
            (Init chainDocument) _
            [("a", Substitution "b" false); ("b", Substitution "c" false);
             ("c", Int 1)] _ _ _ _);
    try (vm_compute; reflexivity).
  vm_compute. lia.
Defined.
